(** * smartone-epg: the playlist / programme-guide matcher of [auto_match.py]

    A shallow embedding of [src/auto_match.py] and of the parts of the Python
    runtime it calls ([str] methods, the [re] patterns it uses, [difflib]'s
    [SequenceMatcher.ratio], binary64 arithmetic, the UTF-8 decoder), followed
    by the properties of the pipeline.

    Conventions.
    - A Python [str] is a list of Unicode code points ([text]).
    - A Python [float] is a binary64 value of [SpecFloat] (53-bit mantissa).
    - A Python [dict] keeps insertion order: an association list with update
      in place ([dict_set]).
    - A Python [set] has no observable order.  The program only uses [add]
      and [in], which are the interface [PySet]; the pipeline is defined for
      every implementation of it.
    - [str.lower] depends on the Unicode database; it is a parameter [lower]
      of the development, instantiated by [ascii_lower] for concrete runs.
    - [main] is followed from the two documents it downloads to the two
      files it writes; the lines it prints are left out. *)

From Stdlib Require Import ZArith List Bool Lia String Ascii.
From Stdlib Require Import Strings.Byte.
From Stdlib Require Import Floats.SpecFloat.
From stdpp Require Import base decidable option list gmap.

Local Open Scope Z_scope.

(** ** Text *)

Abbreviation text := (list Z).

(** A string literal of the source, as code points. *)
Definition py (s : string) : text :=
  map (fun c => Z.of_N (N_of_ascii c)) (list_ascii_of_string s).

Definition NL : Z := 10.
Definition CR : Z := 13.

(** [Py_UNICODE_ISSPACE]: what [str.strip()] removes and what [\s] matches
    in a [str] pattern. *)
Definition is_space (c : Z) : bool :=
  ((9 <=? c) && (c <=? 13)) || ((28 <=? c) && (c <=? 32))
  || (c =? 133) || (c =? 160) || (c =? 5760)
  || ((8192 <=? c) && (c <=? 8202))
  || (c =? 8232) || (c =? 8233) || (c =? 8239) || (c =? 8287) || (c =? 12288).

(** [Py_UNICODE_ISLINEBREAK]: the line boundaries of [str.splitlines()]. *)
Definition is_linebreak (c : Z) : bool :=
  ((10 <=? c) && (c <=? 13)) || ((28 <=? c) && (c <=? 30))
  || (c =? 133) || (c =? 8232) || (c =? 8233).

(** [s.lstrip()], [s.rstrip()], [s.strip()] *)
Fixpoint lstrip (s : text) : text :=
  match s with
  | c :: s' => if is_space c then lstrip s' else s
  | [] => []
  end.

Definition rstrip (s : text) : text := rev (lstrip (rev s)).

Definition strip (s : text) : text := rstrip (lstrip s).

(** [s.startswith(p)] *)
Fixpoint startswith (s p : text) : bool :=
  match p, s with
  | [], _ => true
  | x :: p', y :: s' => (x =? y) && startswith s' p'
  | _ :: _, [] => false
  end.

(** [c in s] for a one-character [c] *)
Definition contains_char (c : Z) (s : text) : bool := existsb (Z.eqb c) s.

(** [s.split(c, 1)[1]] when [c] occurs in [s]: what follows its first
    occurrence. *)
Fixpoint after_first (c : Z) (s : text) : text :=
  match s with
  | [] => []
  | x :: s' => if x =? c then s' else after_first c s'
  end.

(** [s.splitlines()]: [cur] is the line being read, in reverse.  A carriage
    return followed by a line feed is one boundary; no empty last line. *)
Fixpoint splitlines_from (cur : text) (s : text) : list text :=
  match s with
  | [] => match cur with [] => [] | _ => [rev cur] end
  | c :: s' =>
      if is_linebreak c then
        rev cur ::
          match s' with
          | c' :: s'' =>
              if (c =? CR) && (c' =? NL) then splitlines_from [] s''
              else splitlines_from [] s'
          | [] => []
          end
      else splitlines_from (c :: cur) s'
  end.

Definition splitlines (s : text) : list text := splitlines_from [] s.

(** [sep.join(parts)] *)
Fixpoint join (sep : text) (parts : list text) : text :=
  match parts with
  | [] => []
  | [p] => p
  | p :: ps => p ++ sep ++ join sep ps
  end.

(** [s[i:j]] for [0 <= i <= j] *)
Definition slice (s : text) (i j : nat) : text := take (j - i) (drop i s).

(** Truthiness of a [str] and of an optional [str] ([None] and the empty
    string are false). *)
Definition nonempty (s : text) : bool :=
  match s with [] => false | _ => true end.

Definition truthy (o : option text) : bool :=
  match o with Some s => nonempty s | None => false end.

(** ** The regular expressions of the program

    Every pattern of the source is a sequence of literals, one-character
    classes, lazy or greedy repetitions of a one-character class, the anchor
    [^] and group parentheses.  [match_here] is the backtracking matcher of
    [re] on such sequences: alternatives are tried in the order [re] tries
    them and the first success is the match. *)

Inductive atom :=
| Lit (l : text)              (* literal characters *)
| One (p : Z -> bool)         (* one character of a class *)
| Lazy (p : Z -> bool)        (* X*?  *)
| Greedy (p : Z -> bool)      (* X*   *)
| Bol                         (* ^ without MULTILINE *)
| Mark.                       (* a group parenthesis: records the position *)

Abbreviation pattern := (list atom).

(** The result of a match: the positions of the group parentheses, in order,
    and the end position. *)
Abbreviation match_result := (list nat * nat)%type.

Fixpoint match_here (pat : pattern) (pos : nat) (s : text) (marks : list nat)
  : option match_result :=
  match pat with
  | [] => Some (marks, pos)
  | Lit l :: pat' =>
      if startswith s l
      then match_here pat' (pos + length l)%nat (drop (length l) s) marks
      else None
  | One p :: pat' =>
      match s with
      | c :: s' => if p c then match_here pat' (S pos) s' marks else None
      | [] => None
      end
  | Lazy p :: pat' =>
      (fix lazy (pos : nat) (s : text) {struct s} : option match_result :=
         match match_here pat' pos s marks with
         | Some r => Some r
         | None =>
             match s with
             | c :: s' => if p c then lazy (S pos) s' else None
             | [] => None
             end
         end) pos s
  | Greedy p :: pat' =>
      (fix greedy (pos : nat) (s : text) {struct s} : option match_result :=
         match s with
         | c :: s' =>
             if p c then
               match greedy (S pos) s' with
               | Some r => Some r
               | None => match_here pat' pos s marks
               end
             else match_here pat' pos s marks
         | [] => match_here pat' pos s marks
         end) pos s
  | Bol :: pat' =>
      if (pos =? 0)%nat then match_here pat' pos s marks else None
  | Mark :: pat' => match_here pat' pos s (marks ++ [pos])
  end.

(** The groups of a match, as substrings of the subject. *)
Fixpoint groups_of (subject : text) (marks : list nat) : list text :=
  match marks with
  | o :: c :: marks' => slice subject o c :: groups_of subject marks'
  | _ => []
  end.

(** [re.search(pat, s)]: the match at the leftmost position that has one. *)
Fixpoint search_from (pat : pattern) (pos : nat) (s : text)
  : option match_result :=
  match match_here pat pos s [] with
  | Some r => Some r
  | None =>
      match s with
      | _ :: s' => search_from pat (S pos) s'
      | [] => None
      end
  end.

Definition re_search (pat : pattern) (s : text) : option (list text) :=
  match search_from pat 0 s with
  | Some (marks, _) => Some (groups_of s marks)
  | None => None
  end.

(** [re.findall(pat, s)]: the groups of the successive non-overlapping
    matches.  [skip] counts the characters of the last match that are still
    to be passed; an empty match advances by one character, as in [re]. *)
Fixpoint findall_from (pat : pattern) (subject : text) (skip pos : nat)
  (s : text) : list (list text) :=
  match skip, s with
  | S k, _ :: s' => findall_from pat subject k (S pos) s'
  | S _, [] => []
  | O, _ =>
      match match_here pat pos s [] with
      | Some (marks, e) =>
          groups_of subject marks ::
            match s with
            | _ :: s' => findall_from pat subject (e - pos - 1) (S pos) s'
            | [] => []
            end
      | None =>
          match s with
          | _ :: s' => findall_from pat subject 0 (S pos) s'
          | [] => []
          end
      end
  end.

Definition re_findall (pat : pattern) (s : text) : list (list text) :=
  findall_from pat s 0 0 s.

(** [re.sub(pat, repl, s)] for a pattern that matches no empty string. *)
Fixpoint sub_from (pat : pattern) (repl : text) (skip pos : nat) (s : text)
  : text :=
  match skip, s with
  | S k, _ :: s' => sub_from pat repl k (S pos) s'
  | S _, [] => []
  | O, [] => []
  | O, c :: s' =>
      match match_here pat pos s [] with
      | Some (_, e) => repl ++ sub_from pat repl (e - pos - 1) (S pos) s'
      | None => c :: sub_from pat repl 0 (S pos) s'
      end
  end.

Definition re_sub (pat : pattern) (repl s : text) : text :=
  sub_from pat repl 0 0 s.

Definition QUOTE : Z := 34.   (* the double quote *)

Definition any_char (c : Z) : bool := true.            (* . with DOTALL *)
Definition not_newline (c : Z) : bool := negb (c =? NL). (* . *)
Definition not_gt (c : Z) : bool := negb (c =? 62).      (* [^>] *)

(** The pattern [<channel id=Q(.*?)Q>(.*?)</channel>] (Q the double quote),
    compiled with [re.DOTALL]. *)
Definition CHANNEL_RE : pattern :=
  [Lit (py "<channel id=" ++ [QUOTE]); Mark; Lazy any_char; Mark;
   Lit (QUOTE :: py ">"); Mark; Lazy any_char; Mark; Lit (py "</channel>")].

(** The pattern [<display-name[^>]*>(.*?)</display-name>], no flags. *)
Definition DISPLAY_NAME_RE : pattern :=
  [Lit (py "<display-name"); Greedy not_gt; Lit (py ">"); Mark;
   Lazy not_newline; Mark; Lit (py "</display-name>")].

(** The pattern [\s+] *)
Definition SPACES_RE : pattern := [One is_space; Greedy is_space].

(** The pattern [^(.*?<tv[^>]*>)] with [re.DOTALL] *)
Definition HEADER_RE : pattern :=
  [Bol; Mark; Lazy any_char; Lit (py "<tv"); Greedy not_gt; Lit (py ">");
   Mark].

(** The pattern [<programme(.*?)</programme>] with [re.DOTALL] *)
Definition PROGRAMME_RE : pattern :=
  [Lit (py "<programme"); Mark; Lazy any_char; Mark; Lit (py "</programme>")].

(** The pattern [channel=Q(.*?)Q] (Q the double quote), no flags. *)
Definition CHANNEL_ATTR_RE : pattern :=
  [Lit (py "channel=" ++ [QUOTE]); Mark; Lazy not_newline; Mark; Lit [QUOTE]].

(** ** Dictionaries

    A [dict] in insertion order.  Assigning to a key that is present
    replaces its value where it stands. *)

Abbreviation dict V := (list (text * V)).

Fixpoint dict_get {V} (d : dict V) (k : text) : option V :=
  match d with
  | [] => None
  | (k', v) :: d' => if decide (k = k') then Some v else dict_get d' k
  end.

Fixpoint dict_set {V} (d : dict V) (k : text) (v : V) : dict V :=
  match d with
  | [] => [(k, v)]
  | (k', v') :: d' =>
      if decide (k = k') then (k', v) :: d' else (k', v') :: dict_set d' k v
  end.

(** ** Sets

    [set()], [s.add(x)] and [x in s]: all the program does with a set.  The
    laws are those of membership; an implementation is free to keep its
    elements in any order, as CPython does with randomised string hashes. *)

Class PySet := {
  pyset : Type;
  set_new : pyset;
  set_add : pyset -> text -> pyset;
  set_in : text -> pyset -> bool;
  set_in_new : forall x, set_in x set_new = false;
  set_in_add : forall s x y,
    set_in y (set_add s x) = bool_decide (y = x) || set_in y s
}.

(** ** The playlist parser *)

(** The state of the loop of [parse_m3u_channels]: the entries so far and
    the pending name. *)
Record m3u_state := {
  channels_so_far : list (text * text);
  current_name : option text
}.

(** The body of [for line in lines]. *)
Definition parse_m3u_line (st : m3u_state) (line : text) : m3u_state :=
  let line := strip line in
  if startswith line (py "#EXTINF") then
    if contains_char 44 line
    then {| channels_so_far := channels_so_far st;
            current_name := Some (strip (after_first 44 line)) |}
    else {| channels_so_far := channels_so_far st; current_name := None |}
  else if nonempty line && negb (startswith line (py "#"))
          && truthy (current_name st) then
    match current_name st with
    | Some name =>
        {| channels_so_far := channels_so_far st ++ [(name, line)];
           current_name := None |}
    | None => st
    end
  else st.

Definition parse_m3u_lines (lines : list text) : m3u_state :=
  fold_left parse_m3u_line lines
    {| channels_so_far := []; current_name := None |}.

Definition parse_m3u_channels (m3u_text : text) : list (text * text) :=
  channels_so_far (parse_m3u_lines (splitlines m3u_text)).

(** ** The guide parser *)

(** [re.findall] with two groups yields pairs, with one group strings. *)
Definition pair_of (gs : list text) : text * text :=
  match gs with
  | g1 :: g2 :: _ => (g1, g2)
  | _ => ([], [])
  end.

Definition first_of (gs : list text) : text :=
  match gs with
  | g :: _ => g
  | [] => []
  end.

Definition channel_blocks (epg_xml : text) : list (text * text) :=
  map pair_of (re_findall CHANNEL_RE epg_xml).

Definition clean_names_of (inner : text) : list text :=
  map (fun n => strip (re_sub SPACES_RE (py " ") n))
    (map first_of (re_findall DISPLAY_NAME_RE inner)).

Definition parse_epg_channels (epg_xml : text) : dict (list text) :=
  fold_left
    (fun epg_channels '(cid, inner) =>
       let clean_names := clean_names_of inner in
       match clean_names with
       | [] => epg_channels
       | _ => dict_set epg_channels cid clean_names
       end)
    (channel_blocks epg_xml) [].

(** ** binary64 arithmetic *)

Definition prec : Z := 53.
Definition emax : Z := 1024.

Abbreviation float := spec_float.

(** The conversion of an [int] operand of a float operation. *)
Definition float_of_int (n : Z) : float := binary_normalize prec emax n 0 false.

Definition fmul : float -> float -> float := SFmul prec emax.
Definition fdiv : float -> float -> float := SFdiv prec emax.
Definition flt : float -> float -> bool := SFltb.   (* x < y *)
Definition fle : float -> float -> bool := SFleb.   (* x <= y *)

Definition ZERO : float := S754_zero false.                          (* 0.0 *)
Definition ONE : float := S754_finite false 4503599627370496 (-52).  (* 1.0 *)
Definition TWO : float := S754_finite false 4503599627370496 (-51).  (* 2.0 *)

(** [MIN_SIMILARITY = 0.82]: the binary64 value nearest to 82/100, which is
    7385903388887613 * 2^-53. *)
Definition MIN_SIMILARITY : float := S754_finite false 7385903388887613 (-53).

(** ** [difflib.SequenceMatcher(None, a, b).ratio()]

    [isjunk] is [None], so the junk set is empty and the two loops of
    [find_longest_match] that absorb junk never run; [autojunk] is on. *)

(** [b2j] as [__chain_b] builds it: the indices of [c] in [b], ascending. *)
Fixpoint indices_from (j : nat) (b : text) (c : Z) : list nat :=
  match b with
  | [] => []
  | x :: b' =>
      if x =? c then j :: indices_from (S j) b' c else indices_from (S j) b' c
  end.

(** The popular elements, purged from [b2j] when [len(b) >= 200]. *)
Definition popular (b : text) (c : Z) : bool :=
  (200 <=? length b)%nat
  && (length b / 100 + 1 <? length (indices_from 0 b c))%nat.

Definition b2j (b : text) (c : Z) : list nat :=
  if popular b c then [] else indices_from 0 b c.

(** [j2len.get(j - 1, 0)]: no key is negative. *)
Definition j2len_get (j2len : gmap nat nat) (j : nat) : nat :=
  match j with
  | O => O
  | S j' => default O (j2len !! j')
  end.

(** A candidate block [(besti, bestj, bestsize)]. *)
Abbreviation block := (nat * nat * nat)%type.

(** The loop [for j in b2j.get(a[i], nothing)], with its [continue] and
    [break]. *)
Fixpoint scan_row (i blo bhi : nat) (j2len : gmap nat nat) (js : list nat)
  (newj2len : gmap nat nat) (best : block) : gmap nat nat * block :=
  match js with
  | [] => (newj2len, best)
  | j :: js' =>
      if (j <? blo)%nat then scan_row i blo bhi j2len js' newj2len best
      else if (bhi <=? j)%nat then (newj2len, best)
      else
        let k := S (j2len_get j2len j) in
        let best' :=
          if (snd best <? k)%nat then ((i + 1 - k)%nat, (j + 1 - k)%nat, k)
          else best in
        scan_row i blo bhi j2len js' (<[j := k]> newj2len) best'
  end.

(** The loop [for i in range(alo, ahi)]. *)
Definition scan_rows (a b : text) (alo ahi blo bhi : nat)
  : gmap nat nat * block :=
  fold_left
    (fun '(j2len, best) i =>
       scan_row i blo bhi j2len (b2j b (nth i a 0)) ∅ best)
    (seq alo (ahi - alo)) (∅, (alo, blo, O)).

(** The first [while]: extend the block to the left. *)
Fixpoint extend_left (a b : text) (alo blo : nat) (besti bestj bestsize : nat)
  {struct besti} : block :=
  match besti, bestj with
  | S i', S j' =>
      if (alo <? besti)%nat && (blo <? bestj)%nat
         && (nth i' a 0 =? nth j' b 0)
      then extend_left a b alo blo i' j' (S bestsize)
      else (besti, bestj, bestsize)
  | _, _ => (besti, bestj, bestsize)
  end.

(** The second [while]: extend the block to the right.  [n] bounds the
    number of iterations; the caller passes [ahi - (besti + bestsize)],
    which the condition [besti + bestsize < ahi] cannot outlast. *)
Fixpoint extend_right (n : nat) (a b : text) (ahi bhi : nat)
  (besti bestj bestsize : nat) : nat :=
  match n with
  | O => bestsize
  | S n' =>
      if (besti + bestsize <? ahi)%nat && (bestj + bestsize <? bhi)%nat
         && (nth (besti + bestsize) a 0 =? nth (bestj + bestsize) b 0)
      then extend_right n' a b ahi bhi besti bestj (S bestsize)
      else bestsize
  end.

Definition find_longest_match (a b : text) (alo ahi blo bhi : nat) : block :=
  let '(besti, bestj, bestsize) := snd (scan_rows a b alo ahi blo bhi) in
  let '(besti, bestj, bestsize) :=
    extend_left a b alo blo besti bestj bestsize in
  (besti, bestj,
   extend_right (ahi - (besti + bestsize)) a b ahi bhi besti bestj bestsize).

(** The work list of [get_matching_blocks]: [queue.pop()] takes the item
    appended last, here the head.  [fuel] bounds the iterations of
    [while queue]. *)
Abbreviation range := (nat * nat * nat * nat)%type.

Fixpoint matching_loop (fuel : nat) (a b : text) (queue : list range)
  (matching_blocks : list block) : list block :=
  match fuel, queue with
  | O, _ => matching_blocks
  | _, [] => matching_blocks
  | S fuel', (alo, ahi, blo, bhi) :: queue' =>
      let '(i, j, k) := find_longest_match a b alo ahi blo bhi in
      if (k =? 0)%nat then matching_loop fuel' a b queue' matching_blocks
      else
        let queue1 :=
          if (alo <? i)%nat && (blo <? j)%nat
          then (alo, i, blo, j) :: queue' else queue' in
        let queue2 :=
          if (i + k <? ahi)%nat && (j + k <? bhi)%nat
          then ((i + k)%nat, ahi, (j + k)%nat, bhi) :: queue1 else queue1 in
        matching_loop fuel' a b queue2 (matching_blocks ++ [(i, j, k)])
  end.

(** The weight of the work list: an upper bound on the iterations left. *)
Definition range_weight (r : range) : nat :=
  let '(alo, ahi, _, _) := r in (2 * (ahi - alo) + 1)%nat.

Definition queue_weight (queue : list range) : nat :=
  fold_right (fun r w => (range_weight r + w)%nat) O queue.

(** The blocks found by [get_matching_blocks].  (The method then sorts
    them, merges adjacent ones and appends a block of size 0, none of which
    changes the sum of the sizes, the one thing [ratio] reads.) *)
Definition get_matching_blocks (a b : text) : list block :=
  let queue := [(O, length a, O, length b)] in
  matching_loop (queue_weight queue) a b queue [].

(** [_calculate_ratio(matches, length)] *)
Definition calculate_ratio (matches length : nat) : float :=
  if (length =? 0)%nat then ONE
  else fdiv (fmul TWO (float_of_int (Z.of_nat matches)))
            (float_of_int (Z.of_nat length)).

Definition ratio (a b : text) : float :=
  let matches :=
    fold_left (fun acc '(_, _, k) => (acc + k)%nat) (get_matching_blocks a b) O
  in
  calculate_ratio matches (length a + length b).

(** ** The pipeline of [auto_match.py] *)

Section Pipeline.

(** [str.lower] *)
Variable lower : text -> text.

Context {used_set : PySet}.

Definition similarity (a b : text) : float := ratio (lower a) (lower b).

(** The body of [for n in names], for the channel [cid]: the state is
    [(best_id, best_score)]. *)
Definition best_step (channel_name cid : text) (st : option text * float)
  (n : text) : option text * float :=
  let score := similarity channel_name n in
  if flt (snd st) score then (Some cid, score) else st.

(** The two nested loops over [epg_channels.items()]. *)
Definition best_candidate (channel_name : text)
  (epg_channels : dict (list text)) : option text * float :=
  fold_left
    (fun st '(cid, names) => fold_left (best_step channel_name cid) names st)
    epg_channels (None, ZERO).

Definition find_best_match (channel_name : text)
  (epg_channels : dict (list text)) : option text * float :=
  let '(best_id, best_score) := best_candidate channel_name epg_channels in
  if fle MIN_SIMILARITY best_score then (best_id, best_score)
  else (None, best_score).

(** The metadata line of an entry: [#EXTINF:-1 tvg-id=Q{cid}Q,{name}] when
    [mapping.get(name)] is a non-empty identifier, [#EXTINF:-1,{name}]
    otherwise. *)
Definition extinf_line (mapping : dict text) (name : text) : text :=
  let cid := dict_get mapping name in
  if truthy cid then
    py "#EXTINF:-1 tvg-id=" ++ [QUOTE] ++ default [] cid ++ [QUOTE]
      ++ py "," ++ name
  else py "#EXTINF:-1," ++ name.

Definition M3U_HEADER : text :=
  py "#EXTM3U url-tvg=" ++ [QUOTE] ++ py "epg_su_filtru.xml.gz" ++ [QUOTE].

(** [out_lines] at the end of [build_new_m3u]. *)
Definition new_m3u_lines (channels : list (text * text)) (mapping : dict text)
  : list text :=
  fold_left
    (fun out_lines '(name, url) =>
       (out_lines ++ [extinf_line mapping name]) ++ [url])
    channels [M3U_HEADER].

Definition build_new_m3u (channels : list (text * text)) (mapping : dict text)
  : text :=
  join [NL] (new_m3u_lines channels mapping) ++ [NL].

(** The header of the guide: the match of [HEADER_RE], or the fallback. *)
Definition epg_header (epg_xml : text) : text :=
  match re_search HEADER_RE epg_xml with
  | Some gs => first_of gs
  | None =>
      py "<?xml version=" ++ [QUOTE] ++ py "1.0" ++ [QUOTE] ++ py " encoding="
        ++ [QUOTE] ++ py "utf-8" ++ [QUOTE] ++ py "?><tv>"
  end.

Definition programme_blocks (epg_xml : text) : list text :=
  map first_of (re_findall PROGRAMME_RE epg_xml).

(** [ch_match.group(1)] when [ch_match] is a match. *)
Definition programme_channel (block : text) : option text :=
  match re_search CHANNEL_ATTR_RE block with
  | Some gs => Some (first_of gs)
  | None => None
  end.

Definition channel_element (c : text * text) : text :=
  py "<channel id=" ++ [QUOTE] ++ fst c ++ [QUOTE] ++ py ">" ++ snd c
    ++ py "</channel>".

Definition programme_element (block : text) : text :=
  py "<programme" ++ block ++ py "</programme>".

(** The loop [for cid, inner in channels] of [build_filtered_epg]. *)
Definition emit_channels (channels : list (text * text)) (used_ids : pyset)
  (out : list text) : list text :=
  fold_left
    (fun out c => if set_in (fst c) used_ids then out ++ [channel_element c]
                  else out)
    channels out.

(** The loop [for block in programmes]. *)
Definition emit_programmes (programmes : list text) (used_ids : pyset)
  (out : list text) : list text :=
  fold_left
    (fun out block =>
       match programme_channel block with
       | Some ch =>
           if set_in ch used_ids then out ++ [programme_element block]
           else out
       | None => out
       end)
    programmes out.

(** [out] at the end of [build_filtered_epg]. *)
Definition filtered_epg_parts (epg_xml : text) (used_ids : pyset) : list text :=
  let out := [epg_header epg_xml] in
  let out := emit_channels (channel_blocks epg_xml) used_ids out in
  let out := emit_programmes (programme_blocks epg_xml) used_ids out in
  out ++ [py "</tv>"].

Definition build_filtered_epg (epg_xml : text) (used_ids : pyset) : text :=
  join [NL] (filtered_epg_parts epg_xml used_ids).

(** The channel blocks and the programme blocks that pass the tests of the
    two loops: the elements of the projected guide. *)
Definition projected_channels (epg_xml : text) (used_ids : pyset)
  : list (text * text) :=
  List.filter (fun c => set_in (fst c) used_ids) (channel_blocks epg_xml).

Definition programme_kept (used_ids : pyset) (block : text) : bool :=
  match programme_channel block with
  | Some ch => set_in ch used_ids
  | None => false
  end.

Definition projected_programmes (epg_xml : text) (used_ids : pyset)
  : list text :=
  List.filter (programme_kept used_ids) (programme_blocks epg_xml).

(** The matching loop of [main]: the state is [(mapping, used_ids)]. *)
Definition match_step (epg_channels : dict (list text))
  (st : dict text * pyset) (entry : text * text) : dict text * pyset :=
  let '(name, url) := entry in
  let '(cid, score) := find_best_match name epg_channels in
  if truthy cid then
    (dict_set (fst st) name (default [] cid),
     set_add (snd st) (default [] cid))
  else st.

Definition match_all (channels : list (text * text))
  (epg_channels : dict (list text)) : dict text * pyset :=
  fold_left (match_step epg_channels) channels ([], set_new).

(** [main], from the two downloaded documents to the two documents it
    writes: the playlist [new_m3u] and the guide [filtered_epg]. *)
Definition main (m3u_text epg_xml : text) : text * text :=
  let channels := parse_m3u_channels m3u_text in
  let epg_channels := parse_epg_channels epg_xml in
  let '(mapping, used_ids) := match_all channels epg_channels in
  (build_new_m3u channels mapping, build_filtered_epg epg_xml used_ids).

(** The set [used_ids] that [main] hands to [build_filtered_epg]. *)
Definition main_used_ids (m3u_text epg_xml : text) : pyset :=
  snd (match_all (parse_m3u_channels m3u_text) (parse_epg_channels epg_xml)).

(** The dictionary [mapping] that [main] hands to [build_new_m3u]. *)
Definition main_mapping (m3u_text epg_xml : text) : dict text :=
  fst (match_all (parse_m3u_channels m3u_text) (parse_epg_channels epg_xml)).

(** The identifier [main] records for a name: the one [find_best_match]
    returns, when it is true in a condition (neither [None] nor empty). *)
Definition accepted_id (name : text) (epg_channels : dict (list text))
  : option text :=
  match fst (find_best_match name epg_channels) with
  | Some cid => if nonempty cid then Some cid else None
  | None => None
  end.

(** The metadata line of an entry whose identifier is [cid]. *)
Definition extinf_with (cid : option text) (name : text) : text :=
  match cid with
  | Some cid =>
      py "#EXTINF:-1 tvg-id=" ++ [QUOTE] ++ cid ++ [QUOTE] ++ py "," ++ name
  | None => py "#EXTINF:-1," ++ name
  end.

End Pipeline.

(** ** [bytes.decode("utf-8", errors)] *)

Inductive errors := Strict | Ignore | Replace.

(** One step of the decoder: a code point and the number of bytes that
    encode it, or the length of the range reported as an error. *)
Inductive utf8_item :=
| Decoded (cp : Z) (width : nat)
| Invalid (width : nat).

Definition is_continuation (b : Z) : bool := (128 <=? b) && (b <=? 191).

(** The decoder of CPython at the start of a sequence.  A lead byte below
    0xC2 or above 0xF4 is an invalid start byte; a bad continuation byte
    ends the error range before it; a sequence cut by the end of the data is
    an error up to the end. *)
Definition utf8_next (bs : list Z) : utf8_item :=
  match bs with
  | [] => Invalid 0
  | ch :: rest =>
      if ch <? 128 then Decoded ch 1
      else if ch <? 194 then Invalid 1
      else if ch <? 224 then
        match rest with
        | [] => Invalid 1
        | ch2 :: _ =>
            if is_continuation ch2
            then Decoded (Z.shiftl ch 6 + ch2 - (Z.shiftl 192 6 + 128)) 2
            else Invalid 1
        end
      else if ch <? 240 then
        match rest with
        | [] => Invalid 1
        | ch2 :: rest2 =>
            if negb (is_continuation ch2)
               || (if ch2 <? 160 then ch =? 224 else ch =? 237)
            then Invalid 1
            else
              match rest2 with
              | [] => Invalid 2
              | ch3 :: _ =>
                  if is_continuation ch3
                  then Decoded (Z.shiftl ch 12 + Z.shiftl ch2 6 + ch3
                                - (Z.shiftl 224 12 + Z.shiftl 128 6 + 128)) 3
                  else Invalid 2
              end
        end
      else if ch <? 245 then
        match rest with
        | [] => Invalid 1
        | ch2 :: rest2 =>
            if negb (is_continuation ch2)
               || (if ch2 <? 144 then ch =? 240 else ch =? 244)
            then Invalid 1
            else
              match rest2 with
              | [] => Invalid 2
              | ch3 :: rest3 =>
                  if negb (is_continuation ch3) then Invalid 2
                  else
                    match rest3 with
                    | [] => Invalid 3
                    | ch4 :: _ =>
                        if is_continuation ch4
                        then Decoded (Z.shiftl ch 18 + Z.shiftl ch2 12
                                      + Z.shiftl ch3 6 + ch4
                                      - (Z.shiftl 240 18 + Z.shiftl 128 12
                                         + Z.shiftl 128 6 + 128)) 4
                        else Invalid 3
                    end
              end
        end
      else Invalid 1
  end.

Definition item_width (it : utf8_item) : nat :=
  match it with Decoded _ w => w | Invalid w => w end.

(** The successive steps of the decoder over the data; [skip] counts the
    bytes of the last step that are still to be passed. *)
Fixpoint utf8_items (skip : nat) (bs : list Z) : list utf8_item :=
  match bs with
  | [] => []
  | _ :: bs' =>
      match skip with
      | S k => utf8_items k bs'
      | O =>
          let it := utf8_next bs in
          it :: utf8_items (item_width it - 1) bs'
      end
  end.

(** What an error handler makes of a step: [strict] raises (no result),
    [ignore] yields nothing for an error, [replace] yields U+FFFD. *)
Definition handle_item (e : errors) (it : utf8_item) : option text :=
  match it with
  | Decoded cp _ => Some [cp]
  | Invalid _ =>
      match e with
      | Strict => None
      | Ignore => Some []
      | Replace => Some [65533]
      end
  end.

Fixpoint decode_items (e : errors) (items : list utf8_item) : option text :=
  match items with
  | [] => Some []
  | it :: items' =>
      match handle_item e it with
      | Some t =>
          match decode_items e items' with
          | Some t' => Some (t ++ t')
          | None => None
          end
      | None => None
      end
  end.

Definition byte_value (b : byte) : Z := Z.of_N (Byte.to_N b).

(** [data.decode("utf-8", errors=e)]; no result stands for the exception
    [UnicodeDecodeError]. *)
Definition bytes_decode (e : errors) (data : list byte) : option text :=
  decode_items e (utf8_items 0 (map byte_value data)).

(** [download_gzip_xml], from the decompressed bytes of the response. *)
Definition download_gzip_xml (data : list byte) : option text :=
  bytes_decode Ignore data.

(** The code points of the well-formed sequences of the data, in order. *)
Definition decoded_code_points (items : list utf8_item) : text :=
  flat_map (fun it => match it with Decoded cp _ => [cp] | Invalid _ => [] end)
    items.

(** ** The files written

    [main] writes the playlist through a text file opened with
    [encoding="utf-8"] (line ends as on POSIX, where the text is written as
    it is) and the guide, encoded with [encode("utf-8")], through
    [gzip.open(OUTPUT_EPG, "wb")]. *)

Definition byte_of (z : Z) : byte := default x00 (Byte.of_N (Z.to_N z)).

(** The UTF-8 encoding of a code point; a surrogate has none. *)
Definition utf8_encode_char (c : Z) : option (list byte) :=
  if c <? 0 then None
  else if c <? 128 then Some [byte_of c]
  else if c <? 2048 then
    Some [byte_of (192 + c / 64); byte_of (128 + c mod 64)]
  else if (55296 <=? c) && (c <=? 57343) then None
  else if c <? 65536 then
    Some [byte_of (224 + c / 4096); byte_of (128 + (c / 64) mod 64);
          byte_of (128 + c mod 64)]
  else if c <? 1114112 then
    Some [byte_of (240 + c / 262144); byte_of (128 + (c / 4096) mod 64);
          byte_of (128 + (c / 64) mod 64); byte_of (128 + c mod 64)]
  else None.

(** [s.encode("utf-8")]; no result stands for [UnicodeEncodeError]. *)
Fixpoint utf8_encode (s : text) : option (list byte) :=
  match s with
  | [] => Some []
  | c :: s' =>
      match utf8_encode_char c, utf8_encode s' with
      | Some bs, Some bs' => Some (bs ++ bs')
      | _, _ => None
      end
  end.





Section Files.

Variable lower : text -> text.
Context {used_set : PySet}.


End Files.

(** ** Instances for concrete runs *)

(** [str.lower] on ASCII text. *)
Definition ascii_lower (s : text) : text :=
  map (fun c => if (65 <=? c) && (c <=? 90) then c + 32 else c) s.

(** A set kept as the list of the elements added, latest first. *)
#[export] Program Instance list_set : PySet := {|
  pyset := list text;
  set_new := [];
  set_add s x := x :: s;
  set_in x s := bool_decide (x ∈ s)
|}.
Next Obligation. intros x. apply bool_decide_eq_false. apply not_elem_of_nil. Qed.
Next Obligation.
  intros s x y. apply eq_true_iff_eq.
  rewrite orb_true_iff, !bool_decide_eq_true, elem_of_cons. tauto.
Qed.

(** A set kept as a finite set of stdpp. *)
Program Definition gset_set : PySet := {|
  pyset := gset text;
  set_new := ∅;
  set_add s x := {[x]} ∪ s;
  set_in x s := bool_decide (x ∈ s)
|}.
Next Obligation. intros x. apply bool_decide_eq_false. set_solver. Qed.
Next Obligation.
  intros s x y. apply eq_true_iff_eq.
  rewrite orb_true_iff, !bool_decide_eq_true. set_solver.
Qed.

(** ** Definitions used to state the properties *)

(** The (identifier, alias) pairs of the guide mapping, in the order the
    loops of [find_best_match] visit them. *)
Definition alias_pairs (epg_channels : dict (list text)) : list (text * text) :=
  flat_map (fun '(cid, names) => map (pair cid) names) epg_channels.

(** [s] is the maximum of the scores of [name] against the aliases of the
    guide, and 0.0 when no score is above 0.0: no score is greater than [s],
    and [s] is 0.0 or the score of some pair. *)
Definition max_similarity (lower : text -> text) (name : text)
  (epg_channels : dict (list text)) (s : float) : Prop :=
  (forall p, In p (alias_pairs epg_channels) ->
             flt s (similarity lower name (snd p)) = false)
  /\ (s = ZERO
      \/ exists p, In p (alias_pairs epg_channels)
                   /\ s = similarity lower name (snd p)).

(** One step of the loops of [find_best_match], on a pair. *)
Definition pair_step (lower : text -> text) (name : text)
  (st : option text * float) (p : text * text) : option text * float :=
  best_step lower name (fst p) st (snd p).

(** The invariant of the two loops: no score seen is greater than
    [best_score], and [best_id] is the identifier of a pair that scores
    [best_score], or nothing was greater than 0.0. *)
Definition best_invariant (lower : text -> text) (name : text) (seen : list (text * text))
  (st : option text * float) : Prop :=
  (forall p, In p seen -> flt (snd st) (similarity lower name (snd p)) = false)
  /\ ((fst st = None /\ snd st = ZERO)
      \/ exists p, In p seen /\ fst st = Some (fst p)
                   /\ snd st = similarity lower name (snd p)).


(** The value [j2len] holds at key [j] (0 when absent). *)
Definition j2len_at (j2len : gmap nat nat) (j : nat) : nat :=
  default O (j2len !! j).


(** The invariant of the rows of [find_longest_match] in general, before
    row [i]: the candidate block lies within the rows seen. *)
Definition rows_invariant (alo i : nat) (st : gmap nat nat * block) : Prop :=
  (forall j, (j2len_at (fst st) j <= i - alo)%nat)
  /\ (alo <= fst (fst (snd st)))%nat
  /\ (fst (fst (snd st)) + snd (snd st) <= i)%nat.


(** A range of the work list is well formed when its rows are. *)
Definition well_formed_range (r : range) : Prop :=
  let '(alo, ahi, _, _) := r in (alo <= ahi)%nat.

(** 0.819999 as a binary64 value. *)
Definition SCORE_0_819999 : float := S754_finite false 7385894381688359 (-53).


(** ** Sample documents *)

Definition quoted (s : text) : text := [QUOTE] ++ s ++ [QUOTE].

(** A playlist of three entries, two of them named alike. *)
Definition sample_m3u : text :=
  join [NL]
    [py "#EXTM3U";
     py "#EXTINF:-1,LRT HD";
     py "http://example.org/lrt";
     py "#EXTINF:-1,XYZ Random Channel 123";
     py "http://example.org/xyz";
     py "#EXTINF:-1 group=news, LRT HD ";
     py "http://example.org/lrt-2"] ++ [NL].

(** A guide of two channels with a programme each. *)
Definition sample_epg : text :=
  join [NL]
    [py "<?xml version=" ++ quoted (py "1.0") ++ py "?><tv>";
     py "<channel id=" ++ quoted (py "lrt.lt")
       ++ py "><display-name>LRT HD</display-name></channel>";
     py "<channel id=" ++ quoted (py "abc")
       ++ py "><display-name>ABC TV</display-name>"
       ++ py "<display-name>ABC</display-name></channel>";
     py "<programme start=" ++ quoted (py "1") ++ py " channel="
       ++ quoted (py "lrt.lt") ++ py "><title>News</title></programme>";
     py "<programme start=" ++ quoted (py "2") ++ py " channel="
       ++ quoted (py "abc") ++ py "><title>Show</title></programme>";
     py "</tv>"].

(** A playlist of one entry and a guide whose only channel it matches. *)
Definition single_m3u : text :=
  join [NL]
    [py "#EXTM3U"; py "#EXTINF:-1,LRT HD"; py "http://example.org/lrt"]
  ++ [NL].


(** A guide whose only channel has the empty string for identifier. *)
Definition blank_id_epg : text :=
  py "<tv><channel id=" ++ quoted []
    ++ py "><display-name>LRT HD</display-name></channel></tv>".

(** A guide in which two channels carry the same display name. *)
Definition twin_epg : text :=
  py "<tv><channel id=" ++ quoted (py "first.lt")
    ++ py "><display-name>LRT HD</display-name></channel>"
    ++ py "<channel id=" ++ quoted (py "lrt.lt")
    ++ py "><display-name>LRT HD</display-name></channel></tv>".


(** Two names of 50 characters with 41 characters in common, and two with
    40: scores 0.82 and 0.80. *)
Definition name_41_a : text := repeat 97 41 ++ repeat 98 9.
Definition name_41_b : text := repeat 97 41 ++ repeat 99 9.
Definition name_40_a : text := repeat 97 40 ++ repeat 98 10.
Definition name_40_b : text := repeat 97 40 ++ repeat 99 10.

(** ** Definitions used to state further properties *)

(** A Unicode scalar value: a code point that is not a surrogate. *)
Definition is_scalar (c : Z) : bool :=
  ((0 <=? c) && (c <? 55296)) || ((57343 <? c) && (c <? 1114112)).

(** A character of the ASCII range, as every character of the literals of
    the program is. *)
Definition is_ascii (c : Z) : bool := (0 <=? c) && (c <? 128).

(** A text that [encode("utf-8")] accepts: scalar values only. *)
Definition scalar_text (s : text) : Prop :=
  Forall (fun c => is_scalar c = true) s.

(** The step of [str.splitlines] after a line boundary [c]: a line feed
    that follows a carriage return belongs to the boundary. *)
Definition after_break (c : Z) (s : text) : text :=
  match s with
  | c' :: s' => if (c =? CR) && (c' =? NL) then s' else s
  | [] => []
  end.

(** A line as [splitlines] yields it: no line boundary inside. *)
Definition one_line (s : text) : bool :=
  forallb (fun c => negb (is_linebreak c)) s.

(** A text that [strip] leaves as it is. *)
Definition trimmed (s : text) : bool := bool_decide (strip s = s).

(** An entry as [parse_m3u_channels] yields it: a name and a URL that are
    not empty, trimmed and free of line boundaries, the URL not starting
    with [#]. *)
Definition entry_ok (e : text * text) : bool :=
  nonempty (fst e) && trimmed (fst e) && one_line (fst e)
  && nonempty (snd e) && trimmed (snd e) && one_line (snd e)
  && negb (startswith (snd e) (py "#")).

(** An identifier that holds no comma and no line boundary. *)
Definition plain_id (cid : text) : bool :=
  forallb (fun c => negb (c =? 44) && negb (is_linebreak c)) cid.

(** A line the playlist parser passes over: blank, or a comment that is not
    a metadata line. *)
Definition skipped_line (line : text) : bool :=
  negb (nonempty (strip line))
  || (startswith (strip line) (py "#")
      && negb (startswith (strip line) (py "#EXTINF"))).

(** A metadata line of the playlist. *)
Definition is_metadata (line : text) : bool :=
  startswith (strip line) (py "#EXTINF").

(** [part] occurs in [s] as a run of consecutive characters. *)
Definition cut_from (s part : text) : Prop :=
  exists before after, s = before ++ part ++ after.

(** The step of the loop of [parse_epg_channels]. *)
Definition epg_step (epg_channels : dict (list text)) (block : text * text)
  : dict (list text) :=
  let clean_names := clean_names_of (snd block) in
  match clean_names with
  | [] => epg_channels
  | _ => dict_set epg_channels (fst block) clean_names
  end.

(** A text in which every white-space character is a space (U+0020) that
    is not followed by another white-space character. *)
Fixpoint single_spaced (s : text) : bool :=
  match s with
  | [] => true
  | c :: s' =>
      (negb (is_space c)
       || ((c =? 32)
           && match s' with c' :: _ => negb (is_space c') | [] => true end))
      && single_spaced s'
  end.

(** An alias as [parse_epg_channels] yields it. *)
Definition alias_ok (n : text) : bool := trimmed n && single_spaced n.

(** The invariant of the loops of [find_best_match] that tells which of
    several best pairs is kept: nothing seen scores above 0.0, or the state
    is that of a pair seen that no earlier pair equals or exceeds and no
    later pair exceeds. *)
Definition first_best (lower : text -> text) (name : text)
  (seen : list (text * text)) (st : option text * float) : Prop :=
  (fst st = None /\ snd st = ZERO
   /\ forall q, In q seen -> flt ZERO (similarity lower name (snd q)) = false)
  \/ exists pre p post,
       seen = pre ++ p :: post
       /\ fst st = Some (fst p)
       /\ snd st = similarity lower name (snd p)
       /\ (forall q, In q pre ->
             fle (similarity lower name (snd p))
                 (similarity lower name (snd q)) = false)
       /\ (forall q, In q post ->
             flt (similarity lower name (snd p))
                 (similarity lower name (snd q)) = false).

(** The invariant of the rows of [find_longest_match] on the side of [b]:
    the candidate block lies within the columns of the range, and a run
    that ends at column [j] does not begin before [blo]. *)
Definition columns_invariant (blo bhi : nat) (st : gmap nat nat * block)
  : Prop :=
  (forall j, (j2len_at (fst st) j <= S j - blo)%nat)
  /\ (blo <= snd (fst (snd st)))%nat
  /\ (snd (fst (snd st)) + snd (snd st) <= bhi)%nat.

(** A range of the work list whose rows and columns are well formed. *)
Definition well_formed_area (r : range) : Prop :=
  let '(alo, ahi, blo, bhi) := r in (alo <= ahi)%nat /\ (blo <= bhi)%nat.

(** The rows and the columns that the ranges of the work list still hold. *)
Definition rows_left (queue : list range) : nat :=
  fold_right (fun '(alo, ahi, _, _) n => (ahi - alo + n)%nat) O queue.

Definition columns_left (queue : list range) : nat :=
  fold_right (fun '(_, _, blo, bhi) n => (bhi - blo + n)%nat) O queue.

(** The sum of the sizes of a list of blocks, as [ratio] computes it. *)
Definition block_sizes (blocks : list block) : nat :=
  fold_left (fun acc '(_, _, k) => (acc + k)%nat) blocks O.

(** [part in s], for text: [part] begins at some position of [s]. *)
Definition contains_text (s part : text) : bool :=
  existsb (fun i => startswith (drop i s) part) (seq 0 (S (length s))).

(** The header [build_filtered_epg] writes when the guide has none. *)
Definition DEFAULT_HEADER : text :=
  py "<?xml version=" ++ [QUOTE] ++ py "1.0" ++ [QUOTE] ++ py " encoding="
    ++ [QUOTE] ++ py "utf-8" ++ [QUOTE] ++ py "?><tv>".

(** A playlist whose only entry matches no channel of [sample_epg]. *)
Definition stranger_m3u : text :=
  join [NL]
    [py "#EXTM3U"; py "#EXTINF:-1,XYZ Random Channel 123";
     py "http://example.org/xyz"] ++ [NL].

(** * Properties *)

(** ** Lists, dictionaries and loops *)

Lemma fold_left_append {A B : Type} (f : A -> list B) (l : list A)
  (acc : list B) :
  fold_left (fun out x => out ++ f x) l acc = acc ++ flat_map f l.
Proof.
  revert acc. induction l as [|x l IH]; intros acc; simpl.
  - by rewrite app_nil_r.
  - by rewrite IH, app_assoc.
Qed.

Lemma dict_get_set {V} (d : dict V) (k k' : text) (v : V) :
  dict_get (dict_set d k v) k' = if decide (k' = k) then Some v else dict_get d k'.
Proof.
  induction d as [|[k0 v0] d IH]; simpl.
  - destruct (decide (k' = k)); reflexivity.
  - destruct (decide (k = k0)) as [->|Hne]; simpl.
    + destruct (decide (k' = k0)); reflexivity.
    + destruct (decide (k' = k0)) as [->|Hne'].
      * destruct (decide (k0 = k)); congruence.
      * exact IH.
Qed.

Lemma dict_set_keys {V} (d : dict V) (k : text) (v : V) (x : text) :
  In x (map fst (dict_set d k v)) -> x = k \/ In x (map fst d).
Proof.
  induction d as [|[k0 v0] d IH]; simpl.
  - intros [<-|[]]. by left.
  - destruct (decide (k = k0)) as [->|Hne]; simpl.
    + tauto.
    + intros [<-|H]; [tauto|]. destruct (IH H); tauto.
Qed.

(** ** The playlist projector *)

Lemma new_m3u_lines_flat (channels : list (text * text)) (mapping : dict text) :
  new_m3u_lines channels mapping =
  M3U_HEADER :: flat_map (fun e => [extinf_line mapping (fst e); snd e]) channels.
Proof.
  unfold new_m3u_lines.
  transitivity
    (fold_left (fun out e => out ++ [extinf_line mapping (fst e); snd e])
       channels [M3U_HEADER]).
  - generalize [M3U_HEADER]. induction channels as [|[n u] l IH]; intros acc.
    + reflexivity.
    + simpl. rewrite IH. by rewrite <- app_assoc.
  - by rewrite fold_left_append.
Qed.

Lemma pairs_lookup {A} (f g : A -> text) (l : list A) (i : nat) (x : A) :
  l !! i = Some x ->
  flat_map (fun e => [f e; g e]) l !! (2 * i)%nat = Some (f x)
  /\ flat_map (fun e => [f e; g e]) l !! (2 * i + 1)%nat = Some (g x).
Proof.
  revert i. induction l as [|y l IH]; intros i H; [done|].
  destruct i as [|i].
  - inversion H. by split.
  - replace (2 * S i)%nat with (S (S (2 * i))) by lia.
    replace (S (S (2 * i)) + 1)%nat with (S (S (2 * i + 1))) by lia.
    apply (IH i H).
Qed.



Lemma new_m3u_lines_lookup (channels : list (text * text))
  (mapping : dict text) (i : nat) (name url : text) :
  channels !! i = Some (name, url) ->
  new_m3u_lines channels mapping !! (2 * i + 1)%nat
    = Some (extinf_line mapping name)
  /\ new_m3u_lines channels mapping !! (2 * i + 2)%nat = Some url.
Proof.
  intros H. rewrite new_m3u_lines_flat.
  destruct (pairs_lookup (fun e => extinf_line mapping (fst e)) snd
              channels i (name, url) H) as [H1 H2].
  replace (2 * i + 1)%nat with (S (2 * i)) by lia.
  replace (2 * i + 2)%nat with (S (2 * i + 1)) by lia.
  by split.
Qed.


(** ** The playlist parser *)

Lemma parse_m3u_lines_app (pre post : list text) :
  parse_m3u_lines (pre ++ post)
  = fold_left parse_m3u_line post (parse_m3u_lines pre).
Proof. unfold parse_m3u_lines. apply fold_left_app. Qed.

Lemma after_first_split (c : Z) (before after : text) :
  ~ In c before -> after_first c (before ++ c :: after) = after.
Proof.
  induction before as [|x l IH]; intros H; simpl.
  - by rewrite Z.eqb_refl.
  - destruct (Z.eqb_spec x c) as [->|_].
    + exfalso. apply H. by left.
    + apply IH. intros Hin. apply H. by right.
Qed.

Lemma contains_char_split (c : Z) (before after : text) :
  contains_char c (before ++ c :: after) = true.
Proof.
  unfold contains_char. rewrite existsb_app. simpl.
  rewrite Z.eqb_refl. by rewrite orb_true_r.
Qed.


(** ** The matching loop of [main] *)

Section MatchingLoop.

Variable lower : text -> text.
Context {used_set : PySet}.
Variable epg_channels : dict (list text).

Lemma match_step_accepted (st : dict text * pyset) (name url : text) :
  match_step lower epg_channels st (name, url)
  = match accepted_id lower name epg_channels with
    | Some cid => (dict_set (fst st) name cid, set_add (snd st) cid)
    | None => st
    end.
Proof.
  unfold match_step, accepted_id.
  destruct (find_best_match lower name epg_channels) as [[cid|] score];
    simpl; [|reflexivity].
  by destruct (nonempty cid).
Qed.

(** After the loop, [mapping] holds for every name of the playlist the
    identifier accepted for it, and nothing for any other name. *)
Lemma match_loop_mapping (channels : list (text * text))
  (st : dict text * pyset) (name : text) :
  dict_get (fst st) name = None
  \/ dict_get (fst st) name = accepted_id lower name epg_channels ->
  dict_get (fst (fold_left (match_step lower epg_channels) channels st)) name
  = if decide (name ∈ map fst channels)
    then accepted_id lower name epg_channels
    else dict_get (fst st) name.
Proof.
  revert st. induction channels as [|[n u] l IH]; intros st Hst;
    cbn [fold_left map fst].
  - reflexivity.
  - rewrite match_step_accepted.
    set (st' := match accepted_id lower n epg_channels with
                | Some cid => (dict_set (fst st) n cid, set_add (snd st) cid)
                | None => st
                end).
    assert (Hget : dict_get (fst st') name
                   = if decide (name = n)
                     then match accepted_id lower n epg_channels with
                          | Some cid => Some cid
                          | None => dict_get (fst st) name
                          end
                     else dict_get (fst st) name).
    { subst st'. destruct (accepted_id lower n epg_channels); simpl.
      - apply dict_get_set.
      - by destruct (decide (name = n)). }
    rewrite IH.
    + rewrite Hget. repeat case_decide; subst; try done;
        try (exfalso;
             match goal with
             | H : _ ∉ _ :: _ |- _ => apply not_elem_of_cons in H as [? ?]
             | H : _ ∈ _ :: _ |- _ => apply elem_of_cons in H as [?|?]
             end; done).
      destruct (accepted_id lower n epg_channels) eqn:E; [done|].
      by destruct Hst as [->| ->].
    + rewrite Hget. case_decide; subst; [|done].
      destruct (accepted_id lower n epg_channels); [by right|done].
Qed.

Lemma match_all_mapping (channels : list (text * text)) (name : text) :
  dict_get (fst (match_all lower channels epg_channels)) name
  = if decide (name ∈ map fst channels)
    then accepted_id lower name epg_channels else None.
Proof.
  unfold match_all. rewrite match_loop_mapping by (by left).
  by destruct (decide _).
Qed.

(** After the loop, [used_ids] holds the identifiers accepted for the names
    of the playlist, and no other. *)
Lemma match_loop_used_ids (channels : list (text * text))
  (st : dict text * pyset) (cid : text) :
  set_in cid (snd (fold_left (match_step lower epg_channels) channels st))
  = true
  <-> set_in cid (snd st) = true
      \/ exists name, name ∈ map fst channels
                      /\ accepted_id lower name epg_channels = Some cid.
Proof.
  revert st. induction channels as [|[n u] l IH]; intros st;
    cbn [fold_left map fst].
  - split; [by left|]. intros [H|(name & H & _)]; [done|]. inversion H.
  - rewrite IH, match_step_accepted. split.
    + intros [H|(name & Hin & Hacc)].
      * destruct (accepted_id lower n epg_channels) as [c|] eqn:E;
          [|by left].
        simpl in H. rewrite set_in_add in H.
        apply orb_true_iff in H as [H|H]; [|by left].
        apply bool_decide_eq_true in H as ->. right. exists n. by split; [left|].
      * right. exists name. by split; [right|].
    + intros [H|(name & Hin & Hacc)].
      * left. destruct (accepted_id lower n epg_channels); [|done].
        simpl. rewrite set_in_add, H. by rewrite orb_true_r.
      * apply elem_of_cons in Hin as [->|Hin].
        -- left. simpl. rewrite Hacc. simpl. rewrite set_in_add.
           by rewrite bool_decide_eq_true_2.
        -- right. by exists name.
Qed.

Lemma match_all_used_ids (channels : list (text * text)) (cid : text) :
  set_in cid (snd (match_all lower channels epg_channels)) = true
  <-> exists name, name ∈ map fst channels
                   /\ accepted_id lower name epg_channels = Some cid.
Proof.
  unfold match_all. rewrite match_loop_used_ids. simpl.
  rewrite set_in_new. split; [intros [?|?]|intros ?]; eauto. done.
Qed.

End MatchingLoop.

(** ** The name matcher returns identifiers of the guide *)

Section Candidates.

Variable lower : text -> text.

Lemma best_step_id (name cid : text) (st : option text * float) (n : text) :
  fst (best_step lower name cid st n) = fst st
  \/ fst (best_step lower name cid st n) = Some cid.
Proof. unfold best_step. destruct (flt _ _); [by right|by left]. Qed.

Lemma best_names_id (name cid : text) (names : list text)
  (st : option text * float) :
  fst (fold_left (best_step lower name cid) names st) = fst st
  \/ fst (fold_left (best_step lower name cid) names st) = Some cid.
Proof.
  revert st. induction names as [|n l IH]; intros st; simpl; [by left|].
  destruct (IH (best_step lower name cid st n)) as [E|E]; rewrite E.
  - apply best_step_id.
  - by right.
Qed.

Lemma best_candidate_id (name : text) (epg_channels : dict (list text))
  (cid : text) :
  fst (best_candidate lower name epg_channels) = Some cid ->
  In cid (map fst epg_channels).
Proof.
  unfold best_candidate.
  enough (G : forall st,
             fst (fold_left
                    (fun st '(cid, names) =>
                       fold_left (best_step lower name cid) names st)
                    epg_channels st) = Some cid ->
             fst st = Some cid \/ In cid (map fst epg_channels)).
  { intros H. by destruct (G _ H). }
  induction epg_channels as [|[c names] d IH]; intros st H; simpl in *.
  - by left.
  - destruct (IH _ H) as [E|Hin]; [|tauto].
    destruct (best_names_id name c names st) as [E'|E']; rewrite E' in E.
    + by left.
    + inversion E. tauto.
Qed.

Lemma find_best_match_id (name : text) (epg_channels : dict (list text))
  (cid : text) :
  fst (find_best_match lower name epg_channels) = Some cid ->
  In cid (map fst epg_channels).
Proof.
  unfold find_best_match. intros H. apply (best_candidate_id name).
  destruct (best_candidate lower name epg_channels) as [bid bs].
  by destruct (fle MIN_SIMILARITY bs).
Qed.

Lemma accepted_id_spec (name : text) (epg_channels : dict (list text))
  (cid : text) :
  accepted_id lower name epg_channels = Some cid
  <-> cid <> [] /\ fst (find_best_match lower name epg_channels) = Some cid.
Proof.
  unfold accepted_id.
  destruct (fst (find_best_match lower name epg_channels)) as [[|c0 c]|].
  - simpl. split; [done|]. by intros [H E]; inversion E; subst.
  - simpl. split.
    + intros E. by inversion E.
    + intros [_ E]. exact E.
  - split; [done|]. by intros [_ ?].
Qed.

End Candidates.

(** ** The guide parser *)

Lemma parse_epg_channels_keys (epg_xml cid : text) :
  In cid (map fst (parse_epg_channels epg_xml)) ->
  In cid (map fst (channel_blocks epg_xml)).
Proof.
  unfold parse_epg_channels.
  enough (G : forall d : dict (list text),
             In cid (map fst
                       (fold_left
                          (fun epg_channels '(cid, inner) =>
                             match clean_names_of inner with
                             | [] => epg_channels
                             | _ => dict_set epg_channels cid
                                      (clean_names_of inner)
                             end) (channel_blocks epg_xml) d)) ->
             In cid (map fst d) \/ In cid (map fst (channel_blocks epg_xml))).
  { intros H. by destruct (G _ H). }
  induction (channel_blocks epg_xml) as [|[c inner] l IH]; intros d H;
    simpl in *; [by left|].
  destruct (IH _ H) as [Hd|Hl]; [|tauto].
  destruct (clean_names_of inner); [by left|].
  destruct (dict_set_keys _ _ _ _ Hd); subst; tauto.
Qed.

(** ** The guide projector *)

Section Projector.

Context {used_set : PySet}.

Lemma emit_channels_spec (channels : list (text * text)) (used_ids : pyset)
  (out : list text) :
  emit_channels channels used_ids out
  = out ++ map channel_element
             (List.filter (fun c => set_in (fst c) used_ids) channels).
Proof.
  unfold emit_channels. revert out.
  induction channels as [|c l IH]; intros out; simpl.
  - by rewrite app_nil_r.
  - rewrite IH. destruct (set_in (fst c) used_ids); [|done].
    by rewrite <- app_assoc.
Qed.

Lemma emit_programmes_spec (programmes : list text) (used_ids : pyset)
  (out : list text) :
  emit_programmes programmes used_ids out
  = out ++ map programme_element
             (List.filter (programme_kept used_ids) programmes).
Proof.
  unfold emit_programmes, programme_kept. revert out.
  induction programmes as [|b l IH]; intros out; simpl.
  - by rewrite app_nil_r.
  - rewrite IH. destruct (programme_channel b) as [ch|]; [|done].
    destruct (set_in ch used_ids); [|done].
    by rewrite <- app_assoc.
Qed.

(** The projected guide: the header, the channel elements kept, the
    programme elements kept, the closing tag. *)
Lemma filtered_epg_parts_spec (epg_xml : text) (used_ids : pyset) :
  filtered_epg_parts epg_xml used_ids
  = [epg_header epg_xml]
    ++ map channel_element (projected_channels epg_xml used_ids)
    ++ map programme_element (projected_programmes epg_xml used_ids)
    ++ [py "</tv>"].
Proof.
  unfold filtered_epg_parts, projected_channels, projected_programmes.
  rewrite emit_programmes_spec, emit_channels_spec.
  by rewrite <- !app_assoc.
Qed.

End Projector.

(** ** The pipeline *)

Section PipelineProperties.

Variable lower : text -> text.
Context {used_set : PySet}.

Lemma in_map_fst_iff (channels : list (text * text)) (name : text) :
  name ∈ map fst channels <-> exists url, In (name, url) channels.
Proof.
  rewrite list_elem_of_In, in_map_iff. split.
  - intros ([n u] & E & H). simpl in E. subst. by exists u.
  - intros (u & H). by exists (name, u).
Qed.

Lemma main_used_ids_spec (m3u_text epg_xml cid : text) :
  set_in cid (main_used_ids lower m3u_text epg_xml) = true
  <-> cid <> []
      /\ exists name url,
           In (name, url) (parse_m3u_channels m3u_text)
           /\ fst (find_best_match lower name (parse_epg_channels epg_xml))
              = Some cid.
Proof.
  unfold main_used_ids. rewrite match_all_used_ids. split.
  - intros (name & Hin & Hacc).
    apply accepted_id_spec in Hacc as [Hne Hm].
    apply in_map_fst_iff in Hin as [url Hin]. eauto.
  - intros (Hne & name & url & Hin & Hm). exists name. split.
    + apply in_map_fst_iff. eauto.
    + by apply accepted_id_spec.
Qed.

(** C2 (amended). The set handed to the guide projector holds exactly the
    non-empty identifiers that [find_best_match] returns for the entries of
    the parsed playlist: an identifier is in the set if and only if it is
    not the empty string and is the accepted match of some entry. *)
Theorem used_ids_are_the_nonempty_matches (m3u_text epg_xml cid : text) :
  set_in cid (main_used_ids lower m3u_text epg_xml) = true
  <-> cid <> []
      /\ exists name url,
           In (name, url) (parse_m3u_channels m3u_text)
           /\ fst (find_best_match lower name (parse_epg_channels epg_xml))
              = Some cid.
Proof. apply main_used_ids_spec. Qed.

Lemma extinf_line_accepted (mapping : dict text) (name : text)
  (epg_channels : dict (list text)) :
  dict_get mapping name = accepted_id lower name epg_channels ->
  extinf_line mapping name
  = extinf_with (accepted_id lower name epg_channels) name.
Proof.
  intros E. unfold extinf_line. rewrite E.
  destruct (accepted_id lower name epg_channels) as [cid|] eqn:Hacc;
    [|reflexivity].
  apply accepted_id_spec in Hacc as [Hne _]. by destruct cid.
Qed.

Lemma main_mapping_of_entry (m3u_text epg_xml : text) (name url : text) :
  In (name, url) (parse_m3u_channels m3u_text) ->
  dict_get (main_mapping lower m3u_text epg_xml) name
  = accepted_id lower name (parse_epg_channels epg_xml).
Proof.
  intros H. unfold main_mapping. rewrite match_all_mapping.
  rewrite decide_True; [done|]. apply in_map_fst_iff. eauto.
Qed.

Lemma main_documents (m3u_text epg_xml : text) :
  main lower m3u_text epg_xml
  = (build_new_m3u (parse_m3u_channels m3u_text)
       (main_mapping lower m3u_text epg_xml),
     build_filtered_epg epg_xml (main_used_ids lower m3u_text epg_xml)).
Proof.
  unfold main, main_mapping, main_used_ids.
  by destruct (match_all lower _ _).
Qed.

(** C10. Two entries of the parsed playlist with the same display name get
    the same metadata line in the projected playlist: the line carries the
    identifier accepted for the name, or none, wherever the entry stands
    and whatever its URL. *)
Theorem tvg_id_depends_on_the_name_only (m3u_text epg_xml : text)
  (i j : nat) (name url_i url_j : text) :
  parse_m3u_channels m3u_text !! i = Some (name, url_i) ->
  parse_m3u_channels m3u_text !! j = Some (name, url_j) ->
  fst (main lower m3u_text epg_xml)
  = join [NL] (new_m3u_lines (parse_m3u_channels m3u_text)
                 (main_mapping lower m3u_text epg_xml)) ++ [NL]
  /\ new_m3u_lines (parse_m3u_channels m3u_text)
       (main_mapping lower m3u_text epg_xml) !! (2 * i + 1)%nat
     = Some (extinf_with
               (accepted_id lower name (parse_epg_channels epg_xml)) name)
  /\ new_m3u_lines (parse_m3u_channels m3u_text)
       (main_mapping lower m3u_text epg_xml) !! (2 * j + 1)%nat
     = new_m3u_lines (parse_m3u_channels m3u_text)
         (main_mapping lower m3u_text epg_xml) !! (2 * i + 1)%nat.
Proof.
  intros Hi Hj.
  destruct (new_m3u_lines_lookup _ (main_mapping lower m3u_text epg_xml)
              i name url_i Hi) as [Li _].
  destruct (new_m3u_lines_lookup _ (main_mapping lower m3u_text epg_xml)
              j name url_j Hj) as [Lj _].
  assert (E : extinf_line (main_mapping lower m3u_text epg_xml) name
              = extinf_with
                  (accepted_id lower name (parse_epg_channels epg_xml)) name).
  { apply extinf_line_accepted, (main_mapping_of_entry _ _ name url_i).
    apply list_elem_of_In, list_elem_of_lookup. eauto. }
  split; [|split].
  - by rewrite main_documents.
  - by rewrite Li, E.
  - by rewrite Li, Lj.
Qed.



End PipelineProperties.

(** ** Determinism *)

Section Determinism.

Variable lower : text -> text.
Variables S1 S2 : PySet.





End Determinism.



(** ** The decoder *)

Lemma decode_items_ignore (items : list utf8_item) :
  decode_items Ignore items = Some (decoded_code_points items).
Proof.
  induction items as [|it l IH]; simpl; [done|].
  rewrite IH. by destruct it.
Qed.

Lemma decode_items_strict (items : list utf8_item) (t : text) :
  decode_items Strict items = Some t -> t = decoded_code_points items.
Proof.
  revert t. induction items as [|it l IH]; simpl; intros t H.
  - by inversion H.
  - destruct it as [cp w|w]; simpl in *; [|done].
    destruct (decode_items Strict l) as [t'|]; [|done].
    inversion H. f_equal. by apply IH.
Qed.

(** C7 (amended). Decoding the decompressed guide never raises: it yields
    the code points of the well-formed sequences of the data, in order, and
    nothing for the bytes of an ill-formed sequence, which are dropped (no
    character is put in their place).  On data that strict decoding accepts
    the result is that of strict decoding. *)
Theorem download_gzip_xml_drops_invalid_bytes (data : list byte) :
  download_gzip_xml data
  = Some (decoded_code_points (utf8_items 0 (map byte_value data)))
  /\ forall t : text,
       bytes_decode Strict data = Some t -> download_gzip_xml data = Some t.
Proof.
  unfold download_gzip_xml, bytes_decode. rewrite decode_items_ignore.
  split; [done|]. intros t H. f_equal. symmetry. by apply decode_items_strict.
Qed.

(** ** The order of binary64 values *)

Ltac float_cases :=
  repeat match goal with
         | x : float |- _ => destruct x as [[]|[]| |[] ? ?]
         end.

Ltac compare_cases :=
  repeat match goal with
         | |- context [Z.compare ?a ?b] =>
             destruct (Z.compare_spec a b); subst
         | H : context [Z.compare ?a ?b] |- _ =>
             destruct (Z.compare_spec a b); subst
         | |- context [Pos.compare_cont Eq ?a ?b] =>
             change (Pos.compare_cont Eq a b) with (Pos.compare a b);
             destruct (Pos.compare_spec a b); subst
         | H : context [Pos.compare_cont Eq ?a ?b] |- _ =>
             change (Pos.compare_cont Eq a b) with (Pos.compare a b) in H;
             destruct (Pos.compare_spec a b); subst
         end.

Lemma flt_irrefl (x : float) : flt x x = false.
Proof.
  unfold flt, SFltb, SFcompare. float_cases; try reflexivity;
    rewrite Z.compare_refl;
    change (Pos.compare_cont Eq m m) with (Pos.compare m m);
    by rewrite Pos.compare_refl.
Qed.

Lemma flt_trans (x y z : float) :
  flt x y = true -> flt y z = true -> flt x z = true.
Proof.
  unfold flt, SFltb, SFcompare.
  float_cases; intros H1 H2; try discriminate; try reflexivity;
    compare_cases; simpl in *; try discriminate; try reflexivity; lia.
Qed.

Lemma flt_not_fle (x y : float) : flt x y = true -> fle y x = false.
Proof.
  unfold flt, fle, SFltb, SFleb, SFcompare.
  float_cases; intros H; try discriminate; try reflexivity;
    compare_cases; simpl in *; try discriminate; try reflexivity; lia.
Qed.


(** ** The name matcher *)

Section NameMatcher.

Variable lower : text -> text.

Lemma best_candidate_pairs (name : text) (epg_channels : dict (list text)) :
  best_candidate lower name epg_channels
  = fold_left (pair_step lower name) (alias_pairs epg_channels) (None, ZERO).
Proof.
  unfold best_candidate, alias_pairs. generalize (@None text, ZERO).
  induction epg_channels as [|[cid names] d IH]; intros st; simpl; [done|].
  rewrite fold_left_app, IH. f_equal.
  clear IH. revert st. induction names as [|n l IHn]; intros st; simpl; [done|].
  apply IHn.
Qed.

Lemma pair_step_invariant (name : text) (seen : list (text * text))
  (st : option text * float) (p : text * text) :
  best_invariant lower name seen st ->
  best_invariant lower name (seen ++ [p]) (pair_step lower name st p).
Proof.
  intros [Hmax Hatt]. unfold pair_step, best_step.
  destruct (flt (snd st) (similarity lower name (snd p))) eqn:E; simpl.
  - split.
    + intros q Hq. apply in_app_iff in Hq as [Hq|[<-|[]]].
      * destruct (flt (similarity lower name (snd p))
                    (similarity lower name (snd q))) eqn:E'; [|done].
        pose proof (Hmax q Hq) as Hq'.
        by rewrite (flt_trans _ _ _ E E') in Hq'.
      * apply flt_irrefl.
    + right. exists p. split; [|done]. apply in_app_iff. right. by left.
  - split.
    + intros q Hq. apply in_app_iff in Hq as [Hq|[<-|[]]]; [by apply Hmax|done].
    + destruct Hatt as [?|(q & Hq & ?)]; [by left|].
      right. exists q. split; [|done]. apply in_app_iff. by left.
Qed.

Lemma best_candidate_invariant (name : text)
  (epg_channels : dict (list text)) :
  best_invariant lower name (alias_pairs epg_channels)
    (best_candidate lower name epg_channels).
Proof.
  rewrite best_candidate_pairs.
  enough (G : forall todo seen st,
             best_invariant lower name seen st ->
             best_invariant lower name (seen ++ todo)
               (fold_left (pair_step lower name) todo st)).
  { apply (G _ []). split; [by intros ? []|by left]. }
  induction todo as [|p l IH]; intros seen st H; simpl.
  - by rewrite app_nil_r.
  - replace (seen ++ p :: l) with ((seen ++ [p]) ++ l)
      by (by rewrite <- app_assoc).
    by apply IH, pair_step_invariant.
Qed.



Lemma find_best_match_score (name : text) (epg_channels : dict (list text)) :
  snd (find_best_match lower name epg_channels)
  = snd (best_candidate lower name epg_channels).
Proof.
  unfold find_best_match.
  destruct (best_candidate lower name epg_channels) as [bid bs].
  by destruct (fle MIN_SIMILARITY bs).
Qed.

(** C1. [find_best_match] returns, with the maximum of the similarity
    scores over all (identifier, alias) pairs, an identifier if and only if
    that maximum is at least [MIN_SIMILARITY]; the identifier is then that
    of a pair with that score.  A maximum equal to 0.82 is accepted; any
    maximum strictly below it, 0.819999 for one, yields no match. *)
Theorem find_best_match_accepts_from_threshold (name : text)
  (epg_channels : dict (list text)) :
  max_similarity lower name epg_channels
    (snd (find_best_match lower name epg_channels))
  /\ (is_Some (fst (find_best_match lower name epg_channels))
      <-> fle MIN_SIMILARITY (snd (find_best_match lower name epg_channels))
          = true)
  /\ (forall cid : text,
        fst (find_best_match lower name epg_channels) = Some cid ->
        exists alias : text,
          In (cid, alias) (alias_pairs epg_channels)
          /\ similarity lower name alias
             = snd (find_best_match lower name epg_channels))
  /\ (snd (find_best_match lower name epg_channels) = MIN_SIMILARITY ->
      is_Some (fst (find_best_match lower name epg_channels)))
  /\ (flt (snd (find_best_match lower name epg_channels)) MIN_SIMILARITY
      = true ->
      fst (find_best_match lower name epg_channels) = None)
  /\ flt SCORE_0_819999 MIN_SIMILARITY = true.
Proof.
  pose proof (best_candidate_invariant name epg_channels) as [Hmax Hatt].
  rewrite find_best_match_score. unfold find_best_match.
  destruct (best_candidate lower name epg_channels) as [bid bs]; simpl in *.
  assert (Hsome : fle MIN_SIMILARITY bs = true -> is_Some bid).
  { intros Hle. destruct Hatt as [[_ ->]|(p & _ & -> & _)]; [done|eauto]. }
  split; [|split; [|split; [|split; [|split]]]].
  - split; [exact Hmax|].
    destruct Hatt as [[_ ?]|(p & ? & _ & ?)]; [by left|right; eauto].
  - destruct (fle MIN_SIMILARITY bs) eqn:Hle; simpl.
    + split; [done|]. intros _. by apply Hsome.
    + split; [by intros [? ?]|done].
  - intros cid. destruct (fle MIN_SIMILARITY bs); simpl; [|done].
    intros ->. destruct Hatt as [[? _]|([c a] & Hin & E & Hs)]; [done|].
    simpl in *. inversion E; subst. eauto.
  - intros ->. change (fle MIN_SIMILARITY MIN_SIMILARITY) with true.
    simpl. by apply Hsome.
  - intros Hlt. by rewrite (flt_not_fle _ _ Hlt).
  - reflexivity.
Qed.

End NameMatcher.

(** ** [SequenceMatcher]: the index of [b] *)



(** ** [find_longest_match]: one row *)




(** ** [find_longest_match] on a sequence against itself *)

Section SelfMatch.

Variable s : text.










End SelfMatch.

(** ** binary64: conversions and operations that are exact *)

Lemma digits2_iter_xO (p k : positive) :
  Zpos (digits2_pos (Pos.iter xO p k)) = Zpos (digits2_pos p) + Zpos k.
Proof.
  induction k as [|k IH] using Pos.peano_ind.
  - simpl. lia.
  - rewrite Pos.iter_succ. simpl. lia.
Qed.

Lemma digits2_shiftl (p : positive) (n : N) :
  Zpos (digits2_pos (Pos.shiftl p n)) = Zpos (digits2_pos p) + Z.of_N n.
Proof.
  destruct n as [|k]; cbn [Pos.shiftl Z.of_N].
  - by rewrite Z.add_0_r.
  - apply digits2_iter_xO.
Qed.


(** The mantissa of a positive integer of at most 53 bits, once aligned. *)
Lemma shl_align_small (p : positive) :
  Zpos (digits2_pos p) <= 53 ->
  shl_align p 0 (Zpos (digits2_pos p) - 53)
  = (Pos.shiftl p (Z.to_N (53 - Zpos (digits2_pos p))),
     Zpos (digits2_pos p) - 53).
Proof.
  intros H. unfold shl_align.
  destruct (Z.sub (Zpos (digits2_pos p) - 53) 0) as [|k|k] eqn:E.
  - replace (53 - Zpos (digits2_pos p)) with 0 by lia.
    replace (Zpos (digits2_pos p) - 53) with 0 by lia. reflexivity.
  - lia.
  - replace (53 - Zpos (digits2_pos p)) with (Zpos k) by lia. reflexivity.
Qed.

(** Rounding leaves a 53-bit mantissa as it is. *)
Lemma binary_round_aux_canonical (sx : bool) (m : positive) (e : Z) :
  digits2_pos m = 53%positive -> -1074 <= e <= 971 ->
  binary_round_aux prec emax sx (Zpos m) e loc_Exact = S754_finite sx m e.
Proof.
  intros Hm He. unfold binary_round_aux, shr_fexp. simpl Zdigits2. rewrite Hm.
  replace (fexp prec emax (53 + e) - e) with 0
    by (unfold fexp, emin, prec, emax; lia).
  simpl. rewrite Hm.
  replace (fexp prec emax (53 + e) - e) with 0
    by (unfold fexp, emin, prec, emax; lia).
  simpl. unfold emax, prec.
  destruct (Z.leb_spec e (1024 - 53)); [done|lia].
Qed.

Lemma float_of_small_int (p : positive) :
  Zpos (digits2_pos p) <= 53 ->
  float_of_int (Zpos p)
  = S754_finite false (Pos.shiftl p (Z.to_N (53 - Zpos (digits2_pos p))))
      (Zpos (digits2_pos p) - 53).
Proof.
  intros H. unfold float_of_int, binary_normalize, binary_round.
  replace (fexp prec emax (Zpos (digits2_pos p) + 0))
    with (Zpos (digits2_pos p) - 53)
    by (unfold fexp, emin, prec, emax; lia).
  rewrite shl_align_small by done.
  apply binary_round_aux_canonical; [|lia].
  pose proof (digits2_shiftl p (Z.to_N (53 - Zpos (digits2_pos p)))) as D.
  rewrite Z2N.id in D by lia. lia.
Qed.

Lemma iter_pos_swap {A : Type} (f : A -> A) (n : positive) (x : A) :
  SpecFloat.iter_pos f n (f x) = f (SpecFloat.iter_pos f n x).
Proof.
  revert x. induction n as [n IHn|n IHn|]; intros x; simpl.
  - by rewrite !IHn.
  - by rewrite !IHn.
  - reflexivity.
Qed.

Lemma iter_pos_succ {A : Type} (f : A -> A) (n : positive) (x : A) :
  SpecFloat.iter_pos f (Pos.succ n) x = SpecFloat.iter_pos f n (f x).
Proof.
  revert x. induction n as [n IHn|n IHn|]; intros x; simpl.
  - by rewrite !IHn, !iter_pos_swap.
  - reflexivity.
  - reflexivity.
Qed.

Lemma shr_exact (m : positive) (k : positive) (e : Z) :
  shr {| shr_m := Zpos (Pos.iter xO m k); shr_r := false; shr_s := false |}
    e (Zpos k)
  = ({| shr_m := Zpos m; shr_r := false; shr_s := false |}, e + Zpos k).
Proof.
  unfold shr. f_equal. revert m.
  induction k as [|k IH] using Pos.peano_ind; intros m.
  - reflexivity.
  - rewrite Pos.iter_succ, iter_pos_succ. cbn [shr_1 orb]. apply IH.
Qed.

(** Doubling a normal number adds one to its exponent. *)
Lemma fmul_two (m : positive) (e : Z) :
  digits2_pos m = 53%positive -> -1000 <= e <= 900 ->
  fmul TWO (S754_finite false m e) = S754_finite false m (e + 1).
Proof.
  intros Hm He. unfold fmul, SFmul, TWO. cbn [xorb].
  change (4503599627370496 * m)%positive with (Pos.iter xO m 52).
  unfold binary_round_aux, shr_fexp.
  assert (D : Zdigits2 (Zpos (Pos.iter xO m 52)) = 105).
  { cbn [Zdigits2]. rewrite digits2_iter_xO, Hm. reflexivity. }
  rewrite D.
  replace (fexp prec emax (105 + (-51 + e)) - (-51 + e)) with 52
    by (unfold fexp, emin, prec, emax; lia).
  cbn [shr_record_of_loc]. rewrite shr_exact.
  cbn [shr_m loc_of_shr_record round_nearest_even Zdigits2]. rewrite Hm.
  replace (fexp prec emax (53 + (-51 + e + 52)) - (-51 + e + 52)) with 0
    by (unfold fexp, emin, prec, emax; lia).
  cbn [shr_record_of_loc shr shr_m]. unfold emax, prec.
  destruct (Z.leb_spec (-51 + e + 52) (1024 - 53)); [|lia].
  f_equal. lia.
Qed.

(** A number divided by itself is 1.0. *)
Lemma fdiv_self (m : positive) (e : Z) :
  fdiv (S754_finite false m e) (S754_finite false m e) = ONE.
Proof.
  unfold fdiv, SFdiv, SFdiv_core_binary. cbn [xorb].
  rewrite !Z.sub_diag.
  change (Z.min (fexp prec emax 0) 0) with (-53).
  change (0 - -53) with 53.
  cbv beta iota zeta.
  assert (E : Z.div_eucl (Z.shiftl (Zpos m) 53) (Zpos m)
              = (9007199254740992, 0)).
  { rewrite Z.shiftl_mul_pow2 by lia.
    pose proof (Z.div_mul (2 ^ 53) (Zpos m) ltac:(lia)) as Q.
    pose proof (Z.mod_mul (2 ^ 53) (Zpos m) ltac:(lia)) as R.
    rewrite (Z.mul_comm (Zpos m)).
    unfold Z.div, Z.modulo in Q, R.
    destruct (Z.div_eucl (2 ^ 53 * Zpos m) (Zpos m)) as [q r].
    simpl in Q, R. by subst. }
  rewrite E.
  assert (L : new_location (Zpos m) 0 = loc_Exact).
  { unfold new_location, new_location_even, new_location_odd.
    by destruct (Z.even (Zpos m)). }
  rewrite L. reflexivity.
Qed.

Lemma digits2_lower (p : positive) : 2 ^ (Zpos (digits2_pos p) - 1) <= Zpos p.
Proof.
  induction p as [p IH|p IH|]; cbn [digits2_pos].
  - replace (Zpos (Pos.succ (digits2_pos p)) - 1)
      with (Z.succ (Zpos (digits2_pos p) - 1)) by lia.
    rewrite Z.pow_succ_r by lia. lia.
  - replace (Zpos (Pos.succ (digits2_pos p)) - 1)
      with (Z.succ (Zpos (digits2_pos p) - 1)) by lia.
    rewrite Z.pow_succ_r by lia. lia.
  - simpl. lia.
Qed.

Lemma digits2_small (p : positive) :
  Zpos p < 2 ^ 52 -> Zpos (digits2_pos p) <= 52.
Proof.
  intros H. pose proof (digits2_lower p) as L.
  destruct (Z.le_gt_cases (Zpos (digits2_pos p)) 52) as [|G]; [done|].
  assert (2 ^ 52 <= 2 ^ (Zpos (digits2_pos p) - 1))
    by (apply Z.pow_le_mono_r; lia).
  lia.
Qed.


(** ** [get_matching_blocks]: the loop runs to its end *)

Section MatchingBlocks.

Variables a b : text.

Lemma scan_row_rows (alo i blo bhi : nat) (j2len : gmap nat nat)
  (js : list nat) (newj2len : gmap nat nat) (best : block) :
  (alo <= i)%nat ->
  (forall j, (j2len_at j2len j <= i - alo)%nat) ->
  rows_invariant alo (S i) (newj2len, best) ->
  rows_invariant alo (S i) (scan_row i blo bhi j2len js newj2len best).
Proof.
  intros Hi Hold. revert newj2len best.
  induction js as [|j js IH]; intros m best Hinv; cbn [scan_row]; [done|].
  destruct (j <? blo)%nat; [by apply IH|].
  destruct (bhi <=? j)%nat; [done|].
  apply IH. destruct Hinv as (Hm & Hlo & Hhi). cbn [fst snd] in *.
  assert (Hk : (S (j2len_get j2len j) <= S (i - alo))%nat).
  { destruct j as [|j']; cbn [j2len_get]; [lia|].
    specialize (Hold j'). unfold j2len_at in Hold. lia. }
  split; [|split]; cbn [fst snd].
  - intros x. unfold j2len_at.
    destruct (decide (j = x)) as [->|Hne].
    + rewrite lookup_insert_eq. simpl. lia.
    + rewrite lookup_insert_ne by done. apply Hm.
  - destruct (Nat.ltb_spec (snd best) (S (j2len_get j2len j)));
      cbn [fst snd]; lia.
  - destruct (Nat.ltb_spec (snd best) (S (j2len_get j2len j)));
      cbn [fst snd]; lia.
Qed.

Lemma scan_rows_invariant (alo ahi blo bhi : nat) :
  (alo <= ahi)%nat ->
  rows_invariant alo ahi (scan_rows a b alo ahi blo bhi).
Proof.
  intros H. unfold scan_rows.
  replace ahi with (alo + (ahi - alo))%nat at 1 by lia.
  generalize (ahi - alo)%nat as n. clear H.
  induction n as [|n IH].
  - cbn [seq fold_left]. rewrite Nat.add_0_r.
    split; [|split]; cbn [fst snd]; try lia.
    intros j. unfold j2len_at. rewrite lookup_empty. simpl. lia.
  - rewrite seq_S, fold_left_app. cbn [fold_left].
    destruct (fold_left _ (seq alo n) _) as [j2len best].
    destruct IH as (Hm & Hlo & Hhi). cbn [fst snd] in *.
    replace (alo + S n)%nat with (S (alo + n)) by lia.
    apply scan_row_rows; [lia| |].
    + intros j. specialize (Hm j). lia.
    + split; [|split]; cbn [fst snd]; try lia.
      intros j. unfold j2len_at. rewrite lookup_empty. simpl. lia.
Qed.

Lemma extend_left_bounds (alo blo besti bestj bestsize : nat) :
  (alo <= besti)%nat ->
  (alo <= fst (fst (extend_left a b alo blo besti bestj bestsize)))%nat
  /\ (fst (fst (extend_left a b alo blo besti bestj bestsize))
      + snd (extend_left a b alo blo besti bestj bestsize)
      = besti + bestsize)%nat.
Proof.
  revert bestj bestsize.
  induction besti as [|i IH]; intros bestj bestsize H; cbn [extend_left].
  - cbn [fst snd]. lia.
  - destruct bestj as [|j]; [cbn [fst snd]; lia|].
    destruct (Nat.ltb_spec alo (S i)); cbn [andb]; [|cbn [fst snd]; lia].
    destruct ((blo <? S j)%nat && (nth i a 0 =? nth j b 0));
      [|cbn [fst snd]; lia].
    destruct (IH j (S bestsize)) as [H1 H2]; [lia|]. lia.
Qed.

Lemma extend_right_bounds (n ahi bhi besti bestj bestsize : nat) :
  (besti + bestsize <= ahi)%nat ->
  (bestsize <= extend_right n a b ahi bhi besti bestj bestsize)%nat
  /\ (besti + extend_right n a b ahi bhi besti bestj bestsize <= ahi)%nat.
Proof.
  revert bestsize. induction n as [|n IH]; intros bestsize H;
    cbn [extend_right]; [lia|].
  destruct (Nat.ltb_spec (besti + bestsize) ahi); cbn [andb]; [|lia].
  destruct ((bestj + bestsize <? bhi)%nat
            && (nth (besti + bestsize) a 0 =? nth (bestj + bestsize) b 0));
    [|lia].
  destruct (IH (S bestsize)); lia.
Qed.

(** With the bound [find_longest_match] gives it, the second [while] ends
    because its condition fails. *)
Lemma extend_right_complete (n ahi bhi besti bestj bestsize : nat) :
  (ahi - (besti + bestsize) <= n)%nat ->
  (besti + extend_right n a b ahi bhi besti bestj bestsize <? ahi)%nat
  && (bestj + extend_right n a b ahi bhi besti bestj bestsize <? bhi)%nat
  && (nth (besti + extend_right n a b ahi bhi besti bestj bestsize) a 0
      =? nth (bestj + extend_right n a b ahi bhi besti bestj bestsize) b 0)
  = false.
Proof.
  revert bestsize. induction n as [|n IH]; intros bestsize H;
    cbn [extend_right].
  - destruct (Nat.ltb_spec (besti + bestsize) ahi); [lia|done].
  - destruct ((besti + bestsize <? ahi)%nat && (bestj + bestsize <? bhi)%nat
              && (nth (besti + bestsize) a 0 =? nth (bestj + bestsize) b 0))
      eqn:E; [|exact E].
    apply IH. lia.
Qed.

(** The block found lies within the rows of the range. *)
Lemma find_longest_match_bounds (alo ahi blo bhi : nat) :
  (alo <= ahi)%nat ->
  (alo <= fst (fst (find_longest_match a b alo ahi blo bhi)))%nat
  /\ (fst (fst (find_longest_match a b alo ahi blo bhi))
      + snd (find_longest_match a b alo ahi blo bhi) <= ahi)%nat.
Proof.
  intros H. unfold find_longest_match.
  destruct (scan_rows_invariant alo ahi blo bhi H) as (_ & Hlo & Hhi).
  destruct (snd (scan_rows a b alo ahi blo bhi)) as [[i j] k].
  cbn [fst snd] in *.
  destruct (extend_left_bounds alo blo i j k Hlo) as [H1 H2].
  destruct (extend_left a b alo blo i j k) as [[i' j'] k'].
  cbn [fst snd] in *.
  destruct (extend_right_bounds (ahi - (i' + k')) ahi bhi i' j' k'); lia.
Qed.

Lemma queue_weight_cons (r : range) (queue : list range) :
  queue_weight (r :: queue) = (range_weight r + queue_weight queue)%nat.
Proof. reflexivity. Qed.

(** With the fuel [get_matching_blocks] gives it, the loop leaves by
    [while queue] finding the work list empty: one more unit of fuel changes
    nothing. *)
Lemma matching_loop_fuel (fuel : nat) (queue : list range)
  (blocks : list block) :
  Forall well_formed_range queue ->
  (queue_weight queue <= fuel)%nat ->
  matching_loop (S fuel) a b queue blocks = matching_loop fuel a b queue blocks.
Proof.
  revert queue blocks.
  induction fuel as [|fuel IH]; intros queue blocks Hwf Hw.
  - destruct queue as [|[[[alo ahi] blo] bhi] queue]; [reflexivity|].
    rewrite queue_weight_cons in Hw. cbn [range_weight] in Hw. lia.
  - destruct queue as [|[[[alo ahi] blo] bhi] queue]; [reflexivity|].
    rewrite queue_weight_cons in Hw. cbn [range_weight] in Hw.
    inversion Hwf as [|? ? Hr Hq]; subst. cbn [well_formed_range] in Hr.
    change (matching_loop (S (S fuel)) a b ((alo, ahi, blo, bhi) :: queue)
              blocks)
      with (let '(i, j, k) := find_longest_match a b alo ahi blo bhi in
            if (k =? 0)%nat then matching_loop (S fuel) a b queue blocks
            else
              matching_loop (S fuel) a b
                (if (i + k <? ahi)%nat && (j + k <? bhi)%nat
                 then ((i + k)%nat, ahi, (j + k)%nat, bhi)
                      :: (if (alo <? i)%nat && (blo <? j)%nat
                          then (alo, i, blo, j) :: queue else queue)
                 else if (alo <? i)%nat && (blo <? j)%nat
                      then (alo, i, blo, j) :: queue else queue)
                (blocks ++ [(i, j, k)])).
    change (matching_loop (S fuel) a b ((alo, ahi, blo, bhi) :: queue) blocks)
      with (let '(i, j, k) := find_longest_match a b alo ahi blo bhi in
            if (k =? 0)%nat then matching_loop fuel a b queue blocks
            else
              matching_loop fuel a b
                (if (i + k <? ahi)%nat && (j + k <? bhi)%nat
                 then ((i + k)%nat, ahi, (j + k)%nat, bhi)
                      :: (if (alo <? i)%nat && (blo <? j)%nat
                          then (alo, i, blo, j) :: queue else queue)
                 else if (alo <? i)%nat && (blo <? j)%nat
                      then (alo, i, blo, j) :: queue else queue)
                (blocks ++ [(i, j, k)])).
    pose proof (find_longest_match_bounds alo ahi blo bhi Hr) as [B1 B2].
    destruct (find_longest_match a b alo ahi blo bhi) as [[i j] k].
    cbn [fst snd] in B1, B2. cbv zeta iota beta.
    destruct (Nat.eqb_spec k 0) as [->|Hk].
    + apply IH; [done|lia].
    + apply IH.
      * destruct (Nat.ltb_spec (i + k) ahi); cbn [andb];
          destruct (Nat.ltb_spec alo i); cbn [andb];
          destruct (j + k <? bhi)%nat; destruct (blo <? j)%nat;
          repeat (apply List.Forall_cons; [cbn [well_formed_range]; lia|]);
          exact Hq.
      * destruct (Nat.ltb_spec (i + k) ahi); cbn [andb];
          destruct (Nat.ltb_spec alo i); cbn [andb];
          destruct (j + k <? bhi)%nat; destruct (blo <? j)%nat;
          rewrite ?queue_weight_cons; cbn [range_weight]; lia.
Qed.

(** The blocks found do not depend on the fuel, from the fuel
    [get_matching_blocks] gives the loop. *)
Lemma get_matching_blocks_complete (extra : nat) :
  matching_loop (queue_weight [(O, length a, O, length b)] + extra) a b
    [(O, length a, O, length b)] []
  = get_matching_blocks a b.
Proof.
  unfold get_matching_blocks.
  induction extra as [|extra IH]; [by rewrite Nat.add_0_r|].
  rewrite Nat.add_succ_r, matching_loop_fuel; [exact IH| |lia].
  apply List.Forall_cons; [cbn [well_formed_range]; lia|constructor].
Qed.

End MatchingBlocks.

(** ** Exact aliases *)


Section ExactAlias.

Variable lower : text -> text.







End ExactAlias.

(** * Concrete runs *)

(** ** The threshold *)

(** Two names with 41 characters in common out of 50 and 50 score exactly
    0.82 and are matched; with 40 in common they score 0.80 and are not. *)
Example score_at_threshold_is_accepted :
  find_best_match ascii_lower name_41_a [(py "x", [name_41_b])]
  = (Some (py "x"), MIN_SIMILARITY).
Proof. vm_compute. reflexivity. Qed.

Example score_below_threshold_is_rejected :
  fst (find_best_match ascii_lower name_40_a [(py "x", [name_40_b])]) = None
  /\ flt (snd (find_best_match ascii_lower name_40_a [(py "x", [name_40_b])]))
       MIN_SIMILARITY = true.
Proof. vm_compute. by split. Qed.

Example min_similarity_is_0_82 :
  fdiv (float_of_int 82) (float_of_int 100) = MIN_SIMILARITY.
Proof. vm_compute. reflexivity. Qed.

Lemma find_best_match_accepts_from_threshold_witness :
  snd (find_best_match ascii_lower name_41_a [(py "x", [name_41_b])])
    = MIN_SIMILARITY
  /\ is_Some (fst (find_best_match ascii_lower name_41_a
                     [(py "x", [name_41_b])])).
Proof.
  assert (E : snd (find_best_match ascii_lower name_41_a
                     [(py "x", [name_41_b])]) = MIN_SIMILARITY)
    by (vm_compute; reflexivity).
  split; [exact E|].
  destruct (find_best_match_accepts_from_threshold ascii_lower name_41_a
              [(py "x", [name_41_b])]) as (_ & _ & _ & H & _).
  exact (H E).
Defined.

(** ** The used identifiers *)

(** C2, as stated, fails: the guide [blank_id_epg] gives the entry [LRT HD]
    the empty identifier as its accepted match (score 1.0), and [main] does
    not put it in [used_ids]. *)
Lemma used_ids_omit_the_empty_identifier :
  ~ (forall cid : text,
       @set_in list_set cid
         (@main_used_ids ascii_lower list_set single_m3u blank_id_epg) = true
       <-> exists name url,
             In (name, url) (parse_m3u_channels single_m3u)
             /\ fst (find_best_match ascii_lower name
                       (parse_epg_channels blank_id_epg)) = Some cid).
Proof.
  intros H. destruct (H []) as [_ H2].
  assert (E : @set_in list_set []
                (@main_used_ids ascii_lower list_set single_m3u blank_id_epg)
              = true).
  { apply H2. exists (py "LRT HD"), (py "http://example.org/lrt").
    split; [vm_compute; by left|vm_compute; reflexivity]. }
  vm_compute in E. discriminate.
Qed.

Lemma used_ids_are_the_nonempty_matches_witness :
  @set_in list_set (py "lrt.lt")
    (@main_used_ids ascii_lower list_set sample_m3u sample_epg) = true.
Proof.
  apply (used_ids_are_the_nonempty_matches ascii_lower sample_m3u sample_epg
           (py "lrt.lt")).
  split; [discriminate|].
  exists (py "LRT HD"), (py "http://example.org/lrt").
  split; [vm_compute; by left|vm_compute; reflexivity].
Defined.

(** ** The projected guide *)


(** On the sample documents only [lrt.lt] is used: the projected guide
    keeps its channel element and its programme, and the entry without a
    similar alias gets no identifier. *)
Example sample_projection :
  map fst (@projected_channels list_set sample_epg
             (@main_used_ids ascii_lower list_set sample_m3u sample_epg))
    = [py "lrt.lt"]
  /\ map programme_channel
       (@projected_programmes list_set sample_epg
          (@main_used_ids ascii_lower list_set sample_m3u sample_epg))
     = [Some (py "lrt.lt")]
  /\ new_m3u_lines (parse_m3u_channels sample_m3u)
       (@main_mapping ascii_lower list_set sample_m3u sample_epg) !! 3%nat
     = Some (py "#EXTINF:-1,XYZ Random Channel 123").
Proof. vm_compute. by repeat split. Qed.



(** ** The projected playlist *)


(** The first and the third entry of [sample_m3u] have the same name. *)
Lemma tvg_id_depends_on_the_name_only_witness :
  parse_m3u_channels sample_m3u !! 0%nat
    = Some (py "LRT HD", py "http://example.org/lrt")
  /\ parse_m3u_channels sample_m3u !! 2%nat
     = Some (py "LRT HD", py "http://example.org/lrt-2")
  /\ new_m3u_lines (parse_m3u_channels sample_m3u)
       (@main_mapping ascii_lower list_set sample_m3u sample_epg) !! 5%nat
     = new_m3u_lines (parse_m3u_channels sample_m3u)
         (@main_mapping ascii_lower list_set sample_m3u sample_epg) !! 1%nat.
Proof.
  assert (H0 : parse_m3u_channels sample_m3u !! 0%nat
               = Some (py "LRT HD", py "http://example.org/lrt"))
    by (vm_compute; reflexivity).
  assert (H2 : parse_m3u_channels sample_m3u !! 2%nat
               = Some (py "LRT HD", py "http://example.org/lrt-2"))
    by (vm_compute; reflexivity).
  split; [exact H0|]. split; [exact H2|].
  exact (proj2 (proj2 (@tvg_id_depends_on_the_name_only ascii_lower list_set
                         sample_m3u sample_epg 0 2 _ _ _ H0 H2))).
Defined.

(** ** The playlist parser *)


(** ** Exact aliases *)

(** The scenario of the specification: the name [LRT HD] against the alias
    [LRT HD] of [lrt.lt] scores 1.0 and the metadata line carries the
    identifier. *)
Example lrt_hd_scenario :
  find_best_match ascii_lower (py "LRT HD") (parse_epg_channels sample_epg)
    = (Some (py "lrt.lt"), ONE)
  /\ new_m3u_lines (parse_m3u_channels sample_m3u)
       (@main_mapping ascii_lower list_set sample_m3u sample_epg) !! 1%nat
     = Some (py "#EXTINF:-1 tvg-id=" ++ quoted (py "lrt.lt") ++ py ",LRT HD").
Proof. vm_compute. by split. Qed.



(** ** The decoder *)

(** C7, as stated, fails: the invalid byte 0xFF between [A] and [B] is
    dropped, where substitution would put U+FFFD in its place. *)
Lemma invalid_byte_is_dropped_not_replaced :
  download_gzip_xml [x41; xff; x42] = Some [65; 66]
  /\ bytes_decode Replace [x41; xff; x42] = Some [65; 65533; 66]
  /\ download_gzip_xml [x41; xff; x42] <> bytes_decode Replace [x41; xff; x42].
Proof. vm_compute. repeat split. discriminate. Qed.

Example strict_decoding_raises : bytes_decode Strict [x41; xff; x42] = None.
Proof. reflexivity. Qed.

Lemma download_gzip_xml_drops_invalid_bytes_witness :
  bytes_decode Strict [x4c; xc4; x84] = Some [76; 260]
  /\ download_gzip_xml [x4c; xc4; x84] = Some [76; 260].
Proof.
  assert (H : bytes_decode Strict [x4c; xc4; x84] = Some [76; 260])
    by reflexivity.
  split; [exact H|].
  exact (proj2 (download_gzip_xml_drops_invalid_bytes [x4c; xc4; x84]) _ H).
Defined.

(** ** Determinism *)

(** The two implementations of the set give the same documents. *)
Example main_with_either_set :
  @main ascii_lower list_set sample_m3u sample_epg
  = @main ascii_lower gset_set sample_m3u sample_epg.
Proof. vm_compute. reflexivity. Qed.



(** * Further properties *)

(** ** UTF-8: encoding then decoding *)

Lemma byte_value_of (z : Z) : 0 <= z < 256 -> byte_value (byte_of z) = z.
Proof.
  intros H. unfold byte_value, byte_of.
  destruct (Byte.of_N (Z.to_N z)) as [b|] eqn:E.
  - simpl. apply Byte.to_of_N in E. rewrite E. lia.
  - apply Byte.of_N_None_iff in E. lia.
Qed.

Lemma byte_value_range (b : byte) : 0 <= byte_value b < 256.
Proof.
  unfold byte_value. pose proof (Byte.to_N_bounded b). lia.
Qed.

Ltac split_ltb :=
  repeat match goal with
         | |- context [?a <? ?b] => destruct (Z.ltb_spec a b); try lia
         | |- context [?a <=? ?b] => destruct (Z.leb_spec a b); try lia
         | |- context [?a =? ?b] => destruct (Z.eqb_spec a b); try lia
         end.

Lemma utf8_next_1 (c : Z) (rest : list Z) :
  0 <= c < 128 -> utf8_next (c :: rest) = Decoded c 1.
Proof. intros H. unfold utf8_next. by split_ltb. Qed.

Lemma utf8_next_2 (c : Z) (rest : list Z) :
  128 <= c < 2048 ->
  utf8_next ((192 + c / 64) :: (128 + c mod 64) :: rest) = Decoded c 2.
Proof.
  intros H. unfold utf8_next, is_continuation.
  pose proof (Z.div_mod c 64 ltac:(lia)) as D.
  pose proof (Z.mod_pos_bound c 64 ltac:(lia)) as M.
  rewrite !Z.shiftl_mul_pow2 by lia.
  generalize dependent (c / 64). generalize dependent (c mod 64).
  intros r M q D. split_ltb. cbn [andb negb orb]. f_equal. lia.
Qed.

Lemma utf8_next_3 (c : Z) (rest : list Z) :
  2048 <= c < 65536 -> ~ 55296 <= c <= 57343 ->
  utf8_next ((224 + c / 4096) :: (128 + (c / 64) mod 64)
               :: (128 + c mod 64) :: rest) = Decoded c 3.
Proof.
  intros H Hs. unfold utf8_next, is_continuation.
  pose proof (Z.div_mod c 64 ltac:(lia)) as D.
  pose proof (Z.mod_pos_bound c 64 ltac:(lia)) as M.
  pose proof (Z.div_mod (c / 64) 64 ltac:(lia)) as D'.
  pose proof (Z.mod_pos_bound (c / 64) 64 ltac:(lia)) as M'.
  replace (c / 4096) with (c / 64 / 64)
    by (rewrite Z.div_div by lia; reflexivity).
  rewrite !Z.shiftl_mul_pow2 by lia.
  generalize dependent (c / 64 / 64). generalize dependent ((c / 64) mod 64).
  generalize dependent (c / 64). generalize dependent (c mod 64).
  intros r M q D r' M' q' D'. split_ltb; cbn [andb negb orb]; f_equal; lia.
Qed.

Lemma utf8_next_4 (c : Z) (rest : list Z) :
  65536 <= c < 1114112 ->
  utf8_next ((240 + c / 262144) :: (128 + (c / 4096) mod 64)
               :: (128 + (c / 64) mod 64) :: (128 + c mod 64) :: rest)
  = Decoded c 4.
Proof.
  intros H. unfold utf8_next, is_continuation.
  pose proof (Z.div_mod c 64 ltac:(lia)) as D.
  pose proof (Z.mod_pos_bound c 64 ltac:(lia)) as M.
  pose proof (Z.div_mod (c / 64) 64 ltac:(lia)) as D'.
  pose proof (Z.mod_pos_bound (c / 64) 64 ltac:(lia)) as M'.
  pose proof (Z.div_mod (c / 64 / 64) 64 ltac:(lia)) as D''.
  pose proof (Z.mod_pos_bound (c / 64 / 64) 64 ltac:(lia)) as M''.
  replace (c / 262144) with (c / 64 / 64 / 64)
    by (rewrite !Z.div_div by lia; reflexivity).
  replace (c / 4096) with (c / 64 / 64)
    by (rewrite Z.div_div by lia; reflexivity).
  rewrite !Z.shiftl_mul_pow2 by lia.
  generalize dependent (c / 64 / 64 / 64).
  generalize dependent ((c / 64 / 64) mod 64).
  generalize dependent (c / 64 / 64). generalize dependent ((c / 64) mod 64).
  generalize dependent (c / 64). generalize dependent (c mod 64).
  intros r M q D r' M' q' D' r'' M'' q'' D''.
  split_ltb; cbn [andb negb orb]; f_equal; lia.
Qed.

Lemma div_range (c n k : Z) : 0 < n -> 0 <= c < n * k -> 0 <= c / n < k.
Proof.
  intros Hn H. split.
  - apply Z.div_pos; lia.
  - apply Z.div_lt_upper_bound; lia.
Qed.

Ltac byte_ranges c :=
  pose proof (Z.mod_pos_bound c 64 ltac:(lia));
  pose proof (Z.mod_pos_bound (c / 64) 64 ltac:(lia));
  pose proof (Z.mod_pos_bound (c / 4096) 64 ltac:(lia)).

Lemma utf8_items_char (c : Z) (bs rest : list byte) :
  utf8_encode_char c = Some bs ->
  utf8_items 0 (map byte_value (bs ++ rest))
  = Decoded c (length bs) :: utf8_items 0 (map byte_value rest).
Proof.
  unfold utf8_encode_char. intros H. byte_ranges c.
  destruct (Z.ltb_spec c 0); [done|].
  destruct (Z.ltb_spec c 128).
  { inversion H. cbn [app map utf8_items length].
    rewrite byte_value_of by lia. by rewrite utf8_next_1 by lia. }
  destruct (Z.ltb_spec c 2048).
  { inversion H. cbn [app map utf8_items length].
    pose proof (div_range c 64 32 ltac:(lia) ltac:(lia)).
    rewrite !byte_value_of by lia. by rewrite utf8_next_2 by lia. }
  destruct (Z.leb_spec 55296 c); destruct (Z.leb_spec c 57343);
    cbn [andb] in H; try done.
  - destruct (Z.ltb_spec c 65536).
    + inversion H. cbn [app map utf8_items length].
      pose proof (div_range c 4096 16 ltac:(lia) ltac:(lia)).
      rewrite !byte_value_of by lia. by rewrite utf8_next_3 by lia.
    + destruct (Z.ltb_spec c 1114112); [|done].
      inversion H. cbn [app map utf8_items length].
      pose proof (div_range c 262144 8 ltac:(lia) ltac:(lia)).
      rewrite !byte_value_of by lia. by rewrite utf8_next_4 by lia.
  - destruct (Z.ltb_spec c 65536); [|lia].
    inversion H. cbn [app map utf8_items length].
    pose proof (div_range c 4096 16 ltac:(lia) ltac:(lia)).
    rewrite !byte_value_of by lia. by rewrite utf8_next_3 by lia.
  - lia.
Qed.

Lemma utf8_encode_items (s : text) (bs : list byte) :
  utf8_encode s = Some bs ->
  utf8_items 0 (map byte_value bs)
  = map (fun c => Decoded c (length (default [] (utf8_encode_char c)))) s.
Proof.
  revert bs. induction s as [|c s IH]; intros bs H; simpl in H.
  - by inversion H.
  - destruct (utf8_encode_char c) as [b1|] eqn:E1; [|done].
    destruct (utf8_encode s) as [b2|] eqn:E2; [|done].
    inversion H. rewrite (utf8_items_char c b1 b2 E1). simpl. rewrite E1.
    f_equal. by apply IH.
Qed.

Lemma decode_items_decoded (e : errors) (width : Z -> nat) (s : text) :
  decode_items e (map (fun c => Decoded c (width c)) s) = Some s.
Proof. induction s as [|c s IH]; simpl; [done|]. by rewrite IH. Qed.

(** X1. Decoding the UTF-8 encoding of a text gives the text back: the
    bytes that [encode("utf-8")] produces are accepted by strict decoding,
    and [download_gzip_xml] reads them as the text that was encoded. *)
Theorem utf8_decode_encode (s : text) (bs : list byte) :
  utf8_encode s = Some bs ->
  bytes_decode Strict bs = Some s /\ download_gzip_xml bs = Some s.
Proof.
  intros H. unfold download_gzip_xml, bytes_decode.
  rewrite (utf8_encode_items s bs H). split; apply decode_items_decoded.
Qed.

(** ** Text operations keep the characters of their operands *)

Lemma splitlines_from_break (cur : text) (c : Z) (s : text) :
  is_linebreak c = true ->
  splitlines_from cur (c :: s)
  = rev cur :: splitlines_from [] (after_break c s).
Proof.
  intros H. cbn [splitlines_from]. rewrite H. f_equal.
  unfold after_break. destruct s as [|c' s']; [done|].
  by destruct ((c =? CR) && (c' =? NL)).
Qed.

Lemma splitlines_from_char (cur : text) (c : Z) (s : text) :
  is_linebreak c = false ->
  splitlines_from cur (c :: s) = splitlines_from (c :: cur) s.
Proof. intros H. cbn [splitlines_from]. by rewrite H. Qed.

Lemma after_break_length (c : Z) (s : text) :
  (length (after_break c s) <= length s)%nat.
Proof.
  unfold after_break. destruct s as [|c' s']; [done|].
  destruct ((c =? CR) && (c' =? NL)); simpl; lia.
Qed.

Section Characters.

Variable P : Z -> Prop.

Lemma lstrip_chars (s : text) : Forall P s -> Forall P (lstrip s).
Proof.
  induction s as [|c s IH]; intros H; simpl; [done|].
  destruct (is_space c); [|done]. apply IH. by inversion H.
Qed.

Lemma strip_chars (s : text) : Forall P s -> Forall P (strip s).
Proof.
  intros H. unfold strip, rstrip.
  by apply Forall_rev, lstrip_chars, Forall_rev, lstrip_chars.
Qed.

Lemma after_first_chars (c : Z) (s : text) :
  Forall P s -> Forall P (after_first c s).
Proof.
  induction s as [|x s IH]; intros H; simpl; [done|].
  inversion H; subst. destruct (x =? c); auto.
Qed.

Lemma after_break_chars (c : Z) (s : text) :
  Forall P s -> Forall P (after_break c s).
Proof.
  unfold after_break. destruct s as [|c' s']; [done|]. intros H.
  destruct ((c =? CR) && (c' =? NL)); [by inversion H|done].
Qed.

Lemma splitlines_from_chars (s cur : text) :
  Forall P cur -> Forall P s -> Forall (Forall P) (splitlines_from cur s).
Proof.
  remember (length s) as n eqn:Hn. revert s cur Hn.
  induction n as [n IH] using lt_wf_ind. intros s cur Hn Hcur Hs.
  destruct s as [|c s].
  - simpl. destruct cur; [done|]. constructor; [|done]. by apply Forall_rev.
  - inversion Hs; subst. destruct (is_linebreak c) eqn:E.
    + rewrite splitlines_from_break by done. constructor.
      * by apply Forall_rev.
      * eapply IH; [|reflexivity|done|by apply after_break_chars].
        pose proof (after_break_length c s). simpl. lia.
    + rewrite splitlines_from_char by done.
      eapply IH; [|reflexivity|by constructor|done]. simpl. lia.
Qed.

Lemma splitlines_chars (s : text) :
  Forall P s -> Forall (Forall P) (splitlines s).
Proof. intros H. by apply splitlines_from_chars. Qed.

Lemma join_chars (sep : text) (parts : list text) :
  Forall P sep -> Forall (Forall P) parts -> Forall P (join sep parts).
Proof.
  intros Hsep. induction parts as [|p ps IH]; intros H; [done|].
  inversion H; subst. destruct ps as [|p' ps]; [done|].
  change (Forall P (p ++ sep ++ join sep (p' :: ps))).
  rewrite !Forall_app. auto.
Qed.

Lemma slice_chars (s : text) (i j : nat) : Forall P s -> Forall P (slice s i j).
Proof. intros H. unfold slice. by apply Forall_take, Forall_drop. Qed.

Lemma groups_of_chars (subject : text) (marks : list nat) :
  Forall P subject -> Forall (Forall P) (groups_of subject marks).
Proof.
  intros H. remember (length marks) as n eqn:Hn. revert marks Hn.
  induction n as [n IH] using lt_wf_ind. intros marks Hn.
  destruct marks as [|o [|c marks]]; [done|done|].
  cbn [groups_of]. constructor; [by apply slice_chars|].
  eapply IH; [|reflexivity]. simpl in Hn. lia.
Qed.

Lemma findall_from_chars (pat : pattern) (subject s : text) (skip pos : nat) :
  Forall P subject ->
  Forall (Forall (Forall P)) (findall_from pat subject skip pos s).
Proof.
  intros H. revert skip pos.
  induction s as [|c s IH]; intros skip pos; destruct skip as [|k];
    cbn [findall_from]; try done.
  - destruct (match_here pat pos [] []) as [[marks e]|]; [|done].
    constructor; [by apply groups_of_chars|done].
  - destruct (match_here pat pos (c :: s) []) as [[marks e]|]; [|done].
    constructor; [by apply groups_of_chars|done].
Qed.

Lemma re_findall_chars (pat : pattern) (s : text) :
  Forall P s -> Forall (Forall (Forall P)) (re_findall pat s).
Proof. intros H. by apply findall_from_chars. Qed.

Lemma re_search_chars (pat : pattern) (s : text) (gs : list text) :
  Forall P s -> re_search pat s = Some gs -> Forall (Forall P) gs.
Proof.
  intros H. unfold re_search.
  destruct (search_from pat 0 s) as [[marks e]|]; [|done].
  intros [= <-]. by apply groups_of_chars.
Qed.

Lemma sub_from_chars (pat : pattern) (repl s : text) (skip pos : nat) :
  Forall P repl -> Forall P s -> Forall P (sub_from pat repl skip pos s).
Proof.
  intros Hr. revert skip pos.
  induction s as [|c s IH]; intros skip pos H; destruct skip as [|k];
    cbn [sub_from]; try done; inversion H; subst.
  - destruct (match_here pat pos (c :: s) []) as [[marks e]|].
    + apply Forall_app. auto.
    + constructor; auto.
  - auto.
Qed.

Lemma first_of_chars (gs : list text) :
  Forall (Forall P) gs -> Forall P (first_of gs).
Proof. intros H. destruct gs; [done|]. by inversion H. Qed.

Lemma pair_of_chars (gs : list text) :
  Forall (Forall P) gs ->
  Forall P (fst (pair_of gs)) /\ Forall P (snd (pair_of gs)).
Proof.
  intros H. destruct gs as [|g1 [|g2 gs]]; [done|done|].
  inversion H as [|? ? H1 H2]; subst. inversion H2; subst. done.
Qed.

(** The entries of the parsed playlist are made of characters of the
    playlist. *)
Lemma parse_m3u_line_chars (st : m3u_state) (line : text) :
  Forall P line ->
  Forall (fun e => Forall P (fst e) /\ Forall P (snd e)) (channels_so_far st) ->
  (forall n, current_name st = Some n -> Forall P n) ->
  Forall (fun e => Forall P (fst e) /\ Forall P (snd e))
    (channels_so_far (parse_m3u_line st line))
  /\ (forall n, current_name (parse_m3u_line st line) = Some n -> Forall P n).
Proof.
  intros Hl Hc Hn. unfold parse_m3u_line.
  pose proof (strip_chars line Hl) as Hs.
  destruct (startswith (strip line) (py "#EXTINF")).
  - destruct (contains_char 44 (strip line)); simpl; split; try done.
    intros n [= <-]. by apply strip_chars, after_first_chars.
  - destruct (nonempty (strip line) && negb (startswith (strip line) (py "#"))
              && truthy (current_name st)); [|done].
    destruct (current_name st) as [name|] eqn:E; simpl;
      [|by split; [|intros n; rewrite E]].
    split; [|done].
    apply Forall_app. split; [done|]. constructor; [|done]. simpl. auto.
Qed.

Lemma parse_m3u_channels_chars (m3u_text : text) :
  Forall P m3u_text ->
  Forall (fun e => Forall P (fst e) /\ Forall P (snd e))
    (parse_m3u_channels m3u_text).
Proof.
  intros H. unfold parse_m3u_channels, parse_m3u_lines.
  pose proof (splitlines_chars m3u_text H) as Hl.
  enough (G : forall st,
    Forall (fun e => Forall P (fst e) /\ Forall P (snd e))
      (channels_so_far st) ->
    (forall n, current_name st = Some n -> Forall P n) ->
    Forall (fun e => Forall P (fst e) /\ Forall P (snd e))
      (channels_so_far (fold_left parse_m3u_line (splitlines m3u_text) st))).
  { apply G; done. }
  induction Hl as [|line lines Hline Hlines IH]; intros st Hc Hn; [done|].
  cbn [fold_left].
  destruct (parse_m3u_line_chars st line Hline Hc Hn). by apply IH.
Qed.

Lemma channel_blocks_chars (epg_xml : text) :
  Forall P epg_xml ->
  Forall (fun e => Forall P (fst e) /\ Forall P (snd e))
    (channel_blocks epg_xml).
Proof.
  intros H. unfold channel_blocks. apply Forall_map.
  eapply Forall_impl; [apply re_findall_chars, H|].
  intros gs Hgs. by apply pair_of_chars.
Qed.

Lemma programme_blocks_chars (epg_xml : text) :
  Forall P epg_xml -> Forall (Forall P) (programme_blocks epg_xml).
Proof.
  intros H. unfold programme_blocks. apply Forall_map.
  eapply Forall_impl; [apply re_findall_chars, H|].
  intros gs Hgs. by apply first_of_chars.
Qed.

End Characters.

(** ** The characters of the documents [main] produces *)

Section Documents.

Variable P : Z -> Prop.
Hypothesis P_ascii : forall c, is_ascii c = true -> P c.

Lemma ascii_chars (s : text) : forallb is_ascii s = true -> Forall P s.
Proof.
  induction s as [|c s IH]; simpl; [done|].
  intros [Hc Hs]%andb_true_iff. constructor; auto.
Qed.

Lemma clean_names_of_chars (inner : text) :
  Forall P inner -> Forall (Forall P) (clean_names_of inner).
Proof.
  intros H. unfold clean_names_of. apply Forall_map, Forall_map.
  eapply Forall_impl; [apply re_findall_chars, H|].
  intros gs Hgs. simpl. apply strip_chars, sub_from_chars.
  - by apply ascii_chars.
  - by apply first_of_chars.
Qed.

Lemma extinf_line_chars (mapping : dict text) (name : text) :
  Forall P name ->
  (forall cid, dict_get mapping name = Some cid -> Forall P cid) ->
  Forall P (extinf_line mapping name).
Proof.
  intros Hn Hm. unfold extinf_line.
  destruct (dict_get mapping name) as [cid|]; cbn [truthy default].
  - destruct (nonempty cid); rewrite ?Forall_app;
      repeat split; eauto; by apply ascii_chars.
  - apply Forall_app. split; [by apply ascii_chars|done].
Qed.

Lemma build_new_m3u_chars (channels : list (text * text))
  (mapping : dict text) :
  Forall (fun e => Forall P (fst e) /\ Forall P (snd e)) channels ->
  (forall name cid, dict_get mapping name = Some cid -> Forall P cid) ->
  Forall P (build_new_m3u channels mapping).
Proof.
  intros Hc Hm. unfold build_new_m3u. apply Forall_app.
  split; [|by apply ascii_chars]. apply join_chars; [by apply ascii_chars|].
  rewrite new_m3u_lines_flat. constructor; [by apply ascii_chars|].
  induction Hc as [|[n u] l [Hn Hu] Hl IH]; [done|]. simpl in *.
  constructor; [|by constructor]. apply extinf_line_chars; eauto.
Qed.

Lemma epg_header_chars (epg_xml : text) :
  Forall P epg_xml -> Forall P (epg_header epg_xml).
Proof.
  intros H. unfold epg_header.
  destruct (re_search HEADER_RE epg_xml) as [gs|] eqn:E.
  - eapply first_of_chars, re_search_chars; eauto.
  - by apply ascii_chars.
Qed.

Lemma channel_element_chars (c : text * text) :
  Forall P (fst c) -> Forall P (snd c) -> Forall P (channel_element c).
Proof.
  intros H1 H2. unfold channel_element. rewrite !Forall_app.
  repeat split; auto; by apply ascii_chars.
Qed.

Lemma programme_element_chars (block : text) :
  Forall P block -> Forall P (programme_element block).
Proof.
  intros H. unfold programme_element. rewrite !Forall_app.
  repeat split; auto; by apply ascii_chars.
Qed.

Lemma build_filtered_epg_chars {used_set : PySet} (epg_xml : text)
  (used_ids : pyset) :
  Forall P epg_xml -> Forall P (build_filtered_epg epg_xml used_ids).
Proof.
  intros H. unfold build_filtered_epg.
  apply join_chars; [by apply ascii_chars|].
  rewrite filtered_epg_parts_spec. rewrite !Forall_app. repeat split.
  - constructor; [by apply epg_header_chars|done].
  - apply Forall_map. unfold projected_channels.
    apply List.Forall_forall. intros c [Hc _]%filter_In.
    pose proof (channel_blocks_chars P epg_xml H) as Hb.
    rewrite List.Forall_forall in Hb. destruct (Hb c Hc).
    by apply channel_element_chars.
  - apply Forall_map. unfold projected_programmes.
    apply List.Forall_forall. intros b [Hb _]%filter_In.
    pose proof (programme_blocks_chars P epg_xml H) as Hbs.
    rewrite List.Forall_forall in Hbs. by apply programme_element_chars, Hbs.
  - constructor; [by apply ascii_chars|done].
Qed.

Lemma main_mapping_chars (lower : text -> text) {used_set : PySet}
  (m3u_text epg_xml name cid : text) :
  Forall P epg_xml ->
  dict_get (main_mapping lower m3u_text epg_xml) name = Some cid ->
  Forall P cid.
Proof.
  intros H. unfold main_mapping. rewrite match_all_mapping.
  destruct (decide _); [|done]. intros Hacc.
  apply accepted_id_spec in Hacc as [_ Hm].
  apply find_best_match_id, parse_epg_channels_keys in Hm.
  apply in_map_iff in Hm as (c & <- & Hc).
  pose proof (channel_blocks_chars P epg_xml H) as Hb.
  rewrite List.Forall_forall in Hb. by destruct (Hb c Hc).
Qed.

Lemma main_chars (lower : text -> text) {used_set : PySet}
  (m3u_text epg_xml : text) :
  Forall P m3u_text -> Forall P epg_xml ->
  Forall P (fst (main lower m3u_text epg_xml))
  /\ Forall P (snd (main lower m3u_text epg_xml)).
Proof.
  intros Hm He. rewrite main_documents. simpl. split.
  - apply build_new_m3u_chars; [by apply parse_m3u_channels_chars|].
    intros name cid. by apply main_mapping_chars.
  - by apply build_filtered_epg_chars.
Qed.

End Documents.

(** X2. [main] invents no character: every character of the playlist and of
    the guide it produces is a character of one of the two documents it
    read, or an ASCII character (those of the literals of the program).
    Lower-casing serves the comparison only and leaves no trace. *)
Theorem main_invents_no_character (lower : text -> text) (S : PySet)
  (m3u_text epg_xml : text) (c : Z) :
  In c (fst (main lower m3u_text epg_xml))
  \/ In c (snd (main lower m3u_text epg_xml)) ->
  is_ascii c = true \/ In c m3u_text \/ In c epg_xml.
Proof.
  set (P := fun c => is_ascii c = true \/ In c m3u_text \/ In c epg_xml).
  assert (HP : forall c, is_ascii c = true -> P c) by (intros; by left).
  assert (Hm : Forall P m3u_text)
    by (apply List.Forall_forall; intros; right; by left).
  assert (He : Forall P epg_xml)
    by (apply List.Forall_forall; intros; right; by right).
  destruct (main_chars P HP lower m3u_text epg_xml Hm He) as [H1 H2].
  rewrite List.Forall_forall in H1, H2.
  intros [H|H]; [exact (H1 c H)|exact (H2 c H)].
Qed.

(** ** UTF-8: scalar values *)

Lemma utf8_encode_char_scalar (c : Z) :
  is_Some (utf8_encode_char c) <-> is_scalar c = true.
Proof.
  unfold utf8_encode_char, is_scalar.
  destruct (Z.ltb_spec c 0), (Z.ltb_spec c 128), (Z.ltb_spec c 2048),
    (Z.leb_spec 55296 c), (Z.leb_spec c 57343), (Z.ltb_spec c 65536),
    (Z.ltb_spec c 1114112), (Z.leb_spec 0 c), (Z.ltb_spec c 55296),
    (Z.ltb_spec 57343 c); try lia; cbn [andb orb];
    (split; [intros [x Hx]; done|intros Hx; done || by eexists]).
Qed.

Lemma utf8_encode_scalar (s : text) :
  is_Some (utf8_encode s) <-> scalar_text s.
Proof.
  unfold scalar_text. induction s as [|c s IH]; simpl.
  - split; [done|by eexists].
  - rewrite Forall_cons, <- IH, <- utf8_encode_char_scalar.
    destruct (utf8_encode_char c), (utf8_encode s); split;
      try (intros [x Hx]; done); try (intros [[x Hx] [y Hy]]; done);
      intros _; repeat split; by eexists.
Qed.

Ltac scalar_case :=
  intros [= <- <-]; unfold is_scalar; rewrite ?Z.shiftl_mul_pow2 by lia;
  split_ltb; done.

Lemma utf8_next_scalar (bs : list Z) (cp : Z) (w : nat) :
  Forall (fun b => 0 <= b < 256) bs ->
  utf8_next bs = Decoded cp w -> is_scalar cp = true.
Proof.
  intros Hb. unfold utf8_next, is_continuation.
  rewrite !Z.shiftl_mul_pow2 by lia.
  destruct bs as [|ch bs]; [done|]. apply Forall_cons in Hb as [B1 Hb].
  destruct (Z.ltb_spec ch 128).
  { scalar_case. }
  destruct (Z.ltb_spec ch 194); [done|].
  destruct bs as [|ch2 bs].
  { by repeat case_match. }
  apply Forall_cons in Hb as [B2 Hb].
  destruct (Z.ltb_spec ch 224).
  { destruct (Z.leb_spec 128 ch2), (Z.leb_spec ch2 191); cbn [andb];
      try done.
    scalar_case. }
  destruct (Z.leb_spec 128 ch2), (Z.leb_spec ch2 191); cbn [andb negb orb];
    try (by repeat case_match).
  destruct bs as [|ch3 bs].
  { by repeat case_match. }
  apply Forall_cons in Hb as [B3 Hb].
  destruct (Z.leb_spec 128 ch3), (Z.leb_spec ch3 191); cbn [andb negb orb];
    try (by repeat case_match).
  destruct (Z.ltb_spec ch 240).
  { destruct (Z.ltb_spec ch2 160), (Z.eqb_spec ch 224), (Z.eqb_spec ch 237);
      try done; try lia;
      scalar_case. }
  destruct (Z.ltb_spec ch 245); [|done].
  destruct bs as [|ch4 bs].
  { by repeat case_match. }
  apply Forall_cons in Hb as [B4 Hb].
  destruct (Z.leb_spec 128 ch4), (Z.leb_spec ch4 191); cbn [andb negb orb];
    try (by repeat case_match).
  destruct (Z.ltb_spec ch2 144), (Z.eqb_spec ch 240), (Z.eqb_spec ch 244);
    try done; try lia;
    scalar_case.
Qed.


Lemma utf8_items_scalar (bs : list Z) (skip : nat) :
  Forall (fun b => 0 <= b < 256) bs ->
  scalar_text (decoded_code_points (utf8_items skip bs)).
Proof.
  intros H. revert skip. unfold scalar_text.
  induction H as [|b bs Hb Hbs IH]; intros skip; [done|].
  destruct skip as [|k]; cbn [utf8_items]; [|apply IH].
  cbn [decoded_code_points flat_map]. apply Forall_app. split; [|apply IH].
  destruct (utf8_next (b :: bs)) as [cp w|w] eqn:E; [|done].
  constructor; [|done]. eapply utf8_next_scalar; [|exact E]. by constructor.
Qed.

(** X3. The guide [download_gzip_xml] returns, whatever the bytes, is made
    of scalar values only (no surrogate), so [encode("utf-8")] accepts it;
    and reading its encoding gives the same text again. *)
Theorem download_gzip_xml_is_encodable (data : list byte) :
  exists epg_xml bs,
    download_gzip_xml data = Some epg_xml
    /\ scalar_text epg_xml
    /\ utf8_encode epg_xml = Some bs
    /\ download_gzip_xml bs = Some epg_xml.
Proof.
  assert (Hs : scalar_text
                 (decoded_code_points (utf8_items 0 (map byte_value data)))).
  { apply utf8_items_scalar, Forall_map, List.Forall_forall.
    intros b _. apply byte_value_range. }
  destruct (proj2 (utf8_encode_scalar _) Hs) as [bs Hbs].
  eexists _, bs. split; [|split; [exact Hs|split; [exact Hbs|]]].
  - unfold download_gzip_xml, bytes_decode. apply decode_items_ignore.
  - unfold download_gzip_xml, bytes_decode.
    rewrite (utf8_encode_items _ bs Hbs). apply decode_items_decoded.
Qed.


(** ** [strip] *)

Lemma lstrip_head (s t : text) (c : Z) :
  lstrip s = c :: t -> is_space c = false.
Proof.
  induction s as [|x s IH]; simpl; [done|].
  destruct (is_space x) eqn:E; [done|]. by intros [= <- <-].
Qed.

Lemma lstrip_nonspace (c : Z) (s : text) :
  is_space c = false -> lstrip (c :: s) = c :: s.
Proof. intros H. simpl. by rewrite H. Qed.

Lemma lstrip_app_nonspace (l r : text) (c : Z) :
  is_space c = false -> lstrip (l ++ c :: r) = lstrip l ++ c :: r.
Proof.
  intros H. induction l as [|x l IH]; simpl.
  - by rewrite H.
  - by destruct (is_space x).
Qed.

Lemma rstrip_app_nonspace (l r : text) (c : Z) :
  is_space c = false -> rstrip (l ++ c :: r) = l ++ c :: rstrip r.
Proof.
  intros H. unfold rstrip. rewrite rev_app_distr. simpl.
  rewrite <- app_assoc. simpl. rewrite lstrip_app_nonspace by done.
  rewrite rev_app_distr. simpl. rewrite rev_involutive.
  by rewrite <- app_assoc.
Qed.

Lemma rstrip_cons_nonspace (r : text) (c : Z) :
  is_space c = false -> rstrip (c :: r) = c :: rstrip r.
Proof. apply (rstrip_app_nonspace [] r c). Qed.

Lemma rstrip_last (s l : text) (c : Z) :
  rstrip s = l ++ [c] -> is_space c = false.
Proof.
  unfold rstrip. intros H. apply (f_equal (@rev Z)) in H.
  rewrite rev_involutive, rev_app_distr in H. simpl in H.
  by apply lstrip_head in H.
Qed.

Lemma rstrip_idem (s : text) : rstrip (rstrip s) = rstrip s.
Proof.
  unfold rstrip. rewrite rev_involutive. f_equal.
  induction (rev s) as [|x l IH]; simpl; [done|].
  destruct (is_space x) eqn:E; [done|]. simpl. by rewrite E.
Qed.

Lemma strip_idem (s : text) : strip (strip s) = strip s.
Proof.
  unfold strip. destruct (lstrip s) as [|c t] eqn:E; [done|].
  pose proof (lstrip_head _ _ _ E) as Hc.
  rewrite rstrip_cons_nonspace by done. rewrite lstrip_nonspace by done.
  rewrite rstrip_cons_nonspace by done. by rewrite rstrip_idem.
Qed.

(** A trimmed text that is not empty begins and ends with a character that
    is not white space. *)
Lemma trimmed_ends (s : text) :
  strip s = s -> s <> [] ->
  exists c l d, s = l ++ [d] /\ is_space d = false
                /\ s = c :: tl s /\ is_space c = false.
Proof.
  intros H Hne. destruct s as [|c t]; [done|].
  assert (Hc : is_space c = false).
  { destruct (is_space c) eqn:E; [|done]. exfalso.
    unfold strip in H. destruct (lstrip (c :: t)) as [|x u] eqn:El.
    - done.
    - pose proof (lstrip_head _ _ _ El) as Hx.
      rewrite rstrip_cons_nonspace in H by done.
      injection H as -> _. congruence. }
  destruct (exists_last (l := c :: t) ltac:(done)) as (l & d & E).
  exists c, l, d. repeat split; try done.
  apply (rstrip_last (lstrip (c :: t)) l). fold (strip (c :: t)). by rewrite H.
Qed.

Lemma strip_framed (c d : Z) (l : text) :
  is_space c = false -> is_space d = false ->
  strip (c :: l ++ [d]) = c :: l ++ [d].
Proof.
  intros Hc Hd. unfold strip. rewrite lstrip_nonspace by done.
  change (c :: l ++ [d]) with ((c :: l) ++ [d]).
  by rewrite rstrip_app_nonspace by done.
Qed.

Lemma strip_single (c : Z) : is_space c = false -> strip [c] = [c].
Proof.
  intros Hc. unfold strip. rewrite lstrip_nonspace by done.
  by rewrite rstrip_cons_nonspace by done.
Qed.

(** A text that begins with a character that is not white space and ends
    with a trimmed text that is not empty is trimmed. *)
Lemma strip_prefixed (c : Z) (p s : text) :
  is_space c = false -> strip s = s -> s <> [] ->
  strip (c :: p ++ s) = c :: p ++ s.
Proof.
  intros Hc Hs Hne.
  destruct (trimmed_ends s Hs Hne) as (_ & l & d & E & Hd & _).
  rewrite E, app_assoc. by apply strip_framed.
Qed.

(** ** [splitlines] *)

Lemma one_line_Forall (s : text) :
  one_line s = true <-> Forall (fun c => is_linebreak c = false) s.
Proof.
  unfold one_line. rewrite forallb_forall, List.Forall_forall.
  split; intros H c Hc; specialize (H c Hc); by destruct (is_linebreak c).
Qed.

Lemma splitlines_from_lines (s cur : text) :
  one_line cur = true ->
  Forall (fun l => one_line l = true) (splitlines_from cur s).
Proof.
  remember (length s) as n eqn:Hn. revert s cur Hn.
  induction n as [n IH] using lt_wf_ind. intros s cur Hn Hcur.
  assert (Hrev : one_line (rev cur) = true).
  { apply one_line_Forall, Forall_rev. by apply one_line_Forall. }
  destruct s as [|c s].
  - simpl. destruct cur; [done|]. by constructor.
  - destruct (is_linebreak c) eqn:E.
    + rewrite splitlines_from_break by done. constructor; [done|].
      eapply IH; [|reflexivity|done].
      pose proof (after_break_length c s). simpl in Hn. lia.
    + rewrite splitlines_from_char by done.
      eapply IH; [|reflexivity|]; [simpl in Hn; lia|].
      unfold one_line in *. simpl. by rewrite E.
Qed.

Lemma splitlines_lines (s : text) :
  Forall (fun l => one_line l = true) (splitlines s).
Proof. by apply splitlines_from_lines. Qed.

Lemma splitlines_from_line (l cur rest : text) :
  one_line l = true ->
  splitlines_from cur (l ++ NL :: rest)
  = (rev cur ++ l) :: splitlines_from [] rest.
Proof.
  revert cur. induction l as [|c l IH]; intros cur H.
  - rewrite app_nil_r. simpl app. rewrite splitlines_from_break by done.
    f_equal. by destruct rest.
  - unfold one_line in H. simpl in H. apply andb_true_iff in H as [Hc Hl].
    apply negb_true_iff in Hc. simpl app.
    rewrite splitlines_from_char by done. rewrite IH by done.
    simpl. by rewrite <- app_assoc.
Qed.

Lemma splitlines_join (lines : list text) :
  Forall (fun l => one_line l = true) lines -> lines <> [] ->
  splitlines (join [NL] lines ++ [NL]) = lines.
Proof.
  unfold splitlines. induction 1 as [|l ls Hl Hls IH]; intros Hne; [done|].
  destruct ls as [|l' ls].
  - simpl join. by rewrite splitlines_from_line.
  - change (join [NL] (l :: l' :: ls)) with (l ++ [NL] ++ join [NL] (l' :: ls)).
    rewrite <- !app_assoc. simpl app at 2.
    rewrite splitlines_from_line by done. f_equal. by apply IH.
Qed.

(** ** The entries of the parsed playlist *)

Lemma strip_one_line (s : text) :
  one_line s = true -> one_line (strip s) = true.
Proof. rewrite !one_line_Forall. apply strip_chars. Qed.

Lemma after_first_one_line (c : Z) (s : text) :
  one_line s = true -> one_line (after_first c s) = true.
Proof. rewrite !one_line_Forall. apply after_first_chars. Qed.

Lemma trimmed_strip (s : text) : trimmed (strip s) = true.
Proof. apply bool_decide_eq_true, strip_idem. Qed.

Lemma parse_m3u_line_entries (st : m3u_state) (line : text) :
  one_line line = true ->
  forallb entry_ok (channels_so_far st) = true ->
  (forall n, current_name st = Some n ->
             trimmed n = true /\ one_line n = true) ->
  forallb entry_ok (channels_so_far (parse_m3u_line st line)) = true
  /\ (forall n, current_name (parse_m3u_line st line) = Some n ->
                trimmed n = true /\ one_line n = true).
Proof.
  intros Hl Hc Hn. unfold parse_m3u_line.
  pose proof (strip_one_line line Hl) as Hs.
  destruct (startswith (strip line) (py "#EXTINF")).
  - destruct (contains_char 44 (strip line)); simpl; split; try done.
    intros n [= <-]. split; [apply trimmed_strip|].
    by apply strip_one_line, after_first_one_line.
  - destruct (nonempty (strip line)) eqn:E1; [|done].
    destruct (startswith (strip line) (py "#")) eqn:E2; [done|].
    destruct (current_name st) as [name|] eqn:E; cbn [negb andb truthy];
      [|by split; [|intros n; rewrite E]].
    destruct (nonempty name) eqn:E3; [|by split; [|intros n; rewrite E; eauto]].
    cbn [channels_so_far current_name]. split; [|done].
    rewrite forallb_app, Hc. cbn [forallb andb]. rewrite andb_true_r.
    destruct (Hn name eq_refl) as [Ht Ho].
    unfold entry_ok. cbn [fst snd].
    by rewrite E3, Ht, Ho, E1, trimmed_strip, Hs, E2.
Qed.

Lemma parse_m3u_lines_entries (lines : list text) (st : m3u_state) :
  Forall (fun l => one_line l = true) lines ->
  forallb entry_ok (channels_so_far st) = true ->
  (forall n, current_name st = Some n ->
             trimmed n = true /\ one_line n = true) ->
  forallb entry_ok (channels_so_far (fold_left parse_m3u_line lines st)) = true.
Proof.
  intros H. revert st.
  induction H as [|line lines Hline Hlines IH]; intros st Hc Hn; [done|].
  cbn [fold_left].
  destruct (parse_m3u_line_entries st line Hline Hc Hn). by apply IH.
Qed.

(** X5. Every entry [parse_m3u_channels] yields is well formed: its name
    and its URL are not empty, are trimmed and hold no line boundary, and
    the URL does not begin with [#]. *)
Theorem parsed_entries_are_well_formed (m3u_text : text) :
  forallb entry_ok (parse_m3u_channels m3u_text) = true.
Proof.
  unfold parse_m3u_channels, parse_m3u_lines.
  apply parse_m3u_lines_entries; [apply splitlines_lines|done|done].
Qed.

(** ** Reading the projected playlist again *)

Lemma startswith_app (p s : text) : startswith (p ++ s) p = true.
Proof.
  induction p as [|c p IH]; simpl; [by destruct s|]. by rewrite Z.eqb_refl.
Qed.

Lemma startswith_extinf (s : text) :
  startswith s (py "#") = false -> startswith s (py "#EXTINF") = false.
Proof.
  destruct s as [|c s]; [by vm_compute|].
  change (py "#") with [35]. change (py "#EXTINF") with (35 :: py "EXTINF").
  cbn [startswith]. destruct (35 =? c); [|done]. by destruct s.
Qed.

Lemma plain_id_spec (cid : text) :
  plain_id cid = true -> ~ In 44 cid /\ one_line cid = true.
Proof.
  unfold plain_id, one_line. rewrite !forallb_forall. intros H. split.
  - intros Hin. specialize (H _ Hin). done.
  - intros c Hc. specialize (H _ Hc). by apply andb_true_iff in H as [_ ?].
Qed.

Lemma one_line_app (s t : text) :
  one_line (s ++ t) = one_line s && one_line t.
Proof. apply forallb_app. Qed.

(** The metadata line written for a well-formed name is read back as that
    name. *)
Lemma extinf_line_read (mapping : dict text) (name : text) :
  nonempty name = true -> trimmed name = true -> one_line name = true ->
  (forall cid, dict_get mapping name = Some cid -> plain_id cid = true) ->
  one_line (extinf_line mapping name) = true
  /\ forall acc pending,
       parse_m3u_line {| channels_so_far := acc; current_name := pending |}
         (extinf_line mapping name)
       = {| channels_so_far := acc; current_name := Some name |}.
Proof.
  intros Hne Ht Ho Hm. apply bool_decide_eq_true in Ht.
  assert (Hne' : name <> []) by (by destruct name).
  assert (G : exists before,
             extinf_line mapping name = (py "#EXTINF" ++ before) ++ 44 :: name
             /\ ~ In 44 (py "#EXTINF" ++ before)
             /\ one_line (py "#EXTINF" ++ before) = true).
  { unfold extinf_line.
    destruct (dict_get mapping name) as [cid|] eqn:E; cbn [truthy default].
    - destruct (nonempty cid).
      + destruct (plain_id_spec cid (Hm cid eq_refl)) as [Hno Hol].
        exists (py ":-1 tvg-id=" ++ [QUOTE] ++ cid ++ [QUOTE]).
        split; [by rewrite <- !app_assoc|]. split.
        * rewrite !in_app_iff. intros [H|[H|[H|[H|H]]]]; try done;
            revert H; vm_compute; intuition discriminate.
        * by rewrite !one_line_app, Hol.
      + exists (py ":-1"). split; [done|]. split; [|done].
        vm_compute. intuition discriminate.
    - exists (py ":-1"). split; [done|]. split; [|done].
      vm_compute. intuition discriminate. }
  destruct G as (before & E & Hno & Hol). rewrite E. split.
  - rewrite one_line_app, Hol. simpl. by rewrite Ho.
  - intros acc pending. unfold parse_m3u_line.
    assert (Hs : strip ((py "#EXTINF" ++ before) ++ 44 :: name)
                 = (py "#EXTINF" ++ before) ++ 44 :: name).
    { assert (Eq : (py "#EXTINF" ++ before) ++ 44 :: name
                   = 35 :: (py "EXTINF" ++ before ++ [44]) ++ name).
      { by rewrite <- !app_assoc. }
      rewrite Eq. by apply strip_prefixed. }
    rewrite Hs. rewrite <- app_assoc at 1. rewrite startswith_app.
    rewrite contains_char_split, after_first_split by done.
    by rewrite Ht.
Qed.

Lemma entry_ok_spec (e : text * text) :
  entry_ok e = true ->
  nonempty (fst e) = true /\ trimmed (fst e) = true /\ one_line (fst e) = true
  /\ nonempty (snd e) = true /\ trimmed (snd e) = true
  /\ one_line (snd e) = true /\ startswith (snd e) (py "#") = false.
Proof.
  unfold entry_ok. rewrite !andb_true_iff, negb_true_iff. tauto.
Qed.

(** The URL line of a well-formed entry is read back as the entry. *)
Lemma url_line_read (acc : list (text * text)) (name url : text) :
  entry_ok (name, url) = true ->
  parse_m3u_line {| channels_so_far := acc; current_name := Some name |} url
  = {| channels_so_far := acc ++ [(name, url)]; current_name := None |}.
Proof.
  intros (Hn & _ & _ & Hu & Ht & _ & Hs)%entry_ok_spec. simpl in *.
  apply bool_decide_eq_true in Ht. unfold parse_m3u_line.
  rewrite Ht, (startswith_extinf url Hs), Hu, Hs. simpl. by rewrite Hn.
Qed.

Lemma entries_read (channels acc : list (text * text)) (mapping : dict text) :
  forallb entry_ok channels = true ->
  (forall name cid, dict_get mapping name = Some cid -> plain_id cid = true) ->
  fold_left parse_m3u_line
    (flat_map (fun e => [extinf_line mapping (fst e); snd e]) channels)
    {| channels_so_far := acc; current_name := None |}
  = {| channels_so_far := acc ++ channels; current_name := None |}.
Proof.
  intros Hc Hm. revert acc.
  induction channels as [|[name url] l IH]; intros acc.
  - by rewrite app_nil_r.
  - simpl in Hc. apply andb_true_iff in Hc as [He Hl].
    cbn [flat_map app fold_left fst snd].
    pose proof He as (Hn & Ht & Ho & _)%entry_ok_spec. simpl in Hn, Ht, Ho.
    destruct (extinf_line_read mapping name Hn Ht Ho (Hm name)) as [_ ->].
    rewrite (url_line_read acc name url He), IH by done.
    by rewrite <- app_assoc.
Qed.

Lemma new_m3u_lines_one_line (channels : list (text * text))
  (mapping : dict text) :
  forallb entry_ok channels = true ->
  (forall name cid, dict_get mapping name = Some cid -> plain_id cid = true) ->
  Forall (fun l => one_line l = true) (new_m3u_lines channels mapping).
Proof.
  intros Hc Hm. rewrite new_m3u_lines_flat. constructor; [done|].
  induction channels as [|[name url] l IH]; [done|].
  simpl in Hc. apply andb_true_iff in Hc as [He Hl].
  pose proof He as (Hn & Ht & Ho & _ & _ & Hou & _)%entry_ok_spec.
  simpl in Hn, Ht, Ho, Hou. cbn [flat_map app fst snd].
  destruct (extinf_line_read mapping name Hn Ht Ho (Hm name)) as [H1 _].
  constructor; [done|]. constructor; [done|]. by apply IH.
Qed.

(** The lines of the projected playlist are read back as its entries. *)
Lemma new_m3u_lines_read (channels : list (text * text)) (mapping : dict text) :
  forallb entry_ok channels = true ->
  (forall name cid, dict_get mapping name = Some cid -> plain_id cid = true) ->
  parse_m3u_lines (new_m3u_lines channels mapping)
  = {| channels_so_far := channels; current_name := None |}.
Proof.
  intros Hc Hm. rewrite new_m3u_lines_flat. unfold parse_m3u_lines.
  cbn [fold_left].
  change (parse_m3u_line {| channels_so_far := []; current_name := None |}
            M3U_HEADER)
    with {| channels_so_far := []; current_name := None |}.
  by rewrite entries_read.
Qed.

(** X6. [parse_m3u_channels] reads back what [build_new_m3u] writes: for
    well-formed entries, and a mapping whose identifiers hold no comma and
    no line boundary, parsing the projected playlist gives the entries it
    was built from, in order. *)
Theorem parse_m3u_channels_reads_build_new_m3u
  (channels : list (text * text)) (mapping : dict text) :
  forallb entry_ok channels = true ->
  (forall name cid, dict_get mapping name = Some cid -> plain_id cid = true) ->
  parse_m3u_channels (build_new_m3u channels mapping) = channels.
Proof.
  intros Hc Hm. unfold parse_m3u_channels, build_new_m3u.
  rewrite splitlines_join.
  - by rewrite new_m3u_lines_read.
  - by apply new_m3u_lines_one_line.
  - by rewrite new_m3u_lines_flat.
Qed.

Lemma splitlines_from_app (a cur rest : text) :
  splitlines_from cur (a ++ NL :: rest)
  = splitlines_from cur (a ++ [NL]) ++ splitlines rest.
Proof.
  unfold splitlines. remember (length a) as n eqn:Hn. revert a cur Hn.
  induction n as [n IH] using lt_wf_ind. intros a cur Hn.
  destruct a as [|c a].
  - simpl app. rewrite !splitlines_from_break by done. by destruct rest.
  - simpl app. destruct (is_linebreak c) eqn:E.
    + rewrite !splitlines_from_break by done.
      rewrite <- app_comm_cons. f_equal.
      destruct a as [|c' a].
      * simpl app. unfold after_break.
        destruct (c =? CR); cbn [andb]; [reflexivity|].
        change (NL =? NL) with true. cbn [andb].
        apply (IH O ltac:(simpl in Hn; lia) [] [] eq_refl).
      * simpl app. unfold after_break.
        destruct ((c =? CR) && (c' =? NL)).
        -- eapply IH; [|reflexivity]. simpl in Hn. lia.
        -- apply (IH (length (c' :: a)) ltac:(simpl in *; lia) (c' :: a) []
                    eq_refl).
    + rewrite !splitlines_from_char by done.
      eapply IH; [|reflexivity]. simpl in Hn. lia.
Qed.

Lemma skipped_line_step (st : m3u_state) (line : text) :
  skipped_line line = true -> parse_m3u_line st line = st.
Proof.
  unfold skipped_line, parse_m3u_line. intros H.
  apply orb_true_iff in H as [H|H].
  - apply negb_true_iff in H. destruct (strip line); simpl in H; [|done].
    by vm_compute.
  - apply andb_true_iff in H as [H1 H2]. apply negb_true_iff in H2.
    rewrite H1, H2. simpl. by rewrite andb_false_r.
Qed.

(** X7. A blank line, or a comment line that is not a metadata line, put
    anywhere between two lines of a playlist changes nothing in the
    entries parsed: such a line between a metadata line and its URL does not
    separate them. *)
Theorem skipped_lines_change_nothing (before after line : text) :
  one_line line = true -> skipped_line line = true ->
  parse_m3u_channels (before ++ NL :: line ++ NL :: after)
  = parse_m3u_channels (before ++ NL :: after).
Proof.
  intros Ho Hs. unfold parse_m3u_channels, splitlines.
  rewrite (splitlines_from_app before [] (line ++ NL :: after)).
  rewrite (splitlines_from_app before [] after). unfold splitlines.
  rewrite (splitlines_from_line line [] after) by done.
  simpl rev. simpl app at 2.
  rewrite !parse_m3u_lines_app. cbn [fold_left].
  by rewrite skipped_line_step.
Qed.

(** The entries added while a list of lines is read: their URLs are
    trimmed lines of the list, in order, each line used once; there are no
    more of them than metadata lines, counting a name that was pending. *)
Lemma parse_m3u_lines_from (lines : list text) (st : m3u_state) :
  exists new,
    channels_so_far (fold_left parse_m3u_line lines st)
    = channels_so_far st ++ new
    /\ sublist (map snd new) (map strip lines)
    /\ (length new + (if truthy (current_name
                                  (fold_left parse_m3u_line lines st))
                      then 1 else 0)
        <= length (List.filter is_metadata lines)
           + (if truthy (current_name st) then 1 else 0))%nat.
Proof.
  revert st. induction lines as [|line lines IH]; intros st.
  - exists []. simpl. rewrite app_nil_r. repeat split; [constructor|lia].
  - cbn [fold_left]. destruct (IH (parse_m3u_line st line))
      as (new & E & Hsub & Hlen). rewrite E. clear E IH.
    revert Hlen. generalize (truthy (current_name
      (fold_left parse_m3u_line lines (parse_m3u_line st line)))).
    intros pending Hlen. cbn [List.filter map].
    unfold parse_m3u_line, is_metadata in *.
    destruct (startswith (strip line) (py "#EXTINF")).
    + exists new. split; [by destruct (contains_char 44 (strip line))|].
      split; [by apply sublist_cons|].
      destruct (contains_char 44 (strip line)); simpl in *;
        repeat case_match; simpl in *; lia.
    + destruct (nonempty (strip line) && negb (startswith (strip line) (py "#"))
                && truthy (current_name st)) eqn:C.
      * apply andb_true_iff in C as [_ C].
        destruct (current_name st) as [name|] eqn:N; [|done].
        exists ((name, strip line) :: new). cbn [channels_so_far] in *.
        split; [by rewrite <- app_assoc|]. split; [by apply sublist_skip|].
        simpl in *. rewrite C. lia.
      * exists new. split; [done|]. split; [by apply sublist_cons|]. lia.
Qed.

(** X8. The URLs of the entries parsed are trimmed lines of the playlist,
    in the order of the playlist and each line used at most once; and
    there are no more entries than metadata lines: a name serves one URL. *)
Theorem entries_are_drawn_from_the_lines (m3u_text : text) :
  sublist (map snd (parse_m3u_channels m3u_text))
    (map strip (splitlines m3u_text))
  /\ (length (parse_m3u_channels m3u_text)
      <= length (List.filter is_metadata (splitlines m3u_text)))%nat.
Proof.
  unfold parse_m3u_channels, parse_m3u_lines.
  destruct (parse_m3u_lines_from (splitlines m3u_text)
              {| channels_so_far := []; current_name := None |})
    as (new & E & Hsub & Hlen).
  rewrite E. simpl in *. split; [done|]. case_match; lia.
Qed.

(** ** The matcher: what a match consumes *)

Lemma startswith_split (s l : text) :
  startswith s l = true -> s = l ++ drop (length l) s.
Proof.
  revert s. induction l as [|x l IH]; intros s H.
  - by destruct s.
  - destruct s as [|y s]; [done|]. simpl in H.
    apply andb_true_iff in H as [->%Z.eqb_eq H]. simpl. f_equal. by apply IH.
Qed.

Lemma match_here_nil (pos : nat) (s : text) (marks : list nat) :
  match_here [] pos s marks = Some (marks, pos).
Proof. reflexivity. Qed.

Lemma match_here_mark (pat : pattern) (pos : nat) (s : text)
  (marks : list nat) :
  match_here (Mark :: pat) pos s marks = match_here pat pos s (marks ++ [pos]).
Proof. reflexivity. Qed.

Lemma match_here_lit (l : text) (pat : pattern) (pos : nat) (s : text)
  (marks : list nat) (r : match_result) :
  match_here (Lit l :: pat) pos s marks = Some r ->
  exists s', s = l ++ s'
             /\ match_here pat (pos + length l) s' marks = Some r.
Proof.
  cbn [match_here]. destruct (startswith s l) eqn:E; [|done].
  intros H. exists (drop (length l) s). split; [by apply startswith_split|done].
Qed.

Lemma match_here_lit_app (l : text) (pat : pattern) (pos : nat) (s : text)
  (marks : list nat) :
  match_here (Lit l :: pat) pos (l ++ s) marks
  = match_here pat (pos + length l) s marks.
Proof.
  cbn [match_here]. by rewrite startswith_app, drop_app_length.
Qed.

Lemma match_here_bol (pat : pattern) (pos : nat) (s : text)
  (marks : list nat) (r : match_result) :
  match_here (Bol :: pat) pos s marks = Some r ->
  pos = O /\ match_here pat O s marks = Some r.
Proof. cbn [match_here]. by destruct pos. Qed.

Lemma match_here_lazy_eq (p : Z -> bool) (pat : pattern) (pos : nat)
  (s : text) (marks : list nat) :
  match_here (Lazy p :: pat) pos s marks
  = match match_here pat pos s marks with
    | Some r => Some r
    | None =>
        match s with
        | c :: s' =>
            if p c then match_here (Lazy p :: pat) (S pos) s' marks else None
        | [] => None
        end
    end.
Proof. by destruct s. Qed.

(** A lazy repetition consumes the shortest run after which the rest of the
    pattern matches. *)
Lemma match_here_lazy (p : Z -> bool) (pat : pattern) (pos : nat) (s : text)
  (marks : list nat) (r : match_result) :
  match_here (Lazy p :: pat) pos s marks = Some r ->
  exists w s',
    s = w ++ s'
    /\ match_here pat (pos + length w) s' marks = Some r
    /\ forall k, (k < length w)%nat ->
                 match_here pat (pos + k) (drop k s) marks = None.
Proof.
  cbn [match_here]. revert pos. induction s as [|c s IH]; intros pos.
  - destruct (match_here pat pos [] marks) eqn:E; [|done].
    intros [= <-]. exists [], []. rewrite Nat.add_0_r.
    repeat split; [done|]. simpl. lia.
  - destruct (match_here pat pos (c :: s) marks) eqn:E.
    + intros [= <-]. exists [], (c :: s). rewrite Nat.add_0_r.
      repeat split; [done|]. simpl. lia.
    + destruct (p c); [|done]. intros H.
      destruct (IH _ H) as (w & s' & -> & Hm & Hfirst).
      exists (c :: w), s'. split; [done|]. split.
      * by replace (pos + length (c :: w))%nat with (S pos + length w)%nat
          by (simpl; lia).
      * intros [|k] Hk.
        -- by rewrite Nat.add_0_r, drop_0.
        -- replace (pos + S k)%nat with (S pos + k)%nat by lia.
           apply Hfirst. simpl in Hk. lia.
Qed.

(** A lazy run of any characters finds a literal that occurs further on. *)
Lemma match_here_lazy_finds (l s : text) (pos : nat) (marks : list nat) :
  cut_from s l ->
  match_here [Lazy any_char; Mark; Lit l] pos s marks <> None.
Proof.
  intros (w & rest & ->). revert pos.
  induction w as [|c w IH]; intros pos; rewrite match_here_lazy_eq.
  - simpl app. by rewrite match_here_mark, match_here_lit_app, match_here_nil.
  - destruct (match_here [Mark; Lit l] pos ((c :: w) ++ l ++ rest) marks);
      [done|].
    simpl app. cbn [any_char]. apply IH.
Qed.

(** A greedy repetition consumes characters of its class. *)
Lemma match_here_greedy (p : Z -> bool) (pat : pattern) (pos : nat) (s : text)
  (marks : list nat) (r : match_result) :
  match_here (Greedy p :: pat) pos s marks = Some r ->
  exists w s', s = w ++ s'
               /\ forallb p w = true
               /\ match_here pat (pos + length w) s' marks = Some r.
Proof.
  cbn [match_here]. revert pos. induction s as [|c s IH]; intros pos.
  - intros H. exists [], []. by rewrite Nat.add_0_r.
  - assert (G : match_here pat pos (c :: s) marks = Some r ->
                exists w s', c :: s = w ++ s'
                  /\ forallb p w = true
                  /\ match_here pat (pos + length w) s' marks = Some r).
    { intros H. exists [], (c :: s). by rewrite Nat.add_0_r. }
    destruct (p c) eqn:Ec; [|done].
    match goal with
    | |- match ?g with _ => _ end = _ -> _ => destruct g as [r'|] eqn:E
    end; [|done].
    intros [= <-]. destruct (IH _ E) as (w & s' & -> & Hw & Hm).
    exists (c :: w), s'. split; [done|]. split; [by simpl; rewrite Ec|].
    by replace (pos + length (c :: w))%nat with (S pos + length w)%nat
      by (simpl; lia).
Qed.

(** A run after no proper prefix of which a literal begins does not hold
    the literal. *)
Lemma not_cut_from (w l s' : text) :
  l <> [] ->
  (forall k, (k < length w)%nat -> startswith (drop k (w ++ s')) l = false) ->
  ~ cut_from w l.
Proof.
  intros Hl H (a & b & ->). specialize (H (length a)).
  rewrite <- !app_assoc, drop_app_length, startswith_app in H.
  assert (X : (length a < length (a ++ l ++ b))%nat).
  { rewrite !length_app. destruct l; [done|]. simpl. lia. }
  by specialize (H X).
Qed.

(** A match of [CHANNEL_RE]: the text at the position is a channel element,
    the marks delimit its identifier and its content, the identifier ends
    before the first quote followed by [>], the content before the first
    closing tag. *)
Lemma match_here_channel (pos : nat) (s : text) (marks : list nat) (e : nat) :
  match_here CHANNEL_RE pos s [] = Some (marks, e) ->
  exists cid inner rest,
    s = channel_element (cid, inner) ++ rest
    /\ marks = [(pos + 13)%nat; (pos + 13 + length cid)%nat;
                (pos + 13 + length cid + 2)%nat;
                (pos + 13 + length cid + 2 + length inner)%nat]
    /\ ~ cut_from cid (QUOTE :: py ">")
    /\ ~ cut_from inner (py "</channel>").
Proof.
  unfold CHANNEL_RE. intros H.
  apply match_here_lit in H as (s1 & -> & H). rewrite match_here_mark in H.
  apply match_here_lazy in H as (cid & s2 & -> & H & Hcid).
  rewrite match_here_mark in H.
  apply match_here_lit in H as (s3 & -> & H). rewrite match_here_mark in H.
  apply match_here_lazy in H as (inner & s4 & -> & H & Hinner).
  rewrite match_here_mark in H.
  apply match_here_lit in H as (rest & -> & H). rewrite match_here_nil in H.
  injection H as <- <-. exists cid, inner, rest.
  split; [|split; [done|split]].
  - unfold channel_element. cbn [fst snd]. by rewrite <- !app_assoc.
  - intros (a & b & ->).
    assert (X : (length a < length (a ++ (QUOTE :: py ">") ++ b))%nat).
    { rewrite !length_app. simpl. lia. }
    specialize (Hcid (length a) X). rewrite <- !app_assoc in Hcid.
    rewrite drop_app_length in Hcid.
    rewrite match_here_mark, match_here_lit_app, match_here_mark in Hcid.
    revert Hcid. apply match_here_lazy_finds.
    exists (b ++ (QUOTE :: py ">") ++ inner), rest. by rewrite <- !app_assoc.
  - apply (not_cut_from inner (py "</channel>") (py "</channel>" ++ rest));
      [done|].
    intros k Hk. specialize (Hinner k Hk).
    rewrite match_here_mark in Hinner. cbn [match_here] in Hinner.
    by destruct (startswith _ _).
Qed.

Lemma match_here_programme (pos : nat) (s : text) (marks : list nat) (e : nat) :
  match_here PROGRAMME_RE pos s [] = Some (marks, e) ->
  exists block rest,
    s = programme_element block ++ rest
    /\ marks = [(pos + 10)%nat; (pos + 10 + length block)%nat]
    /\ ~ cut_from block (py "</programme>").
Proof.
  unfold PROGRAMME_RE. intros H.
  apply match_here_lit in H as (s1 & -> & H). rewrite match_here_mark in H.
  apply match_here_lazy in H as (block & s2 & -> & H & Hblock).
  rewrite match_here_mark in H.
  apply match_here_lit in H as (rest & -> & H). rewrite match_here_nil in H.
  injection H as <- <-. exists block, rest. split; [|split; [done|]].
  - unfold programme_element. by rewrite <- !app_assoc.
  - apply (not_cut_from block (py "</programme>") (py "</programme>" ++ rest));
      [done|].
    intros k Hk. specialize (Hblock k Hk).
    rewrite match_here_mark in Hblock. cbn [match_here] in Hblock.
    by destruct (startswith _ _).
Qed.

Lemma match_here_header (pos : nat) (s : text) (marks : list nat) (e : nat) :
  match_here HEADER_RE pos s [] = Some (marks, e) ->
  exists before attrs rest,
    pos = O
    /\ s = (before ++ py "<tv" ++ attrs ++ py ">") ++ rest
    /\ marks = [O; length (before ++ py "<tv" ++ attrs ++ py ">")]
    /\ ~ In 62 attrs.
Proof.
  unfold HEADER_RE. intros H.
  apply match_here_bol in H as [-> H]. rewrite match_here_mark in H.
  apply match_here_lazy in H as (before & s1 & -> & H & _).
  apply match_here_lit in H as (s2 & -> & H).
  apply match_here_greedy in H as (attrs & s3 & -> & Hattrs & H).
  apply match_here_lit in H as (rest & -> & H). rewrite match_here_mark in H.
  rewrite match_here_nil in H. injection H as <- <-.
  exists before, attrs, rest. split; [done|]. split; [|split].
  - by rewrite <- !app_assoc.
  - rewrite !length_app. do 2 f_equal. simpl. lia.
  - intros Hin. rewrite forallb_forall in Hattrs. by specialize (Hattrs _ Hin).
Qed.

(** ** Groups are cut from the subject *)

Lemma drop_cons_next (subject s : text) (pos : nat) (c : Z) :
  drop pos subject = c :: s -> drop (S pos) subject = s.
Proof.
  intros H. replace (S pos) with (pos + 1)%nat by lia.
  by rewrite <- drop_drop, H.
Qed.

Lemma slice_at (subject : text) (pos : nat) (a w b : text) :
  drop pos subject = a ++ w ++ b ->
  slice subject (pos + length a) (pos + length a + length w) = w.
Proof.
  intros H. unfold slice.
  replace (pos + length a + length w - (pos + length a))%nat
    with (length w) by lia.
  rewrite <- drop_drop, H, drop_app_length. by rewrite take_app_length.
Qed.

Lemma findall_from_matches (pat : pattern) (subject s : text) (skip pos : nat)
  (gs : list text) :
  drop pos subject = s ->
  In gs (findall_from pat subject skip pos s) ->
  exists pos' marks e,
    match_here pat pos' (drop pos' subject) [] = Some (marks, e)
    /\ gs = groups_of subject marks.
Proof.
  revert skip pos. induction s as [|c s IH]; intros skip pos Hs;
    destruct skip as [|k]; cbn [findall_from]; try done.
  - destruct (match_here pat pos [] []) as [[marks e]|] eqn:E; [|done].
    intros [<-|[]]. exists pos, marks, e. by rewrite Hs.
  - pose proof (drop_cons_next _ _ _ _ Hs) as Hs'.
    destruct (match_here pat pos (c :: s) []) as [[marks e]|] eqn:E.
    + intros [<-|H]; [|by eapply IH]. exists pos, marks, e. by rewrite Hs.
    + by apply IH.
  - apply IH. by eapply drop_cons_next.
Qed.

Lemma search_from_match (pat : pattern) (subject s : text) (pos : nat)
  (r : match_result) :
  drop pos subject = s ->
  search_from pat pos s = Some r ->
  exists pos', match_here pat pos' (drop pos' subject) [] = Some r.
Proof.
  revert pos. induction s as [|c s IH]; intros pos Hs; cbn [search_from].
  - destruct (match_here pat pos [] []) eqn:E; [|done].
    intros [= <-]. exists pos. by rewrite Hs.
  - destruct (match_here pat pos (c :: s) []) eqn:E.
    + intros [= <-]. exists pos. by rewrite Hs.
    + apply IH. by eapply drop_cons_next.
Qed.

Lemma cut_from_drop (s part rest : text) (pos : nat) :
  drop pos s = part ++ rest -> cut_from s part.
Proof.
  intros H. exists (take pos s), rest. by rewrite <- H, take_drop.
Qed.

(** A channel block of the guide: its element stands in the guide, and its
    two groups end at the first text that closes them. *)
Lemma channel_blocks_at (epg_xml : text) (c : text * text) :
  In c (channel_blocks epg_xml) ->
  cut_from epg_xml (channel_element c)
  /\ ~ cut_from (fst c) (QUOTE :: py ">")
  /\ ~ cut_from (snd c) (py "</channel>").
Proof.
  unfold channel_blocks, re_findall. intros (gs & <- & H)%in_map_iff.
  apply findall_from_matches in H as (pos & marks & e & Hm & ->); [|done].
  pose proof (match_here_channel _ _ _ _ Hm)
    as (cid & inner & rest & Hs & -> & Hcid & Hinner).
  cbn [groups_of pair_of].
  unfold channel_element in Hs. cbn [fst snd] in Hs.
  assert (H1 : slice epg_xml (pos + 13) (pos + 13 + length cid) = cid).
  { apply (slice_at epg_xml pos (py "<channel id=" ++ [QUOTE]) cid
             ([QUOTE] ++ py ">" ++ inner ++ py "</channel>" ++ rest)).
    rewrite Hs. by rewrite <- !app_assoc. }
  assert (H2 : slice epg_xml (pos + 13 + length cid + 2)
                 (pos + 13 + length cid + 2 + length inner) = inner).
  { replace (pos + 13 + length cid + 2)%nat
      with (pos + length (py "<channel id=" ++ [QUOTE] ++ cid ++ [QUOTE]
                            ++ py ">"))%nat
      by (rewrite !length_app; simpl; lia).
    apply (slice_at epg_xml pos _ inner (py "</channel>" ++ rest)).
    rewrite Hs. by rewrite <- !app_assoc. }
  rewrite H1, H2. split; [|done]. eapply cut_from_drop. exact Hs.
Qed.

Lemma programme_blocks_at (epg_xml block : text) :
  In block (programme_blocks epg_xml) ->
  cut_from epg_xml (programme_element block)
  /\ ~ cut_from block (py "</programme>").
Proof.
  unfold programme_blocks, re_findall. intros (gs & <- & H)%in_map_iff.
  apply findall_from_matches in H as (pos & marks & e & Hm & ->); [|done].
  pose proof (match_here_programme _ _ _ _ Hm)
    as (block & rest & Hs & -> & Hblock).
  cbn [groups_of first_of]. unfold programme_element in Hs.
  assert (H1 : slice epg_xml (pos + 10) (pos + 10 + length block) = block).
  { apply (slice_at epg_xml pos (py "<programme") block
             (py "</programme>" ++ rest)).
    rewrite Hs. by rewrite <- !app_assoc. }
  rewrite H1. split; [|done]. eapply cut_from_drop. exact Hs.
Qed.

(** The header of the projected guide, when the guide has one: the start of
    the guide up to the first [>] after a [<tv]. *)
Lemma epg_header_cut (epg_xml : text) (gs : list text) :
  re_search HEADER_RE epg_xml = Some gs ->
  exists before attrs rest,
    epg_header epg_xml = before ++ py "<tv" ++ attrs ++ py ">"
    /\ ~ In 62 attrs
    /\ epg_xml = epg_header epg_xml ++ rest.
Proof.
  unfold epg_header, re_search.
  destruct (search_from HEADER_RE 0 epg_xml) as [[marks e]|] eqn:E; [|done].
  intros _.
  apply (search_from_match _ epg_xml) in E as (pos & Hm); [|done].
  apply match_here_header in Hm
    as (before & attrs & rest & -> & Hs & -> & Hattrs).
  rewrite drop_0 in Hs. exists before, attrs, rest.
  cbn [groups_of first_of]. unfold slice. rewrite drop_0, Nat.sub_0_r.
  rewrite Hs at 1 3. rewrite take_app_length. done.
Qed.

(** X9. The projected guide is cut from the guide: between its header and
    its closing tag, every part [build_filtered_epg] emits occurs verbatim
    in the guide; and the header, when the guide has one, is the start of
    the guide up to the first [>] that follows a [<tv]. *)
Theorem projected_guide_is_cut_from_the_guide {used_set : PySet}
  (epg_xml : text) (used_ids : pyset) :
  exists elements,
    filtered_epg_parts epg_xml used_ids
    = [epg_header epg_xml] ++ elements ++ [py "</tv>"]
    /\ Forall (cut_from epg_xml) elements
    /\ (is_Some (re_search HEADER_RE epg_xml) ->
        exists before attrs rest,
          epg_header epg_xml = before ++ py "<tv" ++ attrs ++ py ">"
          /\ ~ In 62 attrs
          /\ epg_xml = epg_header epg_xml ++ rest).
Proof.
  exists (map channel_element (projected_channels epg_xml used_ids)
          ++ map programme_element (projected_programmes epg_xml used_ids)).
  split; [|split].
  - rewrite filtered_epg_parts_spec. by rewrite <- !app_assoc.
  - apply Forall_app. split; apply Forall_map, List.Forall_forall.
    + intros c [Hc _]%filter_In. by apply channel_blocks_at.
    + intros b [Hb _]%filter_In. by apply programme_blocks_at.
  - intros [gs H]. by eapply epg_header_cut.
Qed.

(** X10. The lazy groups end at the first text that closes them: the
    identifier of a channel block holds no quote followed by [>], its
    content holds no [</channel>], and a programme block holds no
    [</programme>]. *)
Theorem blocks_end_at_the_first_closing_tag (epg_xml : text) :
  (forall cid inner, In (cid, inner) (channel_blocks epg_xml) ->
     ~ cut_from cid (QUOTE :: py ">")
     /\ ~ cut_from inner (py "</channel>"))
  /\ (forall block, In block (programme_blocks epg_xml) ->
        ~ cut_from block (py "</programme>")).
Proof.
  split.
  - intros cid inner H. by destruct (channel_blocks_at _ _ H) as (_ & ? & ?).
  - intros block H. by destruct (programme_blocks_at _ _ H).
Qed.

(** ** The guide mapping *)

Lemma dict_set_nodup {V} (d : dict V) (k : text) (v : V) :
  NoDup (map fst d) -> NoDup (map fst (dict_set d k v)).
Proof.
  induction d as [|[k0 v0] d IH]; simpl; intros H.
  - by repeat constructor; try apply not_elem_of_nil.
  - destruct (decide (k = k0)) as [->|Hne]; simpl; [done|].
    apply NoDup_cons in H as [Hn H]. apply NoDup_cons. split; [|by apply IH].
    intros Hin.
    apply list_elem_of_In, dict_set_keys in Hin as [->|Hin]; [done|].
    by apply Hn, list_elem_of_In.
Qed.

Lemma dict_set_values {V} (P : V -> Prop) (d : dict V) (k : text) (v : V) :
  P v -> Forall (fun e => P (snd e)) d ->
  Forall (fun e => P (snd e)) (dict_set d k v).
Proof.
  intros Hv. induction 1 as [|[k0 v0] d H0 Hd IH]; simpl.
  - by repeat constructor.
  - destruct (decide (k = k0)); constructor; auto.
Qed.

Lemma dict_get_in {V} (d : dict V) (k : text) (v : V) :
  NoDup (map fst d) -> In (k, v) d <-> dict_get d k = Some v.
Proof.
  induction d as [|[k0 v0] d IH]; simpl; intros H; [split; done|].
  apply NoDup_cons in H as [Hn H]. destruct (decide (k = k0)) as [->|Hne].
  - split.
    + intros [[= <-]|Hin]; [done|]. exfalso. apply Hn, list_elem_of_In.
      apply in_map_iff. by exists (k0, v).
    + intros [= <-]. by left.
  - rewrite <- (IH H). split; [|tauto]. intros [[= <- <-]|Hin]; done.
Qed.

Lemma parse_epg_channels_fold (epg_xml : text) :
  parse_epg_channels epg_xml = fold_left epg_step (channel_blocks epg_xml) [].
Proof.
  unfold parse_epg_channels. generalize (@nil (text * list text)).
  induction (channel_blocks epg_xml) as [|[cid inner] l IH]; intros d; [done|].
  simpl. rewrite IH. done.
Qed.

Lemma epg_step_get (d : dict (list text)) (block : text * text) (cid : text) :
  dict_get (epg_step d block) cid
  = if decide (cid = fst block)
    then match clean_names_of (snd block) with
         | [] => dict_get d cid
         | names => Some names
         end
    else dict_get d cid.
Proof.
  unfold epg_step. destruct (clean_names_of (snd block)) eqn:E.
  - by destruct (decide _).
  - by rewrite dict_get_set.
Qed.

(** The entry of an identifier after the loop: the names of the last block
    of that identifier that has names. *)
Lemma epg_fold_get (blocks : list (text * text)) (d : dict (list text))
  (cid : text) (names : list text) :
  dict_get (fold_left epg_step blocks d) cid = Some names
  <-> (exists pre inner post,
         blocks = pre ++ (cid, inner) :: post
         /\ clean_names_of inner = names /\ names <> []
         /\ Forall (fun b => fst b = cid -> clean_names_of (snd b) = []) post)
      \/ (dict_get d cid = Some names
          /\ Forall (fun b => fst b = cid -> clean_names_of (snd b) = [])
               blocks).
Proof.
  revert d. induction blocks as [|[c inner] l IH]; intros d.
  - simpl. split.
    + intros H. right. by split.
    + intros [(pre & i & post & E & _)|[H _]]; [|done]. by destruct pre.
  - cbn [fold_left]. rewrite IH. clear IH. rewrite epg_step_get. cbn [fst snd].
    split.
    + intros [(pre & i & post & -> & H)|[Hg Hl]].
      * left. by exists ((c, inner) :: pre), i, post.
      * destruct (decide (cid = c)) as [->|Hne].
        -- destruct (clean_names_of inner) as [|n ns] eqn:E.
           ++ right. split; [done|]. by constructor.
           ++ left. exists [], inner, l. injection Hg as <-.
              by rewrite E.
        -- right. split; [done|]. constructor; [|done]. simpl. congruence.
    + intros [(pre & i & post & E & Hn & Hne & Hpost)|[Hg Hl]].
      * destruct pre as [|b pre].
        -- injection E as -> -> ->. right. rewrite decide_True by done.
           split; [|done]. rewrite Hn. by destruct names.
        -- injection E as <- ->. left. by exists pre, i, post.
      * right. apply Forall_cons in Hl as [Hc Hl]. split; [|done].
        destruct (decide (cid = c)) as [->|Hne]; [|done].
        simpl in Hc. by rewrite Hc.
Qed.

Lemma epg_fold_invariant (blocks : list (text * text)) (d : dict (list text)) :
  NoDup (map fst d) -> Forall (fun e => snd e <> []) d ->
  NoDup (map fst (fold_left epg_step blocks d))
  /\ Forall (fun e => snd e <> []) (fold_left epg_step blocks d).
Proof.
  revert d. induction blocks as [|b l IH]; intros d Hn Hv; [done|].
  cbn [fold_left]. apply IH; unfold epg_step.
  - destruct (clean_names_of (snd b)); [done|]. by apply dict_set_nodup.
  - destruct (clean_names_of (snd b)) eqn:E; [done|].
    by apply (dict_set_values (fun v => v <> [])).
Qed.

(** X11. The guide mapping has one entry for each identifier, and the entry
    of an identifier holds the names of the last channel block of that
    identifier that has a display name: blocks without a display name
    neither create an entry nor replace one. *)
Theorem guide_mapping_keeps_the_last_names (epg_xml cid : text)
  (names : list text) :
  NoDup (map fst (parse_epg_channels epg_xml))
  /\ (In (cid, names) (parse_epg_channels epg_xml)
      <-> exists pre inner post,
            channel_blocks epg_xml = pre ++ (cid, inner) :: post
            /\ clean_names_of inner = names /\ names <> []
            /\ Forall (fun b => fst b = cid -> clean_names_of (snd b) = [])
                 post).
Proof.
  rewrite parse_epg_channels_fold.
  destruct (epg_fold_invariant (channel_blocks epg_xml) [])
    as [Hn Hv]; [constructor|constructor|].
  split; [done|]. rewrite dict_get_in by done. rewrite epg_fold_get.
  split; [|by left]. intros [H|[H _]]; done.
Qed.

(** ** White space in the aliases *)

Lemma lstrip_length (s : text) : (length (lstrip s) <= length s)%nat.
Proof.
  induction s as [|c s IH]; simpl; [done|]. destruct (is_space c); simpl; lia.
Qed.

Lemma lstrip_drop (s : text) :
  drop (length s - length (lstrip s)) s = lstrip s.
Proof.
  induction s as [|c s IH]; simpl lstrip; [done|].
  pose proof (lstrip_length s). destruct (is_space c).
  - replace (length (c :: s) - length (lstrip s))%nat
      with (S (length s - length (lstrip s))) by (simpl; lia).
    exact IH.
  - by rewrite Nat.sub_diag.
Qed.

Lemma match_here_one (p : Z -> bool) (pat : pattern) (pos : nat) (c : Z)
  (s : text) (marks : list nat) :
  match_here (One p :: pat) pos (c :: s) marks
  = if p c then match_here pat (S pos) s marks else None.
Proof. reflexivity. Qed.

Lemma match_here_space_run (pos : nat) (s : text) (marks : list nat) :
  match_here [Greedy is_space] pos s marks
  = Some (marks, (pos + (length s - length (lstrip s)))%nat).
Proof.
  cbn [match_here]. revert pos. induction s as [|c s IH]; intros pos.
  - simpl. by rewrite Nat.add_0_r.
  - pose proof (lstrip_length s). simpl lstrip. destruct (is_space c).
    + rewrite IH. do 2 f_equal. simpl. lia.
    + rewrite Nat.sub_diag. by rewrite Nat.add_0_r.
Qed.

Lemma match_here_spaces (pos : nat) (c : Z) (s : text) :
  match_here SPACES_RE pos (c :: s) []
  = if is_space c
    then Some ([], (S pos + (length s - length (lstrip s)))%nat)
    else None.
Proof.
  unfold SPACES_RE. rewrite match_here_one.
  by rewrite match_here_space_run.
Qed.

Lemma sub_from_skip (pat : pattern) (repl s : text) (k pos : nat) :
  sub_from pat repl k pos s = sub_from pat repl 0 (pos + k) (drop k s).
Proof.
  revert pos s. induction k as [|k IH]; intros pos s.
  - by rewrite Nat.add_0_r, drop_0.
  - destruct s as [|c s]; [done|]. cbn [sub_from drop]. rewrite IH.
    by replace (S pos + k)%nat with (pos + S k)%nat by lia.
Qed.

Lemma sub_from_spaces (pos : nat) (c : Z) (s : text) :
  sub_from SPACES_RE (py " ") 0 pos (c :: s)
  = if is_space c
    then 32 :: sub_from SPACES_RE (py " ") 0
                 (S pos + (length s - length (lstrip s))) (lstrip s)
    else c :: sub_from SPACES_RE (py " ") 0 (S pos) s.
Proof.
  cbn [sub_from]. rewrite match_here_spaces. destruct (is_space c); [|done].
  replace (S pos + (length s - length (lstrip s)) - pos - 1)%nat
    with (length s - length (lstrip s))%nat by lia.
  by rewrite sub_from_skip, lstrip_drop.
Qed.

Lemma sub_from_spaces_single (s : text) (pos : nat) :
  single_spaced (sub_from SPACES_RE (py " ") 0 pos s) = true.
Proof.
  remember (length s) as n eqn:Hn. revert s pos Hn.
  induction n as [n IH] using lt_wf_ind. intros s pos Hn.
  destruct s as [|c s]; [done|]. rewrite sub_from_spaces.
  pose proof (lstrip_length s). destruct (is_space c) eqn:E.
  - assert (Ht : single_spaced
                    (sub_from SPACES_RE (py " ") 0
                       (S pos + (length s - length (lstrip s))) (lstrip s))
                  = true).
    { eapply IH; [|reflexivity]. simpl in Hn. lia. }
    cbn [single_spaced]. rewrite Ht, andb_true_r.
    change (is_space 32) with true. cbn [negb orb andb].
    change (32 =? 32) with true. cbn [andb].
    destruct (lstrip s) as [|d t] eqn:El; [done|].
    pose proof (lstrip_head _ _ _ El) as Hd.
    rewrite sub_from_spaces, Hd. cbv beta iota. by rewrite Hd.
  - cbn [single_spaced]. rewrite E. cbn [negb orb andb].
    eapply IH; [|reflexivity]. simpl in Hn. lia.
Qed.

Lemma single_spaced_app (l r : text) :
  single_spaced (l ++ r) = true ->
  single_spaced l = true /\ single_spaced r = true.
Proof.
  induction l as [|c l IH]; [done|]. simpl app. cbn [single_spaced].
  intros [H1 H2]%andb_true_iff. destruct (IH H2) as [Hl Hr].
  split; [|done]. rewrite Hl, andb_true_r.
  destruct l as [|c' l]; [|done].
  apply orb_true_iff in H1 as [->|[-> _]%andb_true_iff]; [done|].
  by rewrite orb_true_r.
Qed.

Lemma lstrip_suffix (s : text) : exists a, s = a ++ lstrip s.
Proof.
  induction s as [|c s [a IH]]; [by exists []|]. simpl.
  destruct (is_space c); [|by exists []].
  exists (c :: a). simpl. by f_equal.
Qed.

Lemma strip_single_spaced (s : text) :
  single_spaced s = true -> single_spaced (strip s) = true.
Proof.
  intros H. unfold strip, rstrip.
  destruct (lstrip_suffix s) as [a Ea].
  destruct (lstrip_suffix (rev (lstrip s))) as [b Eb].
  rewrite Ea in H. apply single_spaced_app in H as [_ H].
  apply (f_equal (@rev Z)) in Eb. rewrite rev_involutive, rev_app_distr in Eb.
  rewrite Eb in H. by apply single_spaced_app in H as [H _].
Qed.

Lemma clean_names_of_ok (inner : text) :
  forallb alias_ok (clean_names_of inner) = true.
Proof.
  unfold clean_names_of. apply forallb_forall.
  intros n (g & <- & _)%in_map_iff. unfold alias_ok.
  rewrite trimmed_strip. apply strip_single_spaced, sub_from_spaces_single.
Qed.

(** X12. The aliases of the guide mapping are normalised: the list of an
    identifier is never empty, and each alias is trimmed and holds no
    white space other than single spaces (U+0020) between other
    characters. *)
Theorem aliases_are_normalised (epg_xml cid : text) (names : list text) :
  In (cid, names) (parse_epg_channels epg_xml) ->
  names <> [] /\ forallb alias_ok names = true.
Proof.
  rewrite parse_epg_channels_fold.
  destruct (epg_fold_invariant (channel_blocks epg_xml) [])
    as [Hn Hv]; [constructor|constructor|].
  rewrite dict_get_in by done. rewrite epg_fold_get.
  intros [(pre & inner & post & _ & <- & Hne & _)|[H _]]; [|done].
  split; [done|]. apply clean_names_of_ok.
Qed.

(** ** The name matcher: which of the best pairs is kept *)

Lemma flt_fle_trans (x y z : float) :
  flt x y = true -> fle y z = true -> flt x z = true.
Proof.
  unfold flt, fle, SFltb, SFleb, SFcompare.
  float_cases; intros H1 H2; try discriminate; try reflexivity;
    compare_cases; simpl in *; try discriminate; try reflexivity; lia.
Qed.

Lemma flt_fle (x y : float) : flt x y = true -> fle x y = true.
Proof.
  unfold flt, fle, SFltb, SFleb, SFcompare.
  float_cases; intros H; try discriminate; try reflexivity;
    compare_cases; simpl in *; try discriminate; try reflexivity; lia.
Qed.

Lemma not_fle_of_flt (x y z : float) :
  flt x y = true -> flt x z = false -> fle y z = false.
Proof.
  intros H1 H2. destruct (fle y z) eqn:E; [|done].
  by rewrite (flt_fle_trans _ _ _ H1 E) in H2.
Qed.

Section FirstBest.

Variable lower : text -> text.

Lemma pair_step_first_best (name : text) (seen : list (text * text))
  (st : option text * float) (p : text * text) :
  first_best lower name seen st ->
  first_best lower name (seen ++ [p]) (pair_step lower name st p).
Proof.
  unfold pair_step, best_step.
  destruct (flt (snd st) (similarity lower name (snd p))) eqn:E.
  - intros H. right. exists seen, p, []. repeat split; [|by intros ? []].
    intros q Hq. destruct H as [(_ & Hz & Hall)|(pre & b & post & -> & _ & Hs
                                                 & Hpre & Hpost)].
    + rewrite Hz in E. by apply (not_fle_of_flt ZERO), Hall.
    + rewrite Hs in E. apply in_app_iff in Hq as [Hq|[<-|Hq]].
      * apply (not_fle_of_flt (similarity lower name (snd b))); [done|].
        destruct (flt (similarity lower name (snd b))
                    (similarity lower name (snd q))) eqn:E'; [|done].
        pose proof (flt_fle _ _ E') as F. by rewrite (Hpre q Hq) in F.
      * by apply flt_not_fle.
      * apply (not_fle_of_flt (similarity lower name (snd b))); [done|].
        by apply Hpost.
  - intros [(Hn & Hz & Hall)|(pre & b & post & -> & Hi & Hs & Hpre & Hpost)].
    + left. repeat split; [done|done|].
      intros q [Hq|[<-|[]]]%in_app_iff; [by apply Hall|by rewrite <- Hz].
    + right. exists pre, b, (post ++ [p]). repeat split; try done.
      * by rewrite <- app_assoc.
      * intros q [Hq|[<-|[]]]%in_app_iff; [by apply Hpost|by rewrite <- Hs].
Qed.

Lemma best_candidate_first_best (name : text)
  (epg_channels : dict (list text)) :
  first_best lower name (alias_pairs epg_channels)
    (best_candidate lower name epg_channels).
Proof.
  rewrite best_candidate_pairs.
  enough (G : forall todo seen st,
             first_best lower name seen st ->
             first_best lower name (seen ++ todo)
               (fold_left (pair_step lower name) todo st)).
  { apply (G _ []). left. repeat split. by intros ? []. }
  induction todo as [|p l IH]; intros seen st H; simpl.
  - by rewrite app_nil_r.
  - replace (seen ++ p :: l) with ((seen ++ [p]) ++ l)
      by (by rewrite <- app_assoc).
    by apply IH, pair_step_first_best.
Qed.

(** X13. Among pairs with the best score, [find_best_match] returns the
    identifier of the first one visited: no pair before it reaches its
    score and no pair after it exceeds it. *)
Theorem find_best_match_keeps_the_first_best (name : text)
  (epg_channels : dict (list text)) (cid : text) :
  fst (find_best_match lower name epg_channels) = Some cid ->
  exists pre alias post,
    alias_pairs epg_channels = pre ++ (cid, alias) :: post
    /\ similarity lower name alias
       = snd (find_best_match lower name epg_channels)
    /\ (forall q, In q pre ->
          fle (similarity lower name alias)
              (similarity lower name (snd q)) = false)
    /\ (forall q, In q post ->
          flt (similarity lower name alias)
              (similarity lower name (snd q)) = false).
Proof.
  pose proof (best_candidate_first_best name epg_channels) as H.
  rewrite find_best_match_score. unfold find_best_match.
  destruct (best_candidate lower name epg_channels) as [bid bs].
  unfold first_best in H. cbn [fst snd] in *.
  destruct (fle MIN_SIMILARITY bs); cbn [fst]; [|done].
  intros ->.
  destruct H as [(? & _)|(pre & [c a] & post & E & [= <-] & -> & Hpre & Hpost)];
    [done|].
  by exists pre, a, post.
Qed.

End FirstBest.

(** ** The playlist and the projected guide *)

Lemma filter_sublist_mono {A} (f g : A -> bool) (l : list A) :
  (forall x, f x = true -> g x = true) ->
  sublist (List.filter f l) (List.filter g l).
Proof.
  intros H. induction l as [|x l IH]; simpl; [constructor|].
  destruct (f x) eqn:E.
  - rewrite (H x E). by apply sublist_skip.
  - destruct (g x); [by apply sublist_cons|done].
Qed.

Section Playlists.

Variable lower : text -> text.
Context {used_set : PySet}.

Lemma main_used_ids_names (m3u_text epg_xml cid : text) :
  set_in cid (main_used_ids lower m3u_text epg_xml) = true
  <-> exists name, name ∈ map fst (parse_m3u_channels m3u_text)
        /\ accepted_id lower name (parse_epg_channels epg_xml) = Some cid.
Proof. unfold main_used_ids. apply match_all_used_ids. Qed.

Lemma projected_guide_mono (epg_xml : text) (u1 u2 : pyset) :
  (forall cid, set_in cid u1 = true -> set_in cid u2 = true) ->
  sublist (projected_channels epg_xml u1) (projected_channels epg_xml u2)
  /\ sublist (projected_programmes epg_xml u1)
       (projected_programmes epg_xml u2).
Proof.
  intros H. split; apply filter_sublist_mono.
  - intros c. apply H.
  - intros b. unfold programme_kept. destruct (programme_channel b); [|done].
    apply H.
Qed.

Lemma build_filtered_epg_ext (epg_xml : text) (u1 u2 : pyset) :
  (forall cid, set_in cid u1 = set_in cid u2) ->
  build_filtered_epg epg_xml u1 = build_filtered_epg epg_xml u2.
Proof.
  intros H. unfold build_filtered_epg. rewrite !filtered_epg_parts_spec.
  assert (Ec : projected_channels epg_xml u1 = projected_channels epg_xml u2).
  { apply filter_ext. intros c. apply H. }
  assert (Ep : projected_programmes epg_xml u1
               = projected_programmes epg_xml u2).
  { apply filter_ext. intros b. unfold programme_kept.
    destruct (programme_channel b); [|done]. apply H. }
  by rewrite Ec, Ep.
Qed.

(** X14. The projected guide depends on the playlist through the set of its
    names only.  When every name of one playlist is a name of another, the
    channels and the programmes kept for the first are kept for the second,
    in the same order; when the two playlists have the same names, [main]
    produces the same guide for both, whatever the order, the repetitions
    and the URLs of their entries. *)
Theorem projected_guide_depends_on_the_names
  (m3u_text m3u_text' epg_xml : text) :
  (forall name, name ∈ map fst (parse_m3u_channels m3u_text) ->
                name ∈ map fst (parse_m3u_channels m3u_text')) ->
  sublist
    (projected_channels epg_xml (main_used_ids lower m3u_text epg_xml))
    (projected_channels epg_xml (main_used_ids lower m3u_text' epg_xml))
  /\ sublist
       (projected_programmes epg_xml (main_used_ids lower m3u_text epg_xml))
       (projected_programmes epg_xml (main_used_ids lower m3u_text' epg_xml))
  /\ ((forall name, name ∈ map fst (parse_m3u_channels m3u_text') ->
                    name ∈ map fst (parse_m3u_channels m3u_text)) ->
      snd (main lower m3u_text epg_xml) = snd (main lower m3u_text' epg_xml)).
Proof.
  intros H.
  assert (G : forall a b : text,
            (forall name, name ∈ map fst (parse_m3u_channels a) ->
                          name ∈ map fst (parse_m3u_channels b)) ->
            forall cid,
              set_in cid (main_used_ids lower a epg_xml) = true ->
              set_in cid (main_used_ids lower b epg_xml) = true).
  { intros a b Hab cid. rewrite !main_used_ids_names.
    intros (name & Hin & Hacc). exists name. auto. }
  destruct (projected_guide_mono epg_xml _ _ (G _ _ H)) as [H1 H2].
  split; [done|]. split; [done|]. intros H'. rewrite !main_documents.
  cbn [snd]. apply build_filtered_epg_ext. intros cid.
  apply eq_true_iff_eq. split; by apply G.
Qed.

(** X15. When no entry of the playlist has an accepted match, [main] writes
    every entry with a metadata line without [tvg-id], and a guide reduced
    to its header and the closing tag. *)
Theorem main_without_a_match (m3u_text epg_xml : text) :
  (forall name url,
     In (name, url) (parse_m3u_channels m3u_text) ->
     accepted_id lower name (parse_epg_channels epg_xml) = None) ->
  main lower m3u_text epg_xml
  = (join [NL]
       (M3U_HEADER
        :: flat_map (fun e => [py "#EXTINF:-1," ++ fst e; snd e])
             (parse_m3u_channels m3u_text)) ++ [NL],
     epg_header epg_xml ++ [NL] ++ py "</tv>").
Proof.
  intros H. rewrite main_documents. f_equal.
  - unfold build_new_m3u. rewrite new_m3u_lines_flat. do 3 f_equal.
    assert (G : forall e, In e (parse_m3u_channels m3u_text) ->
              extinf_line (main_mapping lower m3u_text epg_xml) (fst e)
              = py "#EXTINF:-1," ++ fst e).
    { intros [name url] Hin. cbn [fst].
      rewrite (extinf_line_accepted lower _ name (parse_epg_channels epg_xml))
        by (by apply (main_mapping_of_entry _ _ _ name url)).
      by rewrite (H name url Hin). }
    induction (parse_m3u_channels m3u_text) as [|e l IH]; [done|].
    cbn [flat_map app]. rewrite (G e) by (by left). do 2 f_equal.
    apply IH.
    + intros name url Hin. apply (H name url). by right.
    + intros e' Hin. apply G. by right.
  - unfold build_filtered_epg. rewrite filtered_epg_parts_spec.
    assert (Hno : forall cid,
              set_in cid (main_used_ids lower m3u_text epg_xml) = false).
    { intros cid. apply not_true_is_false. rewrite main_used_ids_names.
      intros (name & Hin & Hacc). apply in_map_fst_iff in Hin as [url Hin].
      by rewrite (H name url Hin) in Hacc. }
    assert (Ec : projected_channels epg_xml
                   (main_used_ids lower m3u_text epg_xml) = []).
    { unfold projected_channels.
      induction (channel_blocks epg_xml) as [|c l IH]; [done|].
      simpl. by rewrite Hno. }
    assert (Ep : projected_programmes epg_xml
                   (main_used_ids lower m3u_text epg_xml) = []).
    { unfold projected_programmes, programme_kept.
      induction (programme_blocks epg_xml) as [|b l IH]; [done|].
      simpl. destruct (programme_channel b); [by rewrite Hno|done]. }
    by rewrite Ec, Ep.
Qed.

(** X16. When no identifier of the guide mapping holds a comma or a line
    boundary, the projected playlist has the entries of the playlist read:
    parsing what [main] wrote gives the same names and URLs, in the same
    order. *)
Theorem projected_playlist_reads_as_the_playlist (m3u_text epg_xml : text) :
  forallb plain_id (map fst (parse_epg_channels epg_xml)) = true ->
  parse_m3u_channels (fst (main lower m3u_text epg_xml))
  = parse_m3u_channels m3u_text.
Proof.
  intros H. rewrite main_documents. cbn [fst].
  assert (He : forallb entry_ok (parse_m3u_channels m3u_text) = true).
  { unfold parse_m3u_channels, parse_m3u_lines.
    apply parse_m3u_lines_entries; [apply splitlines_lines|done|done]. }
  assert (Hm : forall name cid,
            dict_get (main_mapping lower m3u_text epg_xml) name = Some cid ->
            plain_id cid = true).
  { intros name cid. unfold main_mapping. rewrite match_all_mapping.
    destruct (decide _); [|done]. intros Hacc.
    apply accepted_id_spec in Hacc as [_ Hid].
    apply find_best_match_id in Hid.
    rewrite forallb_forall in H. by apply H. }
  unfold parse_m3u_channels at 1. unfold build_new_m3u.
  rewrite splitlines_join.
  - by rewrite new_m3u_lines_read.
  - by apply new_m3u_lines_one_line.
  - by rewrite new_m3u_lines_flat.
Qed.

End Playlists.

(** ** Line endings *)

Lemma splitlines_from_crlf (l cur rest : text) :
  one_line l = true ->
  splitlines_from cur (l ++ CR :: NL :: rest)
  = (rev cur ++ l) :: splitlines_from [] rest.
Proof.
  revert cur. induction l as [|c l IH]; intros cur H.
  - rewrite app_nil_r. simpl app. by rewrite splitlines_from_break by done.
  - unfold one_line in H. simpl in H. apply andb_true_iff in H as [Hc Hl].
    apply negb_true_iff in Hc. simpl app.
    rewrite splitlines_from_char by done. rewrite IH by done.
    simpl. by rewrite <- app_assoc.
Qed.

Lemma splitlines_join_crlf (lines : list text) :
  Forall (fun l => one_line l = true) lines -> lines <> [] ->
  splitlines (join [CR; NL] lines ++ [CR; NL]) = lines.
Proof.
  unfold splitlines. induction 1 as [|l ls Hl Hls IH]; intros Hne; [done|].
  destruct ls as [|l' ls].
  - simpl join. by rewrite splitlines_from_crlf.
  - change (join [CR; NL] (l :: l' :: ls))
      with (l ++ [CR; NL] ++ join [CR; NL] (l' :: ls)).
    rewrite <- !app_assoc. simpl app at 2.
    rewrite splitlines_from_crlf by done. f_equal. by apply IH.
Qed.

(** X17. Lines ended by a carriage return and a line feed are parsed as the
    same lines ended by a line feed. *)
Theorem line_endings_make_no_difference (lines : list text) :
  forallb one_line lines = true -> lines <> [] ->
  parse_m3u_channels (join [CR; NL] lines ++ [CR; NL])
  = parse_m3u_channels (join [NL] lines ++ [NL]).
Proof.
  intros H Hne. unfold parse_m3u_channels.
  assert (Hl : Forall (fun l => one_line l = true) lines).
  { apply List.Forall_forall. by apply forallb_forall. }
  by rewrite splitlines_join_crlf, splitlines_join.
Qed.

(** ** [get_matching_blocks]: the blocks fit in both sequences *)

Section BlockSizes.

Variables a b : text.

Lemma scan_row_columns (i blo bhi : nat) (j2len : gmap nat nat)
  (js : list nat) (newj2len : gmap nat nat) (best : block) :
  (forall j, (j2len_at j2len j <= S j - blo)%nat) ->
  columns_invariant blo bhi (newj2len, best) ->
  columns_invariant blo bhi (scan_row i blo bhi j2len js newj2len best).
Proof.
  intros Hold. revert newj2len best.
  induction js as [|j js IH]; intros m best Hinv; cbn [scan_row]; [done|].
  destruct (Nat.ltb_spec j blo); [by apply IH|].
  destruct (Nat.leb_spec bhi j); [done|].
  apply IH. destruct Hinv as (Hm & Hlo & Hhi). cbn [fst snd] in *.
  assert (Hk : (S (j2len_get j2len j) <= S j - blo)%nat).
  { destruct j as [|j']; cbn [j2len_get]; [lia|].
    specialize (Hold j'). unfold j2len_at in Hold. lia. }
  split; [|split]; cbn [fst snd].
  - intros x. unfold j2len_at.
    destruct (decide (j = x)) as [->|Hne].
    + rewrite lookup_insert_eq. simpl. lia.
    + rewrite lookup_insert_ne by done. apply Hm.
  - destruct (Nat.ltb_spec (snd best) (S (j2len_get j2len j)));
      cbn [fst snd]; lia.
  - destruct (Nat.ltb_spec (snd best) (S (j2len_get j2len j)));
      cbn [fst snd]; lia.
Qed.

Lemma scan_rows_columns (alo ahi blo bhi : nat) :
  (blo <= bhi)%nat ->
  columns_invariant blo bhi (scan_rows a b alo ahi blo bhi).
Proof.
  intros H. unfold scan_rows. generalize (ahi - alo)%nat as n.
  assert (E : forall best : block,
            (blo <= snd (fst best))%nat ->
            (snd (fst best) + snd best <= bhi)%nat ->
            columns_invariant blo bhi (∅, best)).
  { intros best H1 H2. split; [|by split].
    intros j. unfold j2len_at. cbn [fst]. rewrite lookup_empty. simpl. lia. }
  induction n as [|n IH].
  - cbn [seq fold_left]. apply E; cbn [fst snd]; lia.
  - rewrite seq_S, fold_left_app. cbn [fold_left].
    destruct (fold_left _ (seq alo n) _) as [j2len best].
    destruct IH as (Hm & Hlo & Hhi). cbn [fst snd] in *.
    apply scan_row_columns; [done|]. by apply E.
Qed.

Lemma extend_left_columns (alo blo besti bestj bestsize : nat) :
  (blo <= bestj)%nat ->
  (blo <= snd (fst (extend_left a b alo blo besti bestj bestsize)))%nat
  /\ (snd (fst (extend_left a b alo blo besti bestj bestsize))
      + snd (extend_left a b alo blo besti bestj bestsize)
      = bestj + bestsize)%nat.
Proof.
  revert bestj bestsize.
  induction besti as [|i IH]; intros bestj bestsize H; cbn [extend_left].
  - cbn [fst snd]. lia.
  - destruct bestj as [|j]; [cbn [fst snd]; lia|].
    destruct (alo <? S i)%nat; cbn [andb]; [|cbn [fst snd]; lia].
    destruct (Nat.ltb_spec blo (S j)); cbn [andb]; [|cbn [fst snd]; lia].
    destruct (nth i a 0 =? nth j b 0); [|cbn [fst snd]; lia].
    destruct (IH j (S bestsize)) as [H1 H2]; [lia|]. lia.
Qed.

Lemma extend_right_columns (n ahi bhi besti bestj bestsize : nat) :
  (bestj + bestsize <= bhi)%nat ->
  (bestj + extend_right n a b ahi bhi besti bestj bestsize <= bhi)%nat.
Proof.
  revert bestsize. induction n as [|n IH]; intros bestsize H;
    cbn [extend_right]; [lia|].
  destruct (besti + bestsize <? ahi)%nat; cbn [andb]; [|lia].
  destruct (Nat.ltb_spec (bestj + bestsize) bhi); cbn [andb]; [|lia].
  destruct (nth (besti + bestsize) a 0 =? nth (bestj + bestsize) b 0); [|lia].
  apply IH. lia.
Qed.

(** The block found lies within the columns of the range. *)
Lemma find_longest_match_columns (alo ahi blo bhi : nat) :
  (blo <= bhi)%nat ->
  (blo <= snd (fst (find_longest_match a b alo ahi blo bhi)))%nat
  /\ (snd (fst (find_longest_match a b alo ahi blo bhi))
      + snd (find_longest_match a b alo ahi blo bhi) <= bhi)%nat.
Proof.
  intros H. unfold find_longest_match.
  destruct (scan_rows_columns alo ahi blo bhi H) as (_ & Hlo & Hhi).
  destruct (snd (scan_rows a b alo ahi blo bhi)) as [[i j] k].
  cbn [fst snd] in *.
  destruct (extend_left_columns alo blo i j k Hlo) as [H1 H2].
  destruct (extend_left a b alo blo i j k) as [[i' j'] k'].
  cbn [fst snd] in *.
  pose proof (extend_right_columns (ahi - (i' + k')) ahi bhi i' j' k').
  lia.
Qed.

Lemma block_sizes_app (blocks : list block) (i j k : nat) :
  block_sizes (blocks ++ [(i, j, k)]) = (block_sizes blocks + k)%nat.
Proof. unfold block_sizes. by rewrite fold_left_app. Qed.

(** The sizes of the blocks found add up to no more than the rows, and no
    more than the columns, that the work list held. *)
Lemma matching_loop_sizes (fuel : nat) (queue : list range)
  (blocks : list block) :
  Forall well_formed_area queue ->
  (block_sizes (matching_loop fuel a b queue blocks)
   <= block_sizes blocks + rows_left queue)%nat
  /\ (block_sizes (matching_loop fuel a b queue blocks)
      <= block_sizes blocks + columns_left queue)%nat.
Proof.
  revert queue blocks.
  induction fuel as [|fuel IH]; intros queue blocks Hwf.
  - cbn [matching_loop]. lia.
  - destruct queue as [|[[[alo ahi] blo] bhi] queue];
      [cbn [matching_loop rows_left columns_left fold_right]; lia|].
    inversion Hwf as [|? ? Hr Hq]; subst.
    cbn [well_formed_area] in Hr. destruct Hr as [Hr Hc].
    cbn [matching_loop rows_left columns_left fold_right].
    fold (rows_left queue). fold (columns_left queue).
    pose proof (find_longest_match_bounds a b alo ahi blo bhi Hr) as [A1 A2].
    pose proof (find_longest_match_columns alo ahi blo bhi Hc) as [B1 B2].
    destruct (find_longest_match a b alo ahi blo bhi) as [[i j] k].
    cbn [fst snd] in A1, A2, B1, B2.
    destruct (Nat.eqb_spec k 0) as [->|Hk].
    + destruct (IH queue blocks Hq). lia.
    + match goal with
      | |- context [matching_loop fuel a b ?q ?bl] =>
          destruct (IH q bl) as [I1 I2]
      end.
      * destruct (Nat.ltb_spec (i + k) ahi); cbn [andb];
          destruct (Nat.ltb_spec alo i); cbn [andb];
          destruct (Nat.ltb_spec (j + k) bhi);
          destruct (Nat.ltb_spec blo j);
          repeat (apply List.Forall_cons;
                  [cbn [well_formed_area]; lia|]);
          exact Hq.
      * rewrite block_sizes_app in I1, I2.
        destruct (Nat.ltb_spec (i + k) ahi); cbn [andb] in *;
          destruct (Nat.ltb_spec alo i); cbn [andb] in *;
          destruct (Nat.ltb_spec (j + k) bhi);
          destruct (Nat.ltb_spec blo j);
          cbn [rows_left columns_left fold_right] in I1, I2;
          fold (rows_left queue) in I1; fold (columns_left queue) in I2;
          lia.
Qed.

Lemma get_matching_blocks_sizes :
  (block_sizes (get_matching_blocks a b) <= length a)%nat
  /\ (block_sizes (get_matching_blocks a b) <= length b)%nat.
Proof.
  unfold get_matching_blocks.
  destruct (matching_loop_sizes
              (queue_weight [(O, length a, O, length b)])
              [(O, length a, O, length b)] []) as [H1 H2].
  - apply List.Forall_cons; [cbn [well_formed_area]; lia|constructor].
  - cbn [rows_left columns_left fold_right] in H1, H2.
    change (block_sizes []) with O in H1, H2. lia.
Qed.

End BlockSizes.

(** ** binary64: a quotient of at most one *)

Lemma digits2_upper (p : positive) : Zpos p < 2 ^ Zpos (digits2_pos p).
Proof.
  induction p as [p IH|p IH|]; cbn [digits2_pos].
  - rewrite Pos2Z.inj_succ, Z.pow_succ_r by lia. lia.
  - rewrite Pos2Z.inj_succ, Z.pow_succ_r by lia. lia.
  - simpl. lia.
Qed.

Lemma digits2_unique (p : positive) (d : Z) :
  2 ^ (d - 1) <= Zpos p < 2 ^ d -> Zpos (digits2_pos p) = d.
Proof.
  intros [H1 H2]. pose proof (digits2_lower p) as L.
  pose proof (digits2_upper p) as U.
  destruct (Z.lt_trichotomy (Zpos (digits2_pos p)) d) as [G|[G|G]]; [|done|].
  - assert (2 ^ Zpos (digits2_pos p) <= 2 ^ (d - 1))
      by (apply Z.pow_le_mono_r; lia).
    lia.
  - assert (0 <= d).
    { destruct (Z.le_gt_cases 0 d) as [|N]; [done|].
      rewrite (Z.pow_neg_r 2 d) in H2 by lia. lia. }
    assert (2 ^ d <= 2 ^ (Zpos (digits2_pos p) - 1))
      by (apply Z.pow_le_mono_r; lia).
    lia.
Qed.

Lemma iter_xO_value (p k : positive) :
  Zpos (Pos.iter xO p k) = Zpos p * 2 ^ Zpos k.
Proof.
  induction k as [|k IH] using Pos.peano_ind.
  - cbn [Pos.iter]. rewrite Z.pow_1_r. lia.
  - rewrite Pos.iter_succ, Pos2Z.inj_xO, IH, Pos2Z.inj_succ,
      Z.pow_succ_r by lia.
    lia.
Qed.

Lemma shiftl_value (p : positive) (n : N) :
  Zpos (Pos.shiftl p n) = Zpos p * 2 ^ Z.of_N n.
Proof.
  destruct n as [|k].
  - change (Pos.shiftl p 0) with p. change (Z.of_N 0) with 0.
    rewrite Z.pow_0_r. lia.
  - apply iter_xO_value.
Qed.

Lemma loc_of_shr_record_of_loc (m : Z) (l : location) :
  loc_of_shr_record (shr_record_of_loc m l) = l
  /\ shr_m (shr_record_of_loc m l) = m.
Proof. by destruct l as [|[]]. Qed.

Lemma round_nearest_even_range (m : Z) (l : location) :
  m <= round_nearest_even m l <= m + 1.
Proof.
  unfold round_nearest_even. destruct l as [|[]]; try lia.
  destruct (Z.even m); lia.
Qed.

(** The last step of rounding, on a mantissa of 53 bits or on 2^53. *)
Lemma round_finish (m : positive) (e : Z) :
  2 ^ 52 <= Zpos m <= 2 ^ 53 -> -1074 <= e <= 900 ->
  (let '(mrs, e') := shr_fexp prec emax (Zpos m) e loc_Exact in
   match shr_m mrs with
   | 0 => S754_zero false
   | Zpos m' =>
       if e' <=? emax - prec then S754_finite false m' e'
       else S754_infinity false
   | Zneg _ => S754_nan
   end)
  = if Zpos m <? 2 ^ 53 then S754_finite false m e
    else S754_finite false 4503599627370496 (e + 1).
Proof.
  intros Hm He. unfold shr_fexp. cbn [Zdigits2 shr_record_of_loc].
  destruct (Z.ltb_spec (Zpos m) (2 ^ 53)) as [Hlt|Hge].
  - rewrite (digits2_unique m 53) by lia.
    replace (fexp prec emax (53 + e) - e) with 0
      by (unfold fexp, emin, prec, emax; lia).
    cbn [shr shr_m]. unfold emax, prec.
    destruct (Z.leb_spec e (1024 - 53)); [done|lia].
  - assert (E : m = 9007199254740992%positive) by lia. subst m.
    change (Zpos (digits2_pos 9007199254740992)) with 54.
    replace (fexp prec emax (54 + e) - e) with 1
      by (unfold fexp, emin, prec, emax; lia).
    cbn [shr SpecFloat.iter_pos shr_1 shr_m orb]. unfold emax, prec.
    destruct (Z.leb_spec (e + 1) (1024 - 53)); [done|lia].
Qed.

(** Rounding a positive mantissa of 53 bits keeps the exponent, or gives
    the next power of two. *)
Lemma binary_round_aux_53 (q : positive) (e : Z) (l : location) :
  2 ^ 52 <= Zpos q < 2 ^ 53 -> -1074 <= e <= 900 ->
  (exists m, binary_round_aux prec emax false (Zpos q) e l
             = S754_finite false m e)
  \/ binary_round_aux prec emax false (Zpos q) e l
     = S754_finite false 4503599627370496 (e + 1).
Proof.
  intros Hq He.
  remember (binary_round_aux prec emax false (Zpos q) e l) as res eqn:E.
  unfold binary_round_aux in E. unfold shr_fexp at 1 in E.
  cbn [Zdigits2] in E. rewrite (digits2_unique q 53) in E by lia.
  replace (fexp prec emax (53 + e) - e) with 0 in E
    by (unfold fexp, emin, prec, emax; lia).
  cbn [shr] in E.
  destruct (loc_of_shr_record_of_loc (Zpos q) l) as [E1 E2].
  rewrite E1, E2 in E.
  pose proof (round_nearest_even_range (Zpos q) l) as Hr.
  destruct (round_nearest_even (Zpos q) l) as [|m|m]; [lia| |lia].
  rewrite round_finish in E by lia. subst res.
  destruct (Zpos m <? 2 ^ 53); [left; by eexists|by right].
Qed.

(** Rounding a positive mantissa of 54 bits adds one to the exponent, or
    gives the next power of two. *)
Lemma binary_round_aux_54 (q : positive) (e : Z) (l : location) :
  2 ^ 53 <= Zpos q < 2 ^ 54 -> -1074 <= e <= 899 ->
  (exists m, binary_round_aux prec emax false (Zpos q) e l
             = S754_finite false m (e + 1))
  \/ binary_round_aux prec emax false (Zpos q) e l
     = S754_finite false 4503599627370496 (e + 1 + 1).
Proof.
  intros Hq He.
  remember (binary_round_aux prec emax false (Zpos q) e l) as res eqn:E.
  unfold binary_round_aux in E. unfold shr_fexp at 1 in E.
  cbn [Zdigits2] in E. rewrite (digits2_unique q 54) in E by lia.
  replace (fexp prec emax (54 + e) - e) with 1 in E
    by (unfold fexp, emin, prec, emax; lia).
  cbn [shr SpecFloat.iter_pos] in E.
  assert (G : exists (p : positive) r s,
            shr_1 (shr_record_of_loc (Zpos q) l)
            = {| shr_m := Zpos p; shr_r := r; shr_s := s |}
            /\ 2 ^ 52 <= Zpos p < 2 ^ 53).
  { destruct q as [p|p|]; [| |lia];
      pose proof (Pos2Z.inj_xO p); pose proof (Pos2Z.inj_xI p);
      destruct l as [|[]]; cbn [shr_record_of_loc shr_1];
      eexists p, _, _; (split; [reflexivity|lia]). }
  destruct G as (p & r & s & G & Hp). rewrite G in E. cbn [shr_m] in E.
  pose proof (round_nearest_even_range (Zpos p)
                (loc_of_shr_record
                   {| shr_m := Zpos p; shr_r := r; shr_s := s |})) as Hr.
  destruct (round_nearest_even (Zpos p) _) as [|m|m]; [lia| |lia].
  rewrite round_finish in E by lia. subst res.
  destruct (Zpos m <? 2 ^ 53); [left; by eexists|by right].
Qed.

Lemma div_eucl_spec (a b : Z) :
  0 < b ->
  exists q r, Z.div_eucl a b = (q, r) /\ a = b * q + r /\ 0 <= r < b.
Proof.
  intros Hb. pose proof (Z_div_mod a b ltac:(lia)) as H.
  destruct (Z.div_eucl a b) as [q r]. exists q, r. by split.
Qed.

(** The quotient of two positive numbers of 53 bits, the first not above
    the second, is at most 1.0. *)
Lemma fdiv_at_most_one (mx my : positive) (ex ey : Z) :
  2 ^ 52 <= Zpos mx < 2 ^ 53 -> 2 ^ 52 <= Zpos my < 2 ^ 53 ->
  -100 <= ex <= 100 -> -100 <= ey <= 100 ->
  ex < ey \/ (ex = ey /\ Zpos mx <= Zpos my) ->
  exists m e,
    fdiv (S754_finite false mx ex) (S754_finite false my ey)
    = S754_finite false m e
    /\ (e < -52 \/ (e = -52 /\ m = 4503599627370496%positive)).
Proof.
  intros Hx Hy Hex Hey Hle.
  destruct (decide (ex = ey /\ mx = my)) as [[-> ->]|Hne].
  { rewrite fdiv_self. exists 4503599627370496%positive, (-52).
    split; [done|]. by right. }
  unfold fdiv, SFdiv, SFdiv_core_binary. cbn [xorb Zdigits2].
  rewrite (digits2_unique mx 53), (digits2_unique my 53) by lia.
  replace (Z.min (fexp prec emax (53 + ex - (53 + ey))) (ex - ey))
    with (ex - ey - 53) by (unfold fexp, emin, prec, emax; lia).
  replace (ex - ey - (ex - ey - 53)) with 53 by lia.
  cbv beta iota zeta. rewrite Z.shiftl_mul_pow2 by lia.
  destruct (div_eucl_spec (Zpos mx * 2 ^ 53) (Zpos my) ltac:(lia))
    as (q & r & -> & Hq & Hr).
  destruct (Z.lt_ge_cases (Zpos mx) (Zpos my)) as [Hlt|Hge].
  - assert (Hq' : 2 ^ 52 <= q < 2 ^ 53) by nia.
    destruct q as [|q|q]; [lia| |lia].
    destruct (binary_round_aux_53 q (ex - ey - 53)
                (new_location (Zpos my) r) Hq' ltac:(lia))
      as [[m ->]| ->].
    + exists m, (ex - ey - 53). split; [done|]. left. lia.
    + exists 4503599627370496%positive, (ex - ey - 53 + 1).
      split; [done|]. lia.
  - assert (Hq' : 2 ^ 53 <= q < 2 ^ 54) by nia.
    assert (Hlt : ex < ey).
    { destruct Hle as [?|[-> Hm]]; [done|]. exfalso. apply Hne.
      split; [done|]. lia. }
    destruct q as [|q|q]; [lia| |lia].
    destruct (binary_round_aux_54 q (ex - ey - 53)
                (new_location (Zpos my) r) Hq' ltac:(lia))
      as [[m ->]| ->].
    + exists m, (ex - ey - 53 + 1). split; [done|]. left. lia.
    + exists 4503599627370496%positive, (ex - ey - 53 + 1 + 1).
      split; [done|]. lia.
Qed.

Lemma digits2_mono (p q : positive) :
  Zpos p <= Zpos q -> Zpos (digits2_pos p) <= Zpos (digits2_pos q).
Proof.
  intros H. pose proof (digits2_lower p). pose proof (digits2_upper q).
  destruct (Z.le_gt_cases (Zpos (digits2_pos p)) (Zpos (digits2_pos q)))
    as [|G]; [done|].
  assert (2 ^ Zpos (digits2_pos q) <= 2 ^ (Zpos (digits2_pos p) - 1))
    by (apply Z.pow_le_mono_r; lia).
  lia.
Qed.

(** The mantissa of a positive integer of at most 53 bits, aligned, has 53
    bits. *)
Lemma aligned_mantissa (p : positive) :
  Zpos (digits2_pos p) <= 53 ->
  2 ^ 52 <= Zpos (Pos.shiftl p (Z.to_N (53 - Zpos (digits2_pos p)))) < 2 ^ 53.
Proof.
  intros H. rewrite shiftl_value, Z2N.id by lia.
  pose proof (digits2_lower p) as L. pose proof (digits2_upper p) as U.
  set (d := Zpos (digits2_pos p)) in *.
  assert (E52 : 2 ^ 52 = 2 ^ (d - 1) * 2 ^ (53 - d)).
  { rewrite <- Z.pow_add_r by lia. f_equal. lia. }
  assert (E53 : 2 ^ 53 = 2 ^ d * 2 ^ (53 - d)).
  { rewrite <- Z.pow_add_r by lia. f_equal. lia. }
  assert (0 < 2 ^ (53 - d)) by (apply Z.pow_pos_nonneg; lia).
  rewrite E52, E53. split.
  - apply Z.mul_le_mono_nonneg_r; lia.
  - apply Z.mul_lt_mono_pos_r; lia.
Qed.

(** [_calculate_ratio] on a number of matches that is at most half the
    total length: a value between 0.0 and 1.0. *)
Lemma calculate_ratio_bounds (matches total : nat) :
  (2 * matches <= total)%nat -> Z.of_nat total < 2 ^ 52 ->
  fle ZERO (calculate_ratio matches total) = true
  /\ fle (calculate_ratio matches total) ONE = true.
Proof.
  intros H Ht. unfold calculate_ratio.
  destruct (Nat.eqb_spec total 0) as [E|Hne]; [done|].
  destruct (Z.of_nat total) as [|pt|pt] eqn:Et; [lia| |lia].
  assert (Dt : Zpos (digits2_pos pt) <= 52) by (apply digits2_small; lia).
  rewrite (float_of_small_int pt) by lia.
  destruct (Z.of_nat matches) as [|pm|pm] eqn:Em; [done| |lia].
  assert (Hmt : Zpos pm~0 <= Zpos pt) by lia.
  pose proof (digits2_mono _ _ Hmt) as Dm. cbn [digits2_pos] in Dm.
  rewrite Pos2Z.inj_succ in Dm.
  rewrite (float_of_small_int pm) by lia.
  pose proof (aligned_mantissa pm ltac:(lia)) as Am.
  pose proof (aligned_mantissa pt ltac:(lia)) as At.
  rewrite fmul_two; [| |lia].
  2:{ apply Pos2Z.inj. apply (digits2_unique _ 53). exact Am. }
  destruct (fdiv_at_most_one _ _ (Zpos (digits2_pos pm) - 53 + 1)
              (Zpos (digits2_pos pt) - 53) Am At) as (m & e & -> & He).
  - pose proof (Pos2Z.is_pos (digits2_pos pm)). lia.
  - pose proof (Pos2Z.is_pos (digits2_pos pt)). lia.
  - destruct (Z.eq_dec (Z.succ (Zpos (digits2_pos pm)))
                (Zpos (digits2_pos pt))) as [Ed|Nd]; [|left; lia].
    right. split; [lia|]. rewrite !shiftl_value, !Z2N.id by lia.
    replace (53 - Zpos (digits2_pos pm))
      with (Z.succ (53 - Zpos (digits2_pos pt))) by lia.
    rewrite Z.pow_succ_r by lia.
    assert (0 < 2 ^ (53 - Zpos (digits2_pos pt)))
      by (apply Z.pow_pos_nonneg; lia).
    rewrite Pos2Z.inj_xO in Hmt. nia.
  - split; [done|]. unfold fle, SFleb, SFcompare, ONE.
    destruct He as [He|[-> ->]].
    + by destruct (Z.compare_spec e (-52)); [lia| |lia].
    + reflexivity.
Qed.

Lemma ratio_block_sizes (a b : text) :
  ratio a b
  = calculate_ratio (block_sizes (get_matching_blocks a b))
      (length a + length b).
Proof. reflexivity. Qed.

(** X18. A similarity score lies between 0.0 and 1.0 (for names whose
    lengths add up to less than 2^52, where the conversions to [float] are
    exact): the blocks that [ratio] counts fit in each of the two names. *)
Theorem similarity_is_between_zero_and_one (lower : text -> text)
  (a b : text) :
  Z.of_nat (length (lower a) + length (lower b)) < 2 ^ 52 ->
  fle ZERO (similarity lower a b) = true
  /\ fle (similarity lower a b) ONE = true.
Proof.
  intros H. unfold similarity. rewrite ratio_block_sizes.
  destruct (get_matching_blocks_sizes (lower a) (lower b)) as [Ha Hb].
  apply calculate_ratio_bounds; [lia|done].
Qed.

(** ** The two documents agree *)

Section Agreement.

Variable lower : text -> text.
Context {used_set : PySet}.


End Agreement.

(** ** A guide without a [<tv] *)

Lemma contains_text_cut (s part : text) :
  contains_text s part = true <-> cut_from s part.
Proof.
  unfold contains_text. rewrite existsb_exists. split.
  - intros (i & _ & H). apply startswith_split in H.
    by apply (cut_from_drop s part (drop (length part) (drop i s)) i).
  - intros (before & after & ->). exists (length before). split.
    + apply in_seq. rewrite !length_app. lia.
    + by rewrite drop_app_length, startswith_app.
Qed.

(** X20. A guide in which no [<tv] occurs gets the default header: the
    projected guide then begins with the XML declaration and [<tv>] of the
    program, not with text of the guide. *)
Theorem guide_without_tv_gets_the_default_header {used_set : PySet}
  (epg_xml : text) (used_ids : pyset) :
  contains_text epg_xml (py "<tv") = false ->
  epg_header epg_xml = DEFAULT_HEADER
  /\ exists elements,
       build_filtered_epg epg_xml used_ids
       = join [NL] ([DEFAULT_HEADER] ++ elements ++ [py "</tv>"]).
Proof.
  intros H.
  assert (E : epg_header epg_xml = DEFAULT_HEADER).
  { unfold epg_header.
    destruct (re_search HEADER_RE epg_xml) as [gs|] eqn:Hs; [|done].
    destruct (epg_header_cut epg_xml gs Hs)
      as (before & attrs & rest & E1 & _ & E2).
    exfalso. apply not_true_iff_false in H. apply H, contains_text_cut.
    exists before, (attrs ++ py ">" ++ rest).
    rewrite E2 at 1. rewrite E1. by rewrite <- !app_assoc. }
  split; [done|].
  exists (map channel_element (projected_channels epg_xml used_ids)
          ++ map programme_element (projected_programmes epg_xml used_ids)).
  unfold build_filtered_epg. rewrite filtered_epg_parts_spec, E.
  by rewrite <- !app_assoc.
Qed.

(** ** Concrete runs of the further properties *)

Lemma utf8_decode_encode_witness :
  bytes_decode Strict [x41; xc4; x85; xe2; x82; xac; xf0; x9f; x98; x80]
  = Some [65; 261; 8364; 128512]
  /\ download_gzip_xml [x41; xc4; x85; xe2; x82; xac; xf0; x9f; x98; x80]
     = Some [65; 261; 8364; 128512].
Proof.
  apply (utf8_decode_encode [65; 261; 8364; 128512]). reflexivity.
Defined.

Lemma main_invents_no_character_witness :
  is_ascii 76 = true \/ In 76 sample_m3u \/ In 76 sample_epg.
Proof.
  apply (main_invents_no_character ascii_lower list_set sample_m3u sample_epg
           76).
  left. vm_compute. tauto.
Defined.


Lemma parse_m3u_channels_reads_build_new_m3u_witness :
  parse_m3u_channels
    (build_new_m3u
       [(py "LRT HD", py "http://example.org/lrt");
        (py "XYZ, Random", py "http://example.org/xyz")]
       [(py "LRT HD", py "lrt.lt")])
  = [(py "LRT HD", py "http://example.org/lrt");
     (py "XYZ, Random", py "http://example.org/xyz")].
Proof.
  apply parse_m3u_channels_reads_build_new_m3u; [reflexivity|].
  intros name cid H. simpl in H.
  destruct (decide (name = py "LRT HD")); [|done]. by injection H as <-.
Defined.

Lemma skipped_lines_change_nothing_witness :
  parse_m3u_channels
    (py "#EXTINF:-1,LRT HD" ++ NL :: py "#EXTGRP:news" ++ NL
       :: py "http://example.org/lrt")
  = parse_m3u_channels
      (py "#EXTINF:-1,LRT HD" ++ NL :: py "http://example.org/lrt").
Proof.
  apply (skipped_lines_change_nothing (py "#EXTINF:-1,LRT HD")
           (py "http://example.org/lrt") (py "#EXTGRP:news"));
    reflexivity.
Defined.

Lemma aliases_are_normalised_witness :
  [py "ABC TV"; py "ABC"] <> []
  /\ forallb alias_ok [py "ABC TV"; py "ABC"] = true.
Proof.
  apply (aliases_are_normalised sample_epg (py "abc")).
  vm_compute. tauto.
Defined.

Lemma find_best_match_keeps_the_first_best_witness :
  exists pre alias post,
    alias_pairs (parse_epg_channels twin_epg)
    = pre ++ (py "first.lt", alias) :: post
    /\ similarity ascii_lower (py "LRT HD") alias
       = snd (find_best_match ascii_lower (py "LRT HD")
                (parse_epg_channels twin_epg))
    /\ (forall q, In q pre ->
          fle (similarity ascii_lower (py "LRT HD") alias)
              (similarity ascii_lower (py "LRT HD") (snd q)) = false)
    /\ (forall q, In q post ->
          flt (similarity ascii_lower (py "LRT HD") alias)
              (similarity ascii_lower (py "LRT HD") (snd q)) = false).
Proof.
  apply find_best_match_keeps_the_first_best. by vm_compute.
Defined.

Lemma projected_guide_depends_on_the_names_witness :
  sublist
    (projected_channels sample_epg
       (@main_used_ids ascii_lower list_set single_m3u sample_epg))
    (projected_channels sample_epg
       (@main_used_ids ascii_lower list_set sample_m3u sample_epg))
  /\ sublist
       (projected_programmes sample_epg
          (@main_used_ids ascii_lower list_set single_m3u sample_epg))
       (projected_programmes sample_epg
          (@main_used_ids ascii_lower list_set sample_m3u sample_epg))
  /\ ((forall name, name ∈ map fst (parse_m3u_channels sample_m3u) ->
                    name ∈ map fst (parse_m3u_channels single_m3u)) ->
      snd (@main ascii_lower list_set single_m3u sample_epg)
      = snd (@main ascii_lower list_set sample_m3u sample_epg)).
Proof.
  apply projected_guide_depends_on_the_names. intros name H.
  apply list_elem_of_In in H. vm_compute in H. destruct H as [<-|[]].
  apply list_elem_of_In. vm_compute. tauto.
Defined.

Lemma main_without_a_match_witness :
  @main ascii_lower list_set stranger_m3u sample_epg
  = (join [NL]
       (M3U_HEADER
        :: flat_map (fun e => [py "#EXTINF:-1," ++ fst e; snd e])
             (parse_m3u_channels stranger_m3u)) ++ [NL],
     epg_header sample_epg ++ [NL] ++ py "</tv>").
Proof.
  apply main_without_a_match. intros name url H.
  vm_compute in H. destruct H as [[= <- <-]|[]]. by vm_compute.
Defined.

Lemma projected_playlist_reads_as_the_playlist_witness :
  parse_m3u_channels (fst (@main ascii_lower list_set sample_m3u sample_epg))
  = parse_m3u_channels sample_m3u.
Proof.
  apply projected_playlist_reads_as_the_playlist. by vm_compute.
Defined.

Lemma line_endings_make_no_difference_witness :
  parse_m3u_channels
    (join [CR; NL] [py "#EXTINF:-1,LRT HD"; py "http://example.org/lrt"]
       ++ [CR; NL])
  = parse_m3u_channels
      (join [NL] [py "#EXTINF:-1,LRT HD"; py "http://example.org/lrt"]
         ++ [NL]).
Proof. by apply line_endings_make_no_difference. Defined.

Lemma similarity_is_between_zero_and_one_witness :
  fle ZERO (similarity ascii_lower (py "LRT HD") (py "Lrt Plius")) = true
  /\ fle (similarity ascii_lower (py "LRT HD") (py "Lrt Plius")) ONE = true.
Proof.
  apply similarity_is_between_zero_and_one. by vm_compute.
Defined.


Lemma guide_without_tv_gets_the_default_header_witness :
  epg_header (py "<channel id=x></channel>") = DEFAULT_HEADER
  /\ exists elements,
       @build_filtered_epg list_set (py "<channel id=x></channel>") []
       = join [NL] ([DEFAULT_HEADER] ++ elements ++ [py "</tv>"]).
Proof.
  apply guide_without_tv_gets_the_default_header. reflexivity.
Defined.
